(** * KPDCL payment reconciliation: the matching engine of
      [services/ReconciliationService.js], embedded and verified.

    The service pairs CORPORTAL payments (money received) with CCB payments
    (money posted), first on an exact composite key, then by a weighted
    score, and reports what is left over as exceptions together with a few
    KPIs.  The two query results, the options and the process (its clock,
    read anew at every [new Date()], and its time zone) are the inputs of
    the embedding.  A run that throws returns [None].

    JavaScript numbers are IEEE binary64 values, so amounts, scores,
    tolerances and rates are primitive [float]s.  Quantities that the code
    only ever holds as integers (counters, whole-day differences, epoch
    milliseconds) are [Z] and enter float arithmetic through [JS.of_Z]. *)

From stdpp Require Import gmap strings list.
From Stdlib Require Import ZArith Floats Ascii DecimalString Sorted Lia.

Set Warnings "-inexact-float".
Local Open Scope string_scope.
Local Open Scope list_scope.

(** ** JavaScript numbers *)

Module JS.

(** An integer as a number; exact for magnitudes below 2^53, which covers
    every epoch-millisecond value a [Date] can hold. *)
Definition of_Z (z : Z) : float :=
  if (z <? 0)%Z then (- PrimFloat.of_uint63 (Uint63.of_Z (- z)))%float
  else PrimFloat.of_uint63 (Uint63.of_Z z).

(** [parseFloat] applied to a number: the number is printed and read
    back, which only changes [-0] into [0]. *)
Definition parseFloat (x : float) : float :=
  if PrimFloat.is_zero x then 0%float else x.

(** [x || 0]: falsy numbers ([0], [-0], [NaN]) are replaced by [0]. *)
Definition orZero (x : float) : float :=
  if PrimFloat.is_zero x || PrimFloat.is_nan x then 0%float else x.

(** [floor (v * 2^e + 1/2)] for an integer [v], computed exactly. *)
Definition nearest_int (v e : Z) : Z :=
  if (0 <=? e)%Z then (v * 2 ^ e)%Z
  else ((2 * v + 2 ^ (- e)) / 2 ^ (1 - e))%Z.

(** [Math.round]: the nearest integer, halves going up.  Values without a
    fractional part (and [NaN], the infinities) are returned unchanged. *)
Definition Math_round (x : float) : float :=
  match Prim2SF x with
  | S754_finite s m e =>
      if (0 <=? e)%Z then x
      else of_Z (nearest_int (if s then Z.neg m else Z.pos m) e)
  | _ => x
  end.

Fixpoint zeros (n : nat) : string :=
  match n with O => "" | S n' => "0" +:+ zeros n' end.

Definition digits (n : Z) : string := NilZero.string_of_int (Z.to_int n).

(** [x.toFixed(f)]: the integer [n] with [n / 10^f] nearest to [|x|]
    (the larger one on a tie), printed with [f] fractional digits.
    Covers [NaN] and finite values below 10^21; above that JavaScript
    switches to exponent notation, which is not reproduced here. *)
Definition toFixed (f : nat) (x : float) : string :=
  match Prim2SF x with
  | S754_nan => "NaN"
  | S754_infinity s => if s then "-Infinity" else "Infinity"
  | S754_zero _ =>
      "0" +:+ (if Nat.eqb f 0 then "" else "." +:+ zeros f)
  | S754_finite s m e =>
      let n := nearest_int (Z.pos m * 10 ^ Z.of_nat f) e in
      let a := digits (n / 10 ^ Z.of_nat f) in
      let b := digits (n mod 10 ^ Z.of_nat f) in
      (if s then "-" else "") +:+ a +:+
      (if Nat.eqb f 0 then "" else "." +:+ zeros (f - String.length b) +:+ b)
  end.

(** A value that is either a number or a string. *)
Inductive value : Type :=
| Num (x : float)
| Str (s : string).

(** *** The text of a number

    [Number::toString]: the shortest decimal that identifies the value,
    the closest one where several are as short, laid out with or without
    an exponent as the language prescribes. *)

(** [a * 10^p] compared with [b * 2^q], exactly. *)
Definition cmp_scaled (a p b q : Z) : comparison :=
  (a * 10 ^ Z.max p 0 * 2 ^ Z.max (- q) 0 ?= b * 2 ^ Z.max q 0 * 10 ^ Z.max (- p) 0)%Z.

(** The largest [t] with [10^t <= m * 2^e], for [m > 0]. *)
Definition floor_log10 (m e : Z) : Z :=
  let est := ((Z.log2 m + e) * 30103 / 100000)%Z in
  let below t := match cmp_scaled 1 t m e with Gt => false | _ => true end in
  if below (est + 2)%Z then (est + 2)%Z
  else if below (est + 1)%Z then (est + 1)%Z
  else if below est then est
  else (est - 1)%Z.

(** [s * 10^q] rounds to the binary64 value [m * 2^e]: it lies between the
    midpoints to the two neighbouring values, the midpoints included when
    [m] is even. *)
Definition rounds_to (m e s q : Z) : bool :=
  let lo := if (m =? 2 ^ 52)%Z && (-1074 <? e)%Z then (4 * m - 1)%Z else (4 * m - 2)%Z in
  let hi := (4 * m + 2)%Z in
  match cmp_scaled s q lo (e - 2) with
  | Gt => true
  | Eq => Z.even m
  | Lt => false
  end
  &&
  match cmp_scaled s q hi (e - 2) with
  | Lt => true
  | Eq => Z.even m
  | Gt => false
  end.

(** The [k]-digit decimal [s * 10^q] closest to [m * 2^e] among those that
    round to it, if there is one. *)
Definition shortest_at (m e t k : Z) : option (Z * Z) :=
  let q := (t - (k - 1))%Z in
  let num := (m * 2 ^ Z.max e 0 * 10 ^ Z.max (- q) 0)%Z in
  let den := (2 ^ Z.max (- e) 0 * 10 ^ Z.max q 0)%Z in
  let s := (num / den)%Z in
  let low := rounds_to m e s q in
  let high := rounds_to m e (s + 1) q in
  if low && high then
    match cmp_scaled (2 * s + 1) q (2 * m) e with
    | Gt => Some (s, q)
    | Lt => Some ((s + 1)%Z, q)
    | Eq => if Z.even s then Some (s, q) else Some ((s + 1)%Z, q)
    end
  else if low then Some (s, q)
  else if high then Some ((s + 1)%Z, q)
  else None.

Fixpoint shortest_from (fuel : nat) (m e t k : Z) : Z * Z :=
  match fuel with
  | O => (m, 0%Z)
  | S fuel' =>
      match shortest_at m e t k with
      | Some r => r
      | None => shortest_from fuel' m e t (k + 1)%Z
      end
  end.

Fixpoint strip_zeros (fuel : nat) (s q : Z) : Z * Z :=
  match fuel with
  | O => (s, q)
  | S fuel' =>
      if (s mod 10 =? 0)%Z then strip_zeros fuel' (s / 10)%Z (q + 1)%Z else (s, q)
  end.

(** The digits [s] and the exponent [n] of the text: the value prints as
    [0.s * 10^n], with as few digits as identify it (17 always do). *)
Definition shortest (m e : Z) : Z * Z :=
  let '(s, q) := shortest_from 17 m e (floor_log10 m e) 1 in
  let '(s, q) := strip_zeros 17 s q in
  (s, (Z.of_nat (String.length (digits s)) + q)%Z).

Definition format_decimal (s n : Z) : string :=
  let ds := digits s in
  let k := Z.of_nat (String.length ds) in
  if (k <=? n)%Z && (n <=? 21)%Z then ds +:+ zeros (Z.to_nat (n - k))
  else if (0 <? n)%Z && (n <=? 21)%Z then
    String.substring 0 (Z.to_nat n) ds +:+ "."
    +:+ String.substring (Z.to_nat n) (Z.to_nat (k - n)) ds
  else if (-6 <? n)%Z && (n <=? 0)%Z then "0." +:+ zeros (Z.to_nat (- n)) +:+ ds
  else
    let exponent :=
      (if (0 <=? n - 1)%Z then "+" else "-") +:+ digits (Z.abs (n - 1)) in
    if (k =? 1)%Z then ds +:+ "e" +:+ exponent
    else String.substring 0 1 ds +:+ "."
         +:+ String.substring 1 (Z.to_nat (k - 1)) ds +:+ "e" +:+ exponent.

(** The text of a number in a template literal or as a property key. *)
Definition Number_toString (x : float) : string :=
  match Prim2SF x with
  | S754_nan => "NaN"
  | S754_zero _ => "0"
  | S754_infinity s => if s then "-Infinity" else "Infinity"
  | S754_finite s m e =>
      let '(d, n) := shortest (Z.pos m) e in
      (if s then "-" else "") +:+ format_decimal d n
  end.

(** *** Plain objects

    The names of the members of [Object.prototype].  On a plain object
    [obj[k]] finds an own property [k] or else the member of this name,
    which is a function or an object: truthy, and without a [push]. *)
Definition Object_prototype : list string :=
  ["constructor"; "__defineGetter__"; "__defineSetter__"; "hasOwnProperty";
   "__lookupGetter__"; "__lookupSetter__"; "isPrototypeOf"; "propertyIsEnumerable";
   "toString"; "valueOf"; "__proto__"; "toLocaleString"].

End JS.

(** ** Dates

    A [Date] is its epoch-millisecond value.  [moment(a).diff(moment(b),
    'days')] divides the millisecond difference by the length of a day and
    truncates towards zero (both moments in one fixed UTC offset). *)

Definition MS_PER_DAY : Z := 86400000.

Definition moment_diff_days (a b : Z) : Z := Z.quot (a - b) MS_PER_DAY.

(** The process the service runs in: what the successive calls of
    [new Date()] during a run return, and the offset of the process's time
    zone from UTC in minutes (one fixed offset). *)
Record Env : Type := mkEnv {
  clock : nat → Z;
  utcOffset : Z
}.

(** Year, month and day of a day number (days since 1970-01-01) in the
    proleptic Gregorian calendar, as [Date] counts them. *)
Definition civil_from_days (days : Z) : Z * Z * Z :=
  let z := (days + 719468)%Z in
  let era := (z / 146097)%Z in
  let doe := (z - era * 146097)%Z in
  let yoe := ((doe - doe / 1460 + doe / 36524 - doe / 146096) / 365)%Z in
  let doy := (doe - (365 * yoe + yoe / 4 - yoe / 100))%Z in
  let mp := ((5 * doy + 2) / 153)%Z in
  let d := (doy - (153 * mp + 2) / 5 + 1)%Z in
  let m := if (mp <? 10)%Z then (mp + 3)%Z else (mp - 9)%Z in
  let y := (yoe + era * 400 + (if (m <=? 2)%Z then 1 else 0))%Z in
  (y, m, d).

(** [zeroFill] of the date library: the number padded with zeros to the
    target length, a minus sign in front of a negative one. *)
Definition zeroFill (number : Z) (targetLength : nat) : string :=
  let absNumber := JS.digits (Z.abs number) in
  (if (0 <=? number)%Z then "" else "-")
  +:+ JS.zeros (targetLength - String.length absNumber) +:+ absNumber.

(** [moment(date).format('YYYY-MM-DD')]: the calendar day of the date in
    the process's time zone; a time value no [Date] can hold is invalid. *)
Definition moment_format_date (env : Env) (ms : Z) : string :=
  if (-8640000000000000 <=? ms)%Z && (ms <=? 8640000000000000)%Z then
    let '(y, m, d) := civil_from_days ((ms + utcOffset env * 60000) / MS_PER_DAY) in
    zeroFill y 4 +:+ "-" +:+ zeroFill m 2 +:+ "-" +:+ zeroFill d 2
  else "Invalid date".

(** ** Rows of the two queries

    The intake query selects on [PAYMENT_DATE] and the posting query on
    [POSTING_DATE], so these two columns are never null; the
    [PAYMENT_DATE] of a posting row may be. *)

Record CorportalPayment : Type := mkCorportalPayment {
  corp_CONSUMER_ID : string;
  corp_PAYMENT_MODE : string;
  corp_AMOUNT : float;
  TRANSACTION_ID : string;
  PAYMENT_DATE : Z;
  BANK_REF_NUMBER : string;
  STATUS : string;
  CORPORTAL_ROWID : string
}.

Record CCBPayment : Type := mkCCBPayment {
  ccb_CONSUMER_ID : string;
  ccb_PAYMENT_MODE : string;
  ccb_AMOUNT : float;
  TRANSACTION_REF : string;
  ccb_PAYMENT_DATE : option Z;
  POSTING_DATE : Z;
  PAYMENT_STATUS : string;
  CCB_ROWID : string
}.

(** What [createPaymentIndex] and the composite key read of a row of
    either shape; the last is [payment.PAYMENT_DATE || payment.POSTING_DATE]. *)
Class PaymentRow (A : Type) : Type := {
  CONSUMER_ID : A → string;
  PAYMENT_MODE : A → string;
  AMOUNT : A → float;
  PAYMENT_DATE_or_POSTING_DATE : A → Z
}.

#[export] Instance corportal_row : PaymentRow CorportalPayment := {|
  CONSUMER_ID := corp_CONSUMER_ID;
  PAYMENT_MODE := corp_PAYMENT_MODE;
  AMOUNT := corp_AMOUNT;
  PAYMENT_DATE_or_POSTING_DATE := PAYMENT_DATE
|}.

#[export] Instance ccb_row : PaymentRow CCBPayment := {|
  CONSUMER_ID := ccb_CONSUMER_ID;
  PAYMENT_MODE := ccb_PAYMENT_MODE;
  AMOUNT := ccb_AMOUNT;
  PAYMENT_DATE_or_POSTING_DATE := λ p, default (POSTING_DATE p) (ccb_PAYMENT_DATE p)
|}.

(** ** Options of a run *)

Record Options : Type := mkOptions {
  amountTolerance : float;
  daysTolerance : float;
  includePartialMatches : bool
}.

Definition defaultOptions : Options :=
  {| amountTolerance := 0.01; daysTolerance := 2; includePartialMatches := true |}.

(** ** The payment index *)

(** The key [`${CONSUMER_ID}-${AMOUNT}-${PAYMENT_MODE}`]. *)
Definition exactKey `{PaymentRow A} (payment : A) : string :=
  CONSUMER_ID payment +:+ "-" +:+ JS.Number_toString (AMOUNT payment)
  +:+ "-" +:+ PAYMENT_MODE payment.

(** The four members of the index are plain objects. *)
Record PaymentIndex (A : Type) : Type := mkPaymentIndex {
  exact : gmap string (list A);
  byConsumer : gmap string (list A);
  byAmount : gmap string (list A);
  byDate : gmap string (list A)
}.
Arguments mkPaymentIndex {A}.
Arguments exact {A}.
Arguments byConsumer {A}.
Arguments byAmount {A}.
Arguments byDate {A}.

(** [if (!m.has(k)) m.set(k, []); m.get(k).push(v)] on a [Map]. *)
Definition push_at `{Countable K} {A} (k : K) (v : A) (m : gmap K (list A))
  : gmap K (list A) :=
  <[k := default [] (m !! k) ++ [v]]> m.

(** [if (!obj[k]) obj[k] = []; obj[k].push(v)] on a plain object.  An own
    property is an array and is extended.  Without one, a key that names a
    member of [Object.prototype] finds that member, no array is stored,
    and the call of its missing [push] throws ([None]); any other key
    starts a new array. *)
Definition push_own {A} (k : string) (v : A) (obj : gmap string (list A))
  : option (gmap string (list A)) :=
  match obj !! k with
  | Some l => Some (<[k := l ++ [v]]> obj)
  | None =>
      if bool_decide (k ∈ JS.Object_prototype) then None else Some (<[k := [v]]> obj)
  end.

(** [None] when the loop throws. *)
Definition createPaymentIndex `{PaymentRow A} (env : Env) (payments : list A)
  : option (PaymentIndex A) :=
  foldl
    (λ index payment,
       index ← index;
       exact' ← push_own (exactKey payment) payment (exact index);
       byConsumer' ← push_own (CONSUMER_ID payment) payment (byConsumer index);
       byAmount' ←
         push_own (JS.Number_toString (JS.Math_round (JS.parseFloat (AMOUNT payment))))
                  payment (byAmount index);
       byDate' ←
         push_own (moment_format_date env (PAYMENT_DATE_or_POSTING_DATE payment))
                  payment (byDate index);
       Some {| exact := exact'; byConsumer := byConsumer';
               byAmount := byAmount'; byDate := byDate' |})
    (Some {| exact := ∅; byConsumer := ∅; byAmount := ∅; byDate := ∅ |})
    payments.

(** ** Records produced by a run *)

Inductive MatchType : Type := EXACT_MATCH | FUZZY_MATCH.

(** An entry of [results.matches] or [results.partialMatches]; a property
    the object literal does not set is [None]. *)
Record MatchRecord : Type := mkMatchRecord {
  type : MatchType;
  corportalPayment : CorportalPayment;
  ccbPayment : CCBPayment;
  matchScore : float;
  dateDifference : option Z;
  reasons : option (list string);
  amountDifference : option float
}.

Inductive ExceptionType : Type := UNMATCHED_CORPORTAL | UNMATCHED_CCB.

#[export] Instance MatchType_eq_dec : EqDecision MatchType.
Proof. solve_decision. Defined.

#[export] Instance ExceptionType_eq_dec : EqDecision ExceptionType.
Proof. solve_decision. Defined.

Record ExceptionRecord : Type := mkExceptionRecord {
  exc_type : ExceptionType;
  exc_payment : CorportalPayment + CCBPayment;
  reason : string;
  daysSincePayment : option Z;
  daysSincePosting : option Z;
  requiresAction : bool
}.

(** An element of the array [findFuzzyMatches] returns. *)
Record Candidate : Type := mkCandidate {
  payment : CCBPayment;
  score : float;
  cand_reasons : list string
}.

Module Summary.
Record t : Type := mk {
  totalCorportalPayments : Z;
  totalCCBPayments : Z;
  totalCorportalAmount : float;
  totalCCBAmount : float;
  matchedPayments : Z;
  matchedAmount : float;
  unmatchedCorportal : Z;
  unmatchedCCB : Z;
  partialMatches : Z;
  processingDate : Z
}.

(** [matchedPayments++; matchedAmount += amount] *)
Definition add_matched (amount : float) (s : t) : t :=
  mk (totalCorportalPayments s) (totalCCBPayments s) (totalCorportalAmount s)
     (totalCCBAmount s) (matchedPayments s + 1) (matchedAmount s + amount)%float
     (unmatchedCorportal s) (unmatchedCCB s) (partialMatches s) (processingDate s).

(** [partialMatches++] *)
Definition add_partial (s : t) : t :=
  mk (totalCorportalPayments s) (totalCCBPayments s) (totalCorportalAmount s)
     (totalCCBAmount s) (matchedPayments s) (matchedAmount s)
     (unmatchedCorportal s) (unmatchedCCB s) (partialMatches s + 1) (processingDate s).

(** [unmatchedCorportal = c; unmatchedCCB = p] *)
Definition set_unmatched (c p : Z) (s : t) : t :=
  mk (totalCorportalPayments s) (totalCCBPayments s) (totalCorportalAmount s)
     (totalCCBAmount s) (matchedPayments s) (matchedAmount s)
     c p (partialMatches s) (processingDate s).
End Summary.

Record Results : Type := mkResults {
  summary : Summary.t;
  matches : list MatchRecord;
  exceptions : list ExceptionRecord;
  partialMatches : list MatchRecord
}.

(** The mutable state of a run: [results] and the two sets of claimed
    row ids. *)
Record Run : Type := mkRun {
  results : Results;
  matchedCorportalIds : gset string;
  matchedCCBIds : gset string
}.

(** ** Date helpers of the service *)

Definition calculateDateDifference (date1 date2 : Z) : Z :=
  moment_diff_days date2 date1.

Definition calculateDaysDifference (date1 date2 : Z) : Z :=
  Z.abs (moment_diff_days date2 date1).

(** ** Exact matching *)

Definition findBestDateMatch (corportalPayment : CorportalPayment)
    (ccbMatches : list CCBPayment) (daysTolerance : float) : option CCBPayment :=
  let corportalDate := PAYMENT_DATE corportalPayment in
  fst
    (foldl
       (λ '(bestMatch, smallestDateDiff) ccbPayment,
          let ccbDate := POSTING_DATE ccbPayment in
          let daysDiff := JS.of_Z (Z.abs (moment_diff_days corportalDate ccbDate)) in
          if (daysDiff <=? daysTolerance)%float && (daysDiff <? smallestDateDiff)%float
          then (Some ccbPayment, daysDiff)
          else (bestMatch, smallestDateDiff))
       (None, infinity) ccbMatches).

(** The block guarded by [if (bestMatch)]. *)
Definition exactAccept (st : Run) (corpPayment : CorportalPayment)
    (bestMatch : CCBPayment) : Run :=
  let r := results st in
  {| results :=
       {| summary := Summary.add_matched (JS.parseFloat (AMOUNT corpPayment)) (summary r);
          matches :=
            matches r ++
            [ {| type := EXACT_MATCH;
                 corportalPayment := corpPayment;
                 ccbPayment := bestMatch;
                 matchScore := 1.0;
                 dateDifference :=
                   Some (calculateDateDifference (PAYMENT_DATE corpPayment)
                                                 (POSTING_DATE bestMatch));
                 reasons := None;
                 amountDifference := None |} ];
          exceptions := exceptions r;
          partialMatches := partialMatches r |};
     matchedCorportalIds := {[ CORPORTAL_ROWID corpPayment ]} ∪ matchedCorportalIds st;
     matchedCCBIds := {[ CCB_ROWID bestMatch ]} ∪ matchedCCBIds st |}.

(** The body of the first [corportalPayments.forEach].  The key read from
    the plain object [ccbIndex.exact] holds a hyphen, so it names no member
    of [Object.prototype] and the read finds an own property or nothing. *)
Definition exactStep (ccbIndex : PaymentIndex CCBPayment) (daysTolerance : float)
    (st : Run) (corpPayment : CorportalPayment) : Run :=
  match exact ccbIndex !! exactKey corpPayment with
  | Some ccbMatches =>
      if bool_decide (0 < length ccbMatches) then
        match findBestDateMatch corpPayment ccbMatches daysTolerance with
        | Some bestMatch => exactAccept st corpPayment bestMatch
        | None => st
        end
      else st
  | None => st
  end.

(** ** Fuzzy matching *)

Definition calculateMatchScore (corpPayment : CorportalPayment) (ccbPayment : CCBPayment)
    (corpAmount ccbAmount : float) (corpDate ccbDate : Z)
    (amountTolerance daysTolerance : float) : float :=
  let score := 0%float in
  let score :=
    if String.eqb (CONSUMER_ID corpPayment) (CONSUMER_ID ccbPayment)
    then (score + 0.4)%float else score in
  let score :=
    if String.eqb (PAYMENT_MODE corpPayment) (PAYMENT_MODE ccbPayment)
    then (score + 0.3)%float else score in
  let amountDiff := PrimFloat.abs (corpAmount - ccbAmount) in
  let score :=
    if (amountDiff <=? amountTolerance)%float then (score + 0.25)%float
    else if (amountDiff <=? corpAmount * 0.01)%float then (score + 0.15)%float
    else score in
  let daysDiff := JS.of_Z (Z.abs (moment_diff_days corpDate ccbDate)) in
  let score :=
    if (daysDiff <=? daysTolerance)%float
    then (score + 0.05 * (1 - daysDiff / daysTolerance))%float
    else score in
  score.

Definition getMatchReasons (corpPayment : CorportalPayment) (ccbPayment : CCBPayment)
    (score : float) : list string :=
  let reasons := [] in
  let reasons :=
    if String.eqb (CONSUMER_ID corpPayment) (CONSUMER_ID ccbPayment)
    then reasons ++ ["Same consumer ID"] else reasons in
  let reasons :=
    if String.eqb (PAYMENT_MODE corpPayment) (PAYMENT_MODE ccbPayment)
    then reasons ++ ["Same payment mode"] else reasons in
  let amountDiff :=
    PrimFloat.abs (JS.parseFloat (AMOUNT corpPayment) - JS.parseFloat (AMOUNT ccbPayment)) in
  let reasons :=
    if (amountDiff <? 0.01)%float then reasons ++ ["Exact amount match"]
    else if (amountDiff <? 1)%float
         then reasons ++ ["Amount difference: ₹" +:+ JS.toFixed 2 amountDiff]
         else reasons in
  let reasons :=
    if (0.9 <? score)%float then reasons ++ ["High confidence match"]
    else if (0.7 <? score)%float then reasons ++ ["Good match"]
    else reasons ++ ["Potential match - requires review"] in
  reasons.

(** [Array.prototype.sort] with a comparator: a stable sort in which [a]
    is moved behind [b] only when the comparator returns a positive number
    (a [NaN] result counts as 0).  Elements are inserted from the right,
    each in front of the first element it need not follow. *)
Fixpoint insert_sorted {A} (cmp : A → A → float) (x : A) (l : list A) : list A :=
  match l with
  | [] => [x]
  | y :: l' => if (0 <? cmp x y)%float then y :: insert_sorted cmp x l' else x :: l
  end.

Definition Array_sort {A} (cmp : A → A → float) (l : list A) : list A :=
  foldr (insert_sorted cmp) [] l.

Definition findFuzzyMatches (corportalPayment : CorportalPayment)
    (ccbPayments : list CCBPayment) (amountTolerance daysTolerance : float)
    : list Candidate :=
  let corportalAmount := JS.parseFloat (AMOUNT corportalPayment) in
  let corportalDate := PAYMENT_DATE corportalPayment in
  let matches :=
    foldl
      (λ matches ccbPayment,
         let ccbAmount := JS.parseFloat (AMOUNT ccbPayment) in
         let ccbDate := POSTING_DATE ccbPayment in
         let score :=
           calculateMatchScore corportalPayment ccbPayment corportalAmount ccbAmount
                               corportalDate ccbDate amountTolerance daysTolerance in
         if (0 <? score)%float
         then matches ++
              [ {| payment := ccbPayment;
                   score := score;
                   cand_reasons := getMatchReasons corportalPayment ccbPayment score |} ]
         else matches)
      [] ccbPayments in
  Array_sort (λ a b, (score b - score a)%float) matches.

(** The body of the second [forEach], after [fuzzyMatches] has been
    computed. *)
Definition fuzzyAccept (st : Run) (corpPayment : CorportalPayment)
    (fuzzyMatches : list Candidate) : Run :=
  match fuzzyMatches with
  | [] => st
  | bestMatch :: _ =>
      if (0.8 <=? score bestMatch)%float then
        let r := results st in
        {| results :=
             {| summary := Summary.add_partial (summary r);
                matches := matches r;
                exceptions := exceptions r;
                partialMatches :=
                  partialMatches r ++
                  [ {| type := FUZZY_MATCH;
                       corportalPayment := corpPayment;
                       ccbPayment := payment bestMatch;
                       matchScore := score bestMatch;
                       dateDifference := None;
                       reasons := Some (cand_reasons bestMatch);
                       amountDifference :=
                         Some (PrimFloat.abs
                                 (JS.parseFloat (AMOUNT corpPayment)
                                  - JS.parseFloat (AMOUNT (payment bestMatch)))) |} ] |};
           matchedCorportalIds := {[ CORPORTAL_ROWID corpPayment ]} ∪ matchedCorportalIds st;
           matchedCCBIds := {[ CCB_ROWID (payment bestMatch) ]} ∪ matchedCCBIds st |}
      else st
  end.

Definition fuzzyStep (unmatchedCCB : list CCBPayment) (amountTolerance daysTolerance : float)
    (st : Run) (corpPayment : CorportalPayment) : Run :=
  fuzzyAccept st corpPayment
    (findFuzzyMatches corpPayment unmatchedCCB amountTolerance daysTolerance).

(** The fuzzy phase; both leftover lists are taken once, before the loop. *)
Definition fuzzyPhase (corportalPayments : list CorportalPayment)
    (ccbPayments : list CCBPayment) (amountTolerance daysTolerance : float)
    (st : Run) : Run :=
  let unmatchedCorportal :=
    filter (λ p, CORPORTAL_ROWID p ∉ matchedCorportalIds st) corportalPayments in
  let unmatchedCCB :=
    filter (λ p, CCB_ROWID p ∉ matchedCCBIds st) ccbPayments in
  foldl (fuzzyStep unmatchedCCB amountTolerance daysTolerance) st unmatchedCorportal.

(** ** Exceptions *)

(** [now] is the [new Date()] of the call. *)
Definition requiresActionCheck (now : Z) (payment : CorportalPayment) : bool :=
  let daysSincePayment := calculateDaysDifference (PAYMENT_DATE payment) now in
  let settlementDays :=
    if String.eqb (PAYMENT_MODE payment) "BANK_COUNTER" then 1%Z else 2%Z in
  bool_decide (settlementDays < daysSincePayment)%Z.

(** The exceptions are built after the one clock reading of
    [processingDate].  The [k]-th unmatched intake row reads the clock
    twice, for [daysSincePayment] and then inside [requiresActionCheck];
    the unmatched posting rows follow and read it once each. *)
Definition finalExceptions (env : Env) (corportalPayments : list CorportalPayment)
    (ccbPayments : list CCBPayment) (st : Run) : list ExceptionRecord :=
  let unmatchedCorportal :=
    filter (λ p, CORPORTAL_ROWID p ∉ matchedCorportalIds st) corportalPayments in
  let unmatchedCCB :=
    filter (λ p, CCB_ROWID p ∉ matchedCCBIds st) ccbPayments in
  imap (λ k p, {| exc_type := UNMATCHED_CORPORTAL;
                  exc_payment := inl p;
                  reason := "Payment received but not posted to CCB";
                  daysSincePayment :=
                    Some (calculateDaysDifference (PAYMENT_DATE p) (clock env (1 + 2 * k)));
                  daysSincePosting := None;
                  requiresAction := requiresActionCheck (clock env (2 + 2 * k)) p |})
       unmatchedCorportal
  ++
  imap (λ j p, {| exc_type := UNMATCHED_CCB;
                  exc_payment := inr p;
                  reason := "Payment posted to CCB but not found in CORPORTAL";
                  daysSincePayment := None;
                  daysSincePosting :=
                    Some (calculateDaysDifference
                            (POSTING_DATE p)
                            (clock env (1 + 2 * length unmatchedCorportal + j)));
                  requiresAction := true |})
       unmatchedCCB.

(** ** The reconciliation run *)

Definition initialRun (env : Env) (corportalPayments : list CorportalPayment)
    (ccbPayments : list CCBPayment) : Run :=
  {| results :=
       {| summary :=
            {| Summary.totalCorportalPayments := Z.of_nat (length corportalPayments);
               Summary.totalCCBPayments := Z.of_nat (length ccbPayments);
               Summary.totalCorportalAmount :=
                 foldl (λ sum p, (sum + JS.parseFloat (JS.orZero (AMOUNT p)))%float)
                       0%float corportalPayments;
               Summary.totalCCBAmount :=
                 foldl (λ sum p, (sum + JS.parseFloat (JS.orZero (AMOUNT p)))%float)
                       0%float ccbPayments;
               Summary.matchedPayments := 0;
               Summary.matchedAmount := 0;
               Summary.unmatchedCorportal := 0;
               Summary.unmatchedCCB := 0;
               Summary.partialMatches := 0;
               Summary.processingDate := clock env 0 |};
          matches := [];
          exceptions := [];
          partialMatches := [] |};
     matchedCorportalIds := ∅;
     matchedCCBIds := ∅ |}.

Definition exactPhase (corportalPayments : list CorportalPayment)
    (ccbIndex : PaymentIndex CCBPayment) (daysTolerance : float) (st : Run) : Run :=
  foldl (exactStep ccbIndex daysTolerance) st corportalPayments.

(** Everything of the run after the two indexes exist. *)
Definition reconcile (env : Env)
    (corportalPayments : list CorportalPayment) (ccbPayments : list CCBPayment)
    (ccbIndex : PaymentIndex CCBPayment) (options : Options) : Results :=
  let st := initialRun env corportalPayments ccbPayments in
  let st := exactPhase corportalPayments ccbIndex (daysTolerance options) st in
  let st :=
    if includePartialMatches options
    then fuzzyPhase corportalPayments ccbPayments
                    (amountTolerance options) (daysTolerance options) st
    else st in
  let exceptions := finalExceptions env corportalPayments ccbPayments st in
  let r := results st in
  {| summary :=
       Summary.set_unmatched
         (Z.of_nat (length (filter (λ e, exc_type e = UNMATCHED_CORPORTAL) exceptions)))
         (Z.of_nat (length (filter (λ e, exc_type e = UNMATCHED_CCB) exceptions)))
         (summary r);
     matches := matches r;
     exceptions := exceptions;
     partialMatches := partialMatches r |}.

(** The run on the rows the two queries returned; [None] when it throws,
    which it does when one of the two indexes cannot be built. *)
Definition performDetailedReconciliation (env : Env)
    (corportalPayments : list CorportalPayment) (ccbPayments : list CCBPayment)
    (options : Options) : option Results :=
  corportalIndex ← createPaymentIndex env corportalPayments;
  ccbIndex ← createPaymentIndex env ccbPayments;
  Some (reconcile env corportalPayments ccbPayments ccbIndex options).

(** ** Statistics *)

Record Stats : Type := mkStats {
  stats_summary : Summary.t;
  reconciliationEfficiency : float;
  amountReconciliationRate : float;
  criticalExceptions : Z;
  avgSettlementDays : JS.value
}.

(** [Math.abs(match.dateDifference)]; a missing property is [undefined],
    whose absolute value is [NaN]. *)
Definition abs_dateDifference (m : MatchRecord) : float :=
  match dateDifference m with
  | Some d => JS.of_Z (Z.abs d)
  | None => nan
  end.

Definition calculateAverageSettlementDays (matches : list MatchRecord) : JS.value :=
  if Nat.eqb (length matches) 0 then JS.Num 0
  else
    let totalDays := foldl (λ sum m, (sum + abs_dateDifference m)%float) 0%float matches in
    JS.Str (JS.toFixed 1 (totalDays / JS.of_Z (Z.of_nat (length matches)))).

Definition getReconciliationStats (env : Env)
    (corportalPayments : list CorportalPayment) (ccbPayments : list CCBPayment)
  : option Stats :=
  reconciliationResult ←
    performDetailedReconciliation env corportalPayments ccbPayments defaultOptions;
  let s := summary reconciliationResult in
  Some
  {| stats_summary := s;
     reconciliationEfficiency :=
       (JS.of_Z (Summary.matchedPayments s) / JS.of_Z (Summary.totalCorportalPayments s)
        * 100)%float;
     amountReconciliationRate :=
       (Summary.matchedAmount s / Summary.totalCorportalAmount s * 100)%float;
     criticalExceptions :=
       Z.of_nat (length (filter (λ e, requiresAction e = true)
                                 (exceptions reconciliationResult)));
     avgSettlementDays := calculateAverageSettlementDays (matches reconciliationResult) |}.

(** ** Predicates used to state the properties *)

(** Sum of the intake-side amounts of a list of matches, added in order. *)
Definition intakeAmountSum (ms : list MatchRecord) : float :=
  foldl (λ sum m, (sum + JS.parseFloat (AMOUNT (corportalPayment m)))%float) 0%float ms.

(** What an entry written by the exact phase looks like. *)
Definition exact_shape (m : MatchRecord) : Prop :=
  type m = EXACT_MATCH ∧ matchScore m = 1%float ∧
  dateDifference m
  = Some (calculateDateDifference (PAYMENT_DATE (corportalPayment m))
                                  (POSTING_DATE (ccbPayment m))).

(** What an entry written by the fuzzy phase looks like. *)
Definition fuzzy_shape (m : MatchRecord) : Prop :=
  type m = FUZZY_MATCH ∧ dateDifference m = None ∧ (0.8 <=? matchScore m)%float = true.

(** The bookkeeping that every step of a run keeps true: the two result
    lists hold entries of their own kind, the counters and the matched
    amount follow [results.matches] and [results.partialMatches], and the
    two id sets hold exactly the row ids that occur in some entry. *)
Record RunInv (st : Run) : Prop := mkRunInv {
  inv_exact : Forall exact_shape (matches (results st));
  inv_fuzzy : Forall fuzzy_shape (partialMatches (results st));
  inv_amount :
    Summary.matchedAmount (summary (results st)) = intakeAmountSum (matches (results st));
  inv_count :
    Summary.matchedPayments (summary (results st))
    = Z.of_nat (length (matches (results st)));
  inv_partial_count :
    Summary.partialMatches (summary (results st))
    = Z.of_nat (length (partialMatches (results st)));
  inv_corp_ids : ∀ id,
    id ∈ matchedCorportalIds st ↔
    ∃ m, m ∈ matches (results st) ++ partialMatches (results st)
         ∧ CORPORTAL_ROWID (corportalPayment m) = id;
  inv_ccb_ids : ∀ id,
    id ∈ matchedCCBIds st ↔
    ∃ m, m ∈ matches (results st) ++ partialMatches (results st)
         ∧ CCB_ROWID (ccbPayment m) = id
}.

(** ** The order of binary64 values

    Used to state and prove what sorting by a numeric comparator yields. *)

(** Position of a non-NaN value in the order of the floats: sign class,
    then exponent, then mantissa, the last two mirrored for negatives. *)
Definition rank (f : spec_float) : Z * Z * Z :=
  match f with
  | S754_zero _ => (0, 0, 0)%Z
  | S754_infinity s => (if s then (-2)%Z else 2%Z, 0%Z, 0%Z)
  | S754_nan => (0, 0, 0)%Z
  | S754_finite s m e => if s then (-1, - e, Z.neg m)%Z else (1, e, Z.pos m)%Z
  end.

Definition lex_lt (r1 r2 : Z * Z * Z) : Prop :=
  let '(a, b, c) := r1 in
  let '(a', b', c') := r2 in
  (a < a' ∨ (a = a' ∧ (b < b' ∨ (b = b' ∧ c < c'))))%Z.

(** [x] is not [NaN]. *)
Definition fnum (x : float) : Prop := Prim2SF x ≠ S754_nan.

Definition frank (x : float) : Z * Z * Z := rank (Prim2SF x).

Abbreviation emin64 := (SpecFloat.emin prec emax).

(** Descending by score: [b] does not score above [a]. *)
Definition scoreDesc (a b : Candidate) : Prop := (score b <=? score a)%float = true.

(** The test [score > 0] that admits a candidate. *)
Definition positiveScore (c : Candidate) : Prop := (0 <? score c)%float = true.

(** The entry the fuzzy phase writes for an accepted candidate. *)
Definition fuzzyRecord (corpPayment : CorportalPayment) (bestMatch : Candidate) : MatchRecord :=
  {| type := FUZZY_MATCH;
     corportalPayment := corpPayment;
     ccbPayment := payment bestMatch;
     matchScore := score bestMatch;
     dateDifference := None;
     reasons := Some (cand_reasons bestMatch);
     amountDifference :=
       Some (PrimFloat.abs
               (JS.parseFloat (AMOUNT corpPayment)
                - JS.parseFloat (AMOUNT (payment bestMatch)))) |}.

(** No row's [CONSUMER_ID] names a member of [Object.prototype]: what
    building an index of the rows needs. *)
Definition indexable `{PaymentRow A} (rows : list A) : Prop :=
  Forall (λ p, CONSUMER_ID p ∉ JS.Object_prototype) rows.

(** The index of rows that can be indexed: under each key the rows that
    carry it. *)
Definition indexOf `{PaymentRow A} (env : Env) (payments : list A) : PaymentIndex A :=
  {| exact := foldl (λ m x, push_at (exactKey x) x m) ∅ payments;
     byConsumer := foldl (λ m x, push_at (CONSUMER_ID x) x m) ∅ payments;
     byAmount :=
       foldl (λ m x,
                push_at (JS.Number_toString (JS.Math_round (JS.parseFloat (AMOUNT x)))) x m)
             ∅ payments;
     byDate :=
       foldl (λ m x, push_at (moment_format_date env (PAYMENT_DATE_or_POSTING_DATE x)) x m)
             ∅ payments |}.

(** The exception [finalExceptions] writes for the unmatched intake row
    at position [k] of the exceptions. *)
Definition intakeException (env : Env) (k : nat) (p : CorportalPayment) : ExceptionRecord :=
  {| exc_type := UNMATCHED_CORPORTAL;
     exc_payment := inl p;
     reason := "Payment received but not posted to CCB";
     daysSincePayment :=
       Some (calculateDaysDifference (PAYMENT_DATE p) (clock env (1 + 2 * k)));
     daysSincePosting := None;
     requiresAction := requiresActionCheck (clock env (2 + 2 * k)) p |}.

(** The exception it writes for an unmatched posting row, the clock being
    read for the [n]-th time. *)
Definition postingException (env : Env) (n : nat) (p : CCBPayment) : ExceptionRecord :=
  {| exc_type := UNMATCHED_CCB;
     exc_payment := inr p;
     reason := "Payment posted to CCB but not found in CORPORTAL";
     daysSincePayment := None;
     daysSincePosting := Some (calculateDaysDifference (POSTING_DATE p) (clock env n));
     requiresAction := true |}.

(** [requiresActionCheck] holds of the unmatched intake row [kp.2] when
    it is called for the exception at position [kp.1]. *)
Definition requiresActionAt (env : Env) (kp : nat * CorportalPayment) : Prop :=
  requiresActionCheck (clock env (2 + 2 * kp.1)) kp.2 = true.

#[export] Instance requiresActionAt_dec env kp : Decision (requiresActionAt env kp) :=
  decide (requiresActionCheck (clock env (2 + 2 * kp.1)) kp.2 = true).

(** The posting row [q] of the inputs is in no exact match of [r]. *)
Definition unusedByExact (ps : list CCBPayment) (r : Results) (q : CCBPayment) : Prop :=
  q ∈ ps ∧ ∀ e, e ∈ matches r → CCB_ROWID (ccbPayment e) ≠ CCB_ROWID q.

(** Successive readings of the clock are less than a day apart. *)
Definition steadyClock (env : Env) : Prop :=
  ∀ k, (Z.abs (clock env (S k) - clock env k) < MS_PER_DAY)%Z.

(** What a list of exceptions says of each: kind, age and flag. *)
Definition exceptionSummary (e : ExceptionRecord) : ExceptionType * option Z * bool :=
  (exc_type e, daysSincePayment e, requiresAction e).

(** The same index grown from a given one. *)
Definition indexFrom `{PaymentRow A} (env : Env) (index : PaymentIndex A)
    (payments : list A) : PaymentIndex A :=
  {| exact := foldl (λ m x, push_at (exactKey x) x m) (exact index) payments;
     byConsumer := foldl (λ m x, push_at (CONSUMER_ID x) x m) (byConsumer index) payments;
     byAmount :=
       foldl (λ m x,
                push_at (JS.Number_toString (JS.Math_round (JS.parseFloat (AMOUNT x)))) x m)
             (byAmount index) payments;
     byDate :=
       foldl (λ m x, push_at (moment_format_date env (PAYMENT_DATE_or_POSTING_DATE x)) x m)
             (byDate index) payments |}.

(** The text holds a hyphen. *)
Fixpoint hyphenated (s : string) : bool :=
  match s with
  | EmptyString => false
  | String c s' => Ascii.eqb c "-"%char || hyphenated s'
  end.

(** The text is empty or starts with a digit, a minus sign, [N] or [I],
    as the text of a number does. *)
Definition numeric_lead (s : string) : bool :=
  match s with
  | EmptyString => true
  | String c _ =>
      existsb (Ascii.eqb c)
        ["0"; "1"; "2"; "3"; "4"; "5"; "6"; "7"; "8"; "9"; "-"; "N"; "I"]%char
  end.

(** What a run returns when both indexes can be built, and the state the
    two matching phases leave behind in it. *)
Definition runResults (env : Env) (cs : list CorportalPayment) (ps : list CCBPayment)
    (options : Options) : Results :=
  reconcile env cs ps (indexOf env ps) options.

Definition matchedRun (env : Env) (cs : list CorportalPayment) (ps : list CCBPayment)
    (options : Options) : Run :=
  let st := exactPhase cs (indexOf env ps) (daysTolerance options)
                       (initialRun env cs ps) in
  if includePartialMatches options
  then fuzzyPhase cs ps (amountTolerance options) (daysTolerance options) st
  else st.

(** The statistics of such a run. *)
Definition statsOf (env : Env) (cs : list CorportalPayment) (ps : list CCBPayment)
  : Stats :=
  let reconciliationResult := runResults env cs ps defaultOptions in
  let s := summary reconciliationResult in
  {| stats_summary := s;
     reconciliationEfficiency :=
       (JS.of_Z (Summary.matchedPayments s) / JS.of_Z (Summary.totalCorportalPayments s)
        * 100)%float;
     amountReconciliationRate :=
       (Summary.matchedAmount s / Summary.totalCorportalAmount s * 100)%float;
     criticalExceptions :=
       Z.of_nat (length (filter (λ e, requiresAction e = true)
                                 (exceptions reconciliationResult)));
     avgSettlementDays := calculateAverageSettlementDays (matches reconciliationResult) |}.

(** [P] holds of what the run returns; and if the run throws, one of the
    rows has a [CONSUMER_ID] that names a member of [Object.prototype]. *)
Definition afterRun (env : Env) (cs : list CorportalPayment) (ps : list CCBPayment)
    (options : Options) (P : Results → Prop) : Prop :=
  match performDetailedReconciliation env cs ps options with
  | Some r => P r
  | None => ¬ (indexable cs ∧ indexable ps)
  end.

(** The same for [getReconciliationStats]. *)
Definition afterStats (env : Env) (cs : list CorportalPayment) (ps : list CCBPayment)
    (P : Stats → Prop) : Prop :=
  match getReconciliationStats env cs ps with
  | Some s => P s
  | None => ¬ (indexable cs ∧ indexable ps)
  end.

(** The run returns, and [P] holds of what it returns. *)
Definition runGives (env : Env) (cs : list CorportalPayment) (ps : list CCBPayment)
    (options : Options) (P : Results → Prop) : Prop :=
  match performDetailedReconciliation env cs ps options with
  | Some r => P r
  | None => False
  end.

Definition statsGive (env : Env) (cs : list CorportalPayment) (ps : list CCBPayment)
    (P : Stats → Prop) : Prop :=
  match getReconciliationStats env cs ps with
  | Some s => P s
  | None => False
  end.

(** Row ids of the intake rows that occur in some match of a run. *)
Definition intakeIds (r : Results) : list string :=
  (λ m, CORPORTAL_ROWID (corportalPayment m)) <$> (matches r ++ partialMatches r).

(** A step either leaves the run alone or claims the intake row [c]. *)
Definition claimsAtMost (st st' : Run) (c : CorportalPayment) : Prop :=
  st' = st ∨ intakeIds (results st') ≡ₚ CORPORTAL_ROWID c :: intakeIds (results st).

(** ** The properties as the specification words them *)

Module Spec.

Definition consumerContribution (i : CorportalPayment) (p : CCBPayment) : float :=
  if String.eqb (CONSUMER_ID i) (CONSUMER_ID p) then 0.40%float else 0%float.

Definition modeContribution (i : CorportalPayment) (p : CCBPayment) : float :=
  if String.eqb (PAYMENT_MODE i) (PAYMENT_MODE p) then 0.30%float else 0%float.

Definition amountContribution (intakeAmount postingAmount amountTolerance : float) : float :=
  let delta := PrimFloat.abs (intakeAmount - postingAmount) in
  if (delta <=? amountTolerance)%float then 0.25%float
  else if (delta <=? intakeAmount * 0.01)%float then 0.15%float
  else 0%float.

Definition dateContribution (intakeDate postingDate : Z) (daysTolerance : float) : float :=
  let daysDiff := JS.of_Z (Z.abs (moment_diff_days intakeDate postingDate)) in
  if (daysDiff <=? daysTolerance)%float
  then (0.05 * (1 - daysDiff / daysTolerance))%float
  else 0%float.

(** The score as a sum of four independent contributions. *)
Definition matchScore (i : CorportalPayment) (p : CCBPayment)
    (intakeAmount postingAmount : float) (intakeDate postingDate : Z)
    (amountTolerance daysTolerance : float) : float :=
  (consumerContribution i p + modeContribution i p
   + amountContribution intakeAmount postingAmount amountTolerance
   + dateContribution intakeDate postingDate daysTolerance)%float.

(** Two amounts fall in the same or in adjacent [byAmount] buckets. *)
Definition adjacentBucket (a b : float) : bool :=
  (PrimFloat.abs (JS.Math_round (JS.parseFloat a) - JS.Math_round (JS.parseFloat b)) <=? 1)%float.


(** Every accepted match of a run, of both kinds. *)
Definition acceptedMatches (r : Results) : list MatchRecord :=
  matches r ++ partialMatches r.

(** Matched amount taken over every accepted match. *)
Definition matchedAmount (r : Results) : float :=
  foldl (λ sum m, (sum + JS.parseFloat (AMOUNT (corportalPayment m)))%float)
        0%float (acceptedMatches r).

(** Whole days between the two sides of a match, without sign. *)
Definition settlementDays (m : MatchRecord) : float :=
  JS.of_Z (Z.abs (calculateDateDifference (PAYMENT_DATE (corportalPayment m))
                                          (POSTING_DATE (ccbPayment m)))).

(** Mean settlement lag over every accepted match, to one decimal. *)
Definition avgSettlementDays (r : Results) : JS.value :=
  let ms := acceptedMatches r in
  if Nat.eqb (length ms) 0 then JS.Num 0
  else JS.Str (JS.toFixed 1
                 (foldl (λ sum m, (sum + settlementDays m)%float) 0%float ms
                  / JS.of_Z (Z.of_nat (length ms)))).

End Spec.

(** ** Sample rows *)

Definition DAY0 : Z := 1700006400000.

Definition corp (id consumer mode : string) (amount : float) (date : Z) : CorportalPayment :=
  {| corp_CONSUMER_ID := consumer; corp_PAYMENT_MODE := mode; corp_AMOUNT := amount;
     TRANSACTION_ID := "TXN-" +:+ id; PAYMENT_DATE := date;
     BANK_REF_NUMBER := "BANK-" +:+ id; STATUS := "SUCCESS"; CORPORTAL_ROWID := id |}.

Definition ccb (id consumer mode : string) (amount : float) (posted : Z) : CCBPayment :=
  {| ccb_CONSUMER_ID := consumer; ccb_PAYMENT_MODE := mode; ccb_AMOUNT := amount;
     TRANSACTION_REF := "REF-" +:+ id; ccb_PAYMENT_DATE := Some posted;
     POSTING_DATE := posted;
     PAYMENT_STATUS := "POSTED"; CCB_ROWID := id |}.

Definition NOW : Z := (DAY0 + 5 * MS_PER_DAY)%Z.

(** A process in Indian Standard Time whose clock stands at [t] at its
    first reading and is a millisecond further at each later one. *)
Definition clockFrom (t : Z) : Env :=
  {| clock := λ k, (t + Z.of_nat k)%Z; utcOffset := 330 |}.

(** The scenario of the specification: same consumer and mode, amounts one
    paisa apart, posted a day later. *)
Definition scenario_intake : CorportalPayment := corp "A1" "C1" "BBPS" 1000.00 DAY0.
Definition scenario_posting : CCBPayment :=
  ccb "P1" "C1" "BBPS" 1000.01 (DAY0 + MS_PER_DAY).

(** Two intake rows with one composite key, and a single posting row. *)
Definition twin_intake : list CorportalPayment :=
  [corp "A1" "C1" "BBPS" 1000.00 DAY0; corp "A2" "C1" "BBPS" 1000.00 DAY0].
Definition single_posting : CCBPayment := ccb "P1" "C1" "BBPS" 1000.00 DAY0.

(** A candidate for [scenario_posting] carrying a given score. *)
Definition candidateScoring (s : float) : Candidate :=
  {| payment := scenario_posting; score := s; cand_reasons := [] |}.

(** An intake row of 10000.00 and a posting row of 10090.00: within 1% of
    each other, ninety buckets apart. *)
Definition wide_intake : CorportalPayment := corp "A1" "C1" "BBPS" 10000.00 DAY0.
Definition wide_posting : CCBPayment := ccb "P1" "C1" "BBPS" 10090.00 DAY0.

(** What a match says, reduced to its kind and the two row ids. *)
Definition pairing (m : MatchRecord) : MatchType * string * string :=
  (type m, CORPORTAL_ROWID (corportalPayment m), CCB_ROWID (ccbPayment m)).

(** The candidate [findFuzzyMatches] builds for one posting row. *)
Definition scoreCandidate (corportalPayment : CorportalPayment)
    (amountTolerance daysTolerance : float) (ccbPayment : CCBPayment) : Candidate :=
  let score :=
    calculateMatchScore corportalPayment ccbPayment
      (JS.parseFloat (AMOUNT corportalPayment)) (JS.parseFloat (AMOUNT ccbPayment))
      (PAYMENT_DATE corportalPayment) (POSTING_DATE ccbPayment)
      amountTolerance daysTolerance in
  {| payment := ccbPayment;
     score := score;
     cand_reasons := getMatchReasons corportalPayment ccbPayment score |}.

(** ** Predicates for the properties of the engine *)

(** The time values a [Date] can hold: 100 million days either side of
    the epoch. *)
Definition validDate (d : Z) : Prop :=
  (-8640000000000000 <= d <= 8640000000000000)%Z.

(** Whole days between the payment date of an intake row and the posting
    date of a posting row, without sign: the [daysDiff] of
    [findBestDateMatch] and [calculateMatchScore]. *)
Definition dayDistance (i : CorportalPayment) (p : CCBPayment) : Z :=
  Z.abs (moment_diff_days (PAYMENT_DATE i) (POSTING_DATE p)).

(** The test [daysDiff <= daysTolerance]. *)
Definition withinDays (daysTolerance : float) (i : CorportalPayment) (p : CCBPayment) : Prop :=
  (JS.of_Z (dayDistance i p) <=? daysTolerance)%float = true.

(** The bucket a map built by [push_at] holds under a key: the rows with
    that key in input order, and no bucket when there is none. *)
Definition bucketOf {A K} `{EqDecision K} (key : A → K) (k : K) (rows : list A)
  : option (list A) :=
  match filter (λ x, key x = k) rows with
  | [] => None
  | l => Some l
  end.

(** What the run guarantees about an entry of [results.matches]. *)
Definition exactSound (cs : list CorportalPayment) (ps : list CCBPayment)
    (daysTolerance : float) (m : MatchRecord) : Prop :=
  type m = EXACT_MATCH
  ∧ corportalPayment m ∈ cs ∧ ccbPayment m ∈ ps
  ∧ exactKey (corportalPayment m) = exactKey (ccbPayment m)
  ∧ withinDays daysTolerance (corportalPayment m) (ccbPayment m).

(** What the run guarantees about an entry of [results.partialMatches]:
    both rows come from the inputs, and the entry is the one written for
    the scored candidate, whose score reaches 0.8. *)
Definition fuzzySound (cs : list CorportalPayment) (ps : list CCBPayment)
    (amountTolerance daysTolerance : float) (m : MatchRecord) : Prop :=
  corportalPayment m ∈ cs ∧ ccbPayment m ∈ ps
  ∧ m = fuzzyRecord (corportalPayment m)
          (scoreCandidate (corportalPayment m) amountTolerance daysTolerance (ccbPayment m))
  ∧ (0.8 <=? matchScore m)%float = true.

(** Both rows of [m] were left over by a phase that claimed the row ids
    [cids] and [pids]. *)
Definition leftOver (cids pids : gset string) (m : MatchRecord) : Prop :=
  (CORPORTAL_ROWID (corportalPayment m) ∉ cids) ∧ (CCB_ROWID (ccbPayment m) ∉ pids).

(** The matches [m] and [e] have no row id in common. *)
Definition sharesNoRow (m e : MatchRecord) : Prop :=
  CORPORTAL_ROWID (corportalPayment e) ≠ CORPORTAL_ROWID (corportalPayment m)
  ∧ CCB_ROWID (ccbPayment e) ≠ CCB_ROWID (ccbPayment m).

(** Row ids of the posting rows that occur in some match of a run. *)
Definition postingIds (r : Results) : list string :=
  (λ m, CCB_ROWID (ccbPayment m)) <$> (matches r ++ partialMatches r).

(** The amount test of [calculateMatchScore] adds to the score: the
    amounts differ by at most the tolerance, or by at most 1% of the
    intake amount. *)
Definition amountClose (i : CorportalPayment) (p : CCBPayment) (amountTolerance : float)
  : Prop :=
  let amountDiff := PrimFloat.abs (JS.parseFloat (AMOUNT i) - JS.parseFloat (AMOUNT p)) in
  (amountDiff <=? amountTolerance)%float = true
  ∨ (amountDiff <=? JS.parseFloat (AMOUNT i) * 0.01)%float = true.

(** The score of [calculateMatchScore] before the date term, by the
    outcome of its first three tests: same consumer, same mode, and what
    the amount test added. *)
Definition scoreBeforeDate (sameConsumer sameMode : bool) (amountStep : option float)
  : float :=
  let score := 0%float in
  let score := if sameConsumer then (score + 0.4)%float else score in
  let score := if sameMode then (score + 0.3)%float else score in
  match amountStep with
  | Some a => (score + a)%float
  | None => score
  end.

(** For a tolerance of [n] whole days: whatever the first three tests
    gave and however many days within the tolerance the dates are apart,
    the score with the date term reaches 0.8 exactly when all three
    tests added to it. *)
Definition thresholdCheck (n : Z) : bool :=
  forallb (λ dd,
    forallb (λ c,
      forallb (λ m,
        forallb (λ a,
          Bool.eqb (0.8 <=? scoreBeforeDate c m a
                            + 0.05 * (1 - JS.of_Z dd / JS.of_Z n))%float
                   (c && m && match a with Some _ => true | None => false end))
          [Some 0.25%float; Some 0.15%float; None])
        [true; false])
      [true; false])
    (seqZ 0 (n + 1)).

(** ** The report of the export service *)

(** [x > n] for a property [x] that may be absent: [undefined > n] is
    false. *)
Definition exceeds (x : option Z) (n : Z) : bool :=
  match x with
  | Some d => bool_decide (n < d)%Z
  | None => false
  end.

Definition calculateAverageSettlementTime (matches : list MatchRecord) : string :=
  if Nat.eqb (length matches) 0 then "0 days"
  else
    let totalDays := foldl (λ sum m, (sum + abs_dateDifference m)%float) 0%float matches in
    let avgDays := JS.toFixed 1 (totalDays / JS.of_Z (Z.of_nat (length matches))) in
    avgDays +:+ " days".

Definition generateNextActions (exceptions : list ExceptionRecord) : list string :=
  let actions := [] in
  let criticalExceptions := filter (λ e, requiresAction e = true) exceptions in
  let actions :=
    if bool_decide (0 < length criticalExceptions)
    then actions ++ ["Immediate: Review "
                     +:+ JS.digits (Z.of_nat (length criticalExceptions))
                     +:+ " critical exceptions requiring action"]
    else actions in
  let oldExceptions := filter (λ e, exceeds (daysSincePayment e) 5 = true) exceptions in
  let actions :=
    if bool_decide (0 < length oldExceptions)
    then actions ++ ["Priority: Investigate "
                     +:+ JS.digits (Z.of_nat (length oldExceptions))
                     +:+ " payments older than 5 days"]
    else actions in
  let actions := actions ++ ["Routine: Schedule next reconciliation run for tomorrow"] in
  let actions :=
    actions ++ ["Follow-up: Verify resolution of previously identified exceptions"] in
  actions.

(** ** The date-range middleware of the dashboard routes *)

Inductive DateRangeError : Type :=
| MissingRequiredParameters
| InvalidDateFormat
| InvalidDateRange
| DateRangeTooLarge.

(** A query parameter is absent or a text; [moment] is the parser of the
    date library, which gives the epoch milliseconds of a text it accepts.
    The middleware answers 400 with an error, or stores the range and
    calls [next]. *)
Definition validateDateRange (moment : string → option Z)
    (fromDate toDate : option string) : DateRangeError + Z * Z :=
  match fromDate, toDate with
  | Some fromDate, Some toDate =>
      if String.eqb fromDate "" || String.eqb toDate ""
      then inl MissingRequiredParameters
      else
        match moment fromDate, moment toDate with
        | Some from, Some to =>
            if (to <? from)%Z then inl InvalidDateRange
            else if (90 <? moment_diff_days to from)%Z then inl DateRangeTooLarge
            else inr (from, to)
        | _, _ => inl InvalidDateFormat
        end
  | _, _ => inl MissingRequiredParameters
  end.

(** ** The summary and the exceptions of the payment model

    [PaymentReconciliation.getReconciliationSummary] and [getExceptions],
    applied to the rows the two queries returned. *)

(** The elements of [new Set(l)], or the keys of a [Map] filled in the
    order of [l]: each element once, in the order of first occurrence. *)
Definition Set_of `{EqDecision K} (l : list K) : list K :=
  foldl (λ seen k, if decide (k ∈ seen) then seen else seen ++ [k]) [] l.

Module PaymentReconciliation.

Definition PAYMENT_MODES : list string :=
  ["BANK_COUNTER"; "BILLSAHULIYAT_PLUS"; "SMART_BS"; "JK_BANK_MPAY"; "BBPS"; "POS_MACHINES"].

Record ModeSummary : Type := mkModeSummary {
  corportalAmount : float;
  ccbAmount : float;
  mode_corportalCount : Z;
  mode_ccbCount : Z;
  variance : float
}.

Record SummaryData : Type := mkSummaryData {
  corportalTotal : float;
  ccbTotal : float;
  corportalCount : Z;
  ccbCount : Z;
  matchedCount : Z;
  unmatchedCorportalCount : Z;
  unmatchedCCBCount : Z;
  amountMismatchCount : Z;
  byPaymentMode : list (string * ModeSummary)
}.

(** The four counters the loop over [allKeys] updates. *)
Record Counters : Type := mkCounters {
  matched : Z;
  unmatchedCorportal : Z;
  unmatchedCCB : Z;
  amountMismatch : Z
}.

(** [payments.reduce((sum, p) => sum + Number(p.AMOUNT), 0)] *)
Definition amountTotal `{PaymentRow A} (payments : list A) : float :=
  foldl (λ sum p, (sum + AMOUNT p)%float) 0%float payments.

(** The map from composite key to the rows that carry it. *)
Definition groupPayments `{PaymentRow A} (payments : list A) : gmap string (list A) :=
  foldl (λ m payment, push_at (exactKey payment) payment m) ∅ payments.

(** The body of [allKeys.forEach]. *)
Definition countKey (corportalMap : gmap string (list CorportalPayment))
    (ccbMap : gmap string (list CCBPayment)) (summary : Counters) (key : string)
  : Counters :=
  let corportalRecords := default [] (corportalMap !! key) in
  let ccbRecords := default [] (ccbMap !! key) in
  let c := Z.of_nat (length corportalRecords) in
  let p := Z.of_nat (length ccbRecords) in
  if (0 <? c)%Z && (0 <? p)%Z then
    let summary :=
      mkCounters (matched summary + Z.min c p) (unmatchedCorportal summary)
                 (unmatchedCCB summary) (amountMismatch summary) in
    if negb (c =? p)%Z
    then mkCounters (matched summary) (unmatchedCorportal summary)
                    (unmatchedCCB summary) (amountMismatch summary + Z.abs (c - p))
    else summary
  else if (0 <? c)%Z then
    mkCounters (matched summary) (unmatchedCorportal summary + c)
               (unmatchedCCB summary) (amountMismatch summary)
  else if (0 <? p)%Z then
    mkCounters (matched summary) (unmatchedCorportal summary)
               (unmatchedCCB summary + p) (amountMismatch summary)
  else summary.

Definition getReconciliationSummary (corportalPayments : list CorportalPayment)
    (ccbPayments : list CCBPayment) : SummaryData :=
  let corportalMap := groupPayments corportalPayments in
  let ccbMap := groupPayments ccbPayments in
  let allKeys :=
    Set_of (Set_of (exactKey <$> corportalPayments) ++ Set_of (exactKey <$> ccbPayments)) in
  let counters := foldl (countKey corportalMap ccbMap) (mkCounters 0 0 0 0) allKeys in
  {| corportalTotal := amountTotal corportalPayments;
     ccbTotal := amountTotal ccbPayments;
     corportalCount := Z.of_nat (length corportalPayments);
     ccbCount := Z.of_nat (length ccbPayments);
     matchedCount := matched counters;
     unmatchedCorportalCount := unmatchedCorportal counters;
     unmatchedCCBCount := unmatchedCCB counters;
     amountMismatchCount := amountMismatch counters;
     byPaymentMode :=
       map (λ mode,
              let corportalModePayments :=
                filter (λ p, PAYMENT_MODE p = mode) corportalPayments in
              let ccbModePayments := filter (λ p, PAYMENT_MODE p = mode) ccbPayments in
              (mode,
               {| corportalAmount := amountTotal corportalModePayments;
                  ccbAmount := amountTotal ccbModePayments;
                  mode_corportalCount := Z.of_nat (length corportalModePayments);
                  mode_ccbCount := Z.of_nat (length ccbModePayments);
                  variance :=
                    (amountTotal corportalModePayments - amountTotal ccbModePayments)%float
               |}))
           PAYMENT_MODES |}.

Record ExceptionRow : Type := mkExceptionRow {
  type : ExceptionType;
  consumerID : string;
  amount : float;
  paymentMode : string;
  transactionID : string;
  paymentDate : option Z;
  corportalRecord : option CorportalPayment;
  ccbRecord : option CCBPayment;
  description : string
}.

(** The lookup map of [getExceptions]: [map.set(key, payment)] for each
    row, a later row replacing an earlier one with the same key. *)
Definition lookupMap `{PaymentRow A} (payments : list A) : gmap string A :=
  foldl (λ m payment, <[exactKey payment := payment]> m) ∅ payments.

Definition getExceptions (corportalPayments : list CorportalPayment)
    (ccbPayments : list CCBPayment) : list ExceptionRow :=
  let corportalMap := lookupMap corportalPayments in
  let ccbMap := lookupMap ccbPayments in
  let exceptions :=
    foldl (λ exceptions payment,
             if bool_decide (is_Some (ccbMap !! exactKey payment)) then exceptions
             else exceptions ++
                  [ {| type := UNMATCHED_CORPORTAL;
                       consumerID := CONSUMER_ID payment;
                       amount := AMOUNT payment;
                       paymentMode := PAYMENT_MODE payment;
                       transactionID := TRANSACTION_ID payment;
                       paymentDate := Some (PAYMENT_DATE payment);
                       corportalRecord := Some payment;
                       ccbRecord := None;
                       description := "Payment received but not posted to CCB" |} ])
          [] corportalPayments in
  foldl (λ exceptions payment,
           if bool_decide (is_Some (corportalMap !! exactKey payment)) then exceptions
           else exceptions ++
                [ {| type := UNMATCHED_CCB;
                     consumerID := CONSUMER_ID payment;
                     amount := AMOUNT payment;
                     paymentMode := PAYMENT_MODE payment;
                     transactionID := TRANSACTION_REF payment;
                     paymentDate := ccb_PAYMENT_DATE payment;
                     corportalRecord := None;
                     ccbRecord := Some payment;
                     description := "Payment posted to CCB but not found in CORPORTAL" |} ])
        exceptions ccbPayments.

End PaymentReconciliation.

(** The sum of [f k] over the keys [ks]. *)
Definition sumOver {K} (f : K → Z) (ks : list K) : Z :=
  foldr (λ k acc, (f k + acc)%Z) 0%Z ks.

(** Number of rows of [rows] that carry the composite key [k]. *)
Definition keyCount `{PaymentRow A} (rows : list A) (k : string) : Z :=
  Z.of_nat (length (filter (λ x, exactKey x = k) rows)).

(** * Properties *)

(** ** The match score *)


(** ** Bookkeeping of the two phases *)

Lemma intakeAmountSum_snoc ms m :
  intakeAmountSum (ms ++ [m])
  = (intakeAmountSum ms + JS.parseFloat (AMOUNT (corportalPayment m)))%float.
Proof. unfold intakeAmountSum. by rewrite foldl_app. Qed.

Lemma RunInv_initial env cs ps : RunInv (initialRun env cs ps).
Proof.
  split; simpl; try done.
  - intros id; split; [by intros H%elem_of_empty | ].
    intros (m & Hm & _); by apply elem_of_nil in Hm.
  - intros id; split; [by intros H%elem_of_empty | ].
    intros (m & Hm & _); by apply elem_of_nil in Hm.
Qed.

Lemma ids_push_left (f : MatchRecord → string) ms ps m (ids : gset string) :
  (∀ id, id ∈ ids ↔ ∃ x, x ∈ ms ++ ps ∧ f x = id) →
  ∀ id, id ∈ {[ f m ]} ∪ ids ↔ ∃ x, x ∈ (ms ++ [m]) ++ ps ∧ f x = id.
Proof.
  intros H id. rewrite elem_of_union, elem_of_singleton, H. split.
  - intros [-> | (x & Hx & Hid)].
    + exists m; split; [| done].
      rewrite !elem_of_app, list_elem_of_singleton. auto.
    + exists x; split; [| done].
      rewrite !elem_of_app in *. tauto.
  - intros (x & Hx & Hid).
    rewrite !elem_of_app, list_elem_of_singleton in Hx.
    destruct Hx as [[Hx | ->] | Hx]; [right | by left | right];
      (exists x; split; [rewrite elem_of_app; auto | done]).
Qed.

Lemma ids_push_right (f : MatchRecord → string) ms ps m (ids : gset string) :
  (∀ id, id ∈ ids ↔ ∃ x, x ∈ ms ++ ps ∧ f x = id) →
  ∀ id, id ∈ {[ f m ]} ∪ ids ↔ ∃ x, x ∈ ms ++ (ps ++ [m]) ∧ f x = id.
Proof.
  intros H id. rewrite elem_of_union, elem_of_singleton, H. split.
  - intros [-> | (x & Hx & Hid)].
    + exists m; split; [| done].
      rewrite !elem_of_app, list_elem_of_singleton. auto.
    + exists x; split; [| done].
      rewrite !elem_of_app in *. tauto.
  - intros (x & Hx & Hid).
    rewrite !elem_of_app, list_elem_of_singleton in Hx.
    destruct Hx as [Hx | [Hx | ->]]; [right | right | by left];
      (exists x; split; [rewrite elem_of_app; auto | done]).
Qed.

Lemma RunInv_exactAccept st c b : RunInv st → RunInv (exactAccept st c b).
Proof.
  intros [He Hf Ha Hc Hp Hci Hbi]. split; simpl.
  - apply Forall_app; split; [done |]. apply Forall_singleton. by repeat split.
  - done.
  - by rewrite intakeAmountSum_snoc, Ha.
  - rewrite length_app, Hc; simpl; lia.
  - done.
  - apply (ids_push_left (λ m, CORPORTAL_ROWID (corportalPayment m))
             _ _ (mkMatchRecord EXACT_MATCH c b _ _ _ _)), Hci.
  - apply (ids_push_left (λ m, CCB_ROWID (ccbPayment m))
             _ _ (mkMatchRecord EXACT_MATCH c b _ _ _ _)), Hbi.
Qed.

Lemma RunInv_fuzzyAccept st c fm : RunInv st → RunInv (fuzzyAccept st c fm).
Proof.
  intros Hinv. unfold fuzzyAccept.
  destruct fm as [| best rest]; [done |].
  destruct (0.8 <=? score best)%float eqn:Hs; [| done].
  destruct Hinv as [He Hf Ha Hc Hp Hci Hbi]. split; simpl.
  - done.
  - apply Forall_app; split; [done |]. apply Forall_singleton. by repeat split.
  - done.
  - done.
  - rewrite length_app, Hp; simpl; lia.
  - apply (ids_push_right (λ m, CORPORTAL_ROWID (corportalPayment m))
             _ _ (mkMatchRecord FUZZY_MATCH c (payment best) _ _ _ _)), Hci.
  - apply (ids_push_right (λ m, CCB_ROWID (ccbPayment m))
             _ _ (mkMatchRecord FUZZY_MATCH c (payment best) _ _ _ _)), Hbi.
Qed.

Lemma RunInv_exactStep idx dt st c : RunInv st → RunInv (exactStep idx dt st c).
Proof.
  intros Hinv. unfold exactStep.
  destruct (exact idx !! exactKey c) as [ms |]; [| done].
  case_bool_decide; [| done].
  destruct (findBestDateMatch c ms dt); [by apply RunInv_exactAccept | done].
Qed.

Lemma RunInv_foldl {A} (step : Run → A → Run) l :
  (∀ st x, RunInv st → RunInv (step st x)) →
  ∀ st, RunInv st → RunInv (foldl step st l).
Proof.
  intros Hstep. induction l as [| x l IH]; intros st Hinv; simpl; [done |].
  by apply IH, Hstep.
Qed.

Lemma RunInv_exactPhase cs idx dt st : RunInv st → RunInv (exactPhase cs idx dt st).
Proof. apply RunInv_foldl. intros; by apply RunInv_exactStep. Qed.

Lemma RunInv_fuzzyPhase cs ps at_ dt st : RunInv st → RunInv (fuzzyPhase cs ps at_ dt st).
Proof. apply RunInv_foldl. intros; by apply RunInv_fuzzyAccept. Qed.

(** The state in which the matching phases leave the run. *)
Lemma performDetailedReconciliation_state env cs ps opts :
  ∃ st, RunInv st
    ∧ matches (runResults env cs ps opts) = matches (results st)
    ∧ partialMatches (runResults env cs ps opts)
      = partialMatches (results st)
    ∧ exceptions (runResults env cs ps opts)
      = finalExceptions env cs ps st
    ∧ Summary.matchedAmount (summary (runResults env cs ps opts))
      = Summary.matchedAmount (summary (results st))
    ∧ Summary.matchedPayments (summary (runResults env cs ps opts))
      = Summary.matchedPayments (summary (results st))
    ∧ Summary.partialMatches (summary (runResults env cs ps opts))
      = Summary.partialMatches (summary (results st))
    ∧ (includePartialMatches opts = false → partialMatches (results st) = []).
Proof.
  unfold runResults, reconcile.
  pose proof (RunInv_exactPhase cs (indexOf env ps) (daysTolerance opts) _
                (RunInv_initial env cs ps)) as He.
  destruct (includePartialMatches opts) eqn:Hopt.
  - eexists; split; [by apply RunInv_fuzzyPhase, He |]. by repeat split.
  - eexists; split; [exact He |]. repeat split; try done.
    intros _. clear He. unfold exactPhase.
    set (idx := indexOf env ps). clearbody idx.
    assert (∀ st, partialMatches (results st) = [] →
                  partialMatches (results (foldl (exactStep idx (daysTolerance opts)) st cs)) = [])
      as H; [| by apply H].
    induction cs as [| c cs IH]; intros st Hst; simpl; [done |].
    apply IH. unfold exactStep.
    destruct (exact idx !! exactKey c) as [ms |]; [| done].
    case_bool_decide; [| done].
    destruct (findBestDateMatch c ms (daysTolerance opts)); done.
Qed.


(** ** When the indexes can be built *)

Lemma hyphenated_plain s : hyphenated s = true → s ∉ JS.Object_prototype.
Proof.
  intros H Hin. unfold JS.Object_prototype in Hin.
  repeat (apply elem_of_cons in Hin as [-> | Hin]; [by vm_compute in H |]).
  by apply elem_of_nil in Hin.
Qed.

Lemma numeric_lead_plain s : numeric_lead s = true → s ∉ JS.Object_prototype.
Proof.
  intros H Hin. unfold JS.Object_prototype in Hin.
  repeat (apply elem_of_cons in Hin as [-> | Hin]; [by vm_compute in H |]).
  by apply elem_of_nil in Hin.
Qed.

Lemma hyphenated_app a b : hyphenated (a +:+ "-" +:+ b) = true.
Proof. induction a as [| c a IH]; simpl; [done |]. rewrite IH. by destruct (Ascii.eqb c "-"%char). Qed.

Lemma numeric_lead_app a b :
  numeric_lead a = true → a ≠ "" → numeric_lead (a +:+ b) = true.
Proof. by destruct a. Qed.

Lemma digits_lead z : numeric_lead (JS.digits z) = true ∧ JS.digits z ≠ "".
Proof.
  unfold JS.digits. destruct (Z.to_int z) as [d | d]; [| done].
  by destruct d.
Qed.

Lemma substring_lead n s :
  numeric_lead s = true → s ≠ "" →
  numeric_lead (String.substring 0 (S n) s) = true ∧ String.substring 0 (S n) s ≠ "".
Proof. by destruct s. Qed.

Lemma format_decimal_lead s n : numeric_lead (JS.format_decimal s n) = true.
Proof.
  unfold JS.format_decimal. cbv zeta.
  destruct (digits_lead s) as [Hl Hne].
  set (k := Z.of_nat (String.length (JS.digits s))).
  destruct ((k <=? n)%Z && (n <=? 21)%Z); [by apply numeric_lead_app |].
  destruct ((0 <? n)%Z && (n <=? 21)%Z) eqn:E.
  - apply andb_true_iff in E as [E _]. apply Z.ltb_lt in E.
    destruct (Z.to_nat n) as [| m] eqn:En; [lia |].
    destruct (substring_lead m _ Hl Hne). by apply numeric_lead_app.
  - destruct ((-6 <? n)%Z && (n <=? 0)%Z); [done |].
    destruct (k =? 1)%Z; [by apply numeric_lead_app |].
    destruct (substring_lead 0 _ Hl Hne). by apply numeric_lead_app.
Qed.

Lemma Number_toString_plain x : JS.Number_toString x ∉ JS.Object_prototype.
Proof.
  apply numeric_lead_plain. unfold JS.Number_toString.
  destruct (Prim2SF x) as [| [] | | [] m e]; try done.
  - by destruct (JS.shortest (Z.pos m) e).
  - destruct (JS.shortest (Z.pos m) e) as [d n]. apply format_decimal_lead.
Qed.

Lemma exactKey_plain `{PaymentRow A} (payment : A) :
  exactKey payment ∉ JS.Object_prototype.
Proof. apply hyphenated_plain, hyphenated_app. Qed.

Lemma moment_format_date_plain env ms : moment_format_date env ms ∉ JS.Object_prototype.
Proof.
  unfold moment_format_date. destruct (_ && _); [| by apply numeric_lead_plain].
  destruct (civil_from_days _) as [[y m] d]. apply hyphenated_plain, hyphenated_app.
Qed.

(** On a plain object holding no key of [Object.prototype], a push under
    a key that is none either stores what the [Map] version would. *)
Lemma push_own_plain {A} k (v : A) obj :
  k ∉ JS.Object_prototype → push_own k v obj = Some (push_at k v obj).
Proof.
  intros Hk. unfold push_own, push_at.
  destruct (obj !! k) as [l |]; [done |].
  by rewrite bool_decide_eq_false_2.
Qed.

Lemma push_own_prototype {A} k (v : A) obj :
  k ∈ JS.Object_prototype → obj !! k = None → push_own k v obj = None.
Proof.
  intros Hk Hnone. unfold push_own. rewrite Hnone. by rewrite bool_decide_eq_true_2.
Qed.

Lemma createPaymentIndex_from `{PaymentRow A} env (payments : list A) index :
  (∀ k, k ∈ JS.Object_prototype → byConsumer index !! k = None) →
  foldl
    (λ index payment,
       index ← index;
       exact' ← push_own (exactKey payment) payment (exact index);
       byConsumer' ← push_own (CONSUMER_ID payment) payment (byConsumer index);
       byAmount' ←
         push_own (JS.Number_toString (JS.Math_round (JS.parseFloat (AMOUNT payment))))
                  payment (byAmount index);
       byDate' ←
         push_own (moment_format_date env (PAYMENT_DATE_or_POSTING_DATE payment))
                  payment (byDate index);
       Some {| exact := exact'; byConsumer := byConsumer';
               byAmount := byAmount'; byDate := byDate' |})
    (Some index) payments
  = if decide (indexable payments) then Some (indexFrom env index payments) else None.
Proof.
  revert index. induction payments as [| p l IH]; intros index Hidx.
  - cbn [foldl]. rewrite decide_True by constructor. by destruct index.
  - cbn [foldl]. cbn [mbind option_bind].
    rewrite (push_own_plain (exactKey p)) by apply exactKey_plain. cbn [mbind option_bind].
    destruct (decide (CONSUMER_ID p ∈ JS.Object_prototype)) as [Hin | Hout].
    + rewrite (push_own_prototype (CONSUMER_ID p)) by auto. cbn [mbind option_bind].
      rewrite decide_False by (intros Hall; by apply Forall_cons in Hall as [? _]).
      clear. induction l as [| q l IH]; [done |]. exact IH.
    + rewrite (push_own_plain (CONSUMER_ID p)) by done. cbn [mbind option_bind].
      rewrite (push_own_plain (JS.Number_toString _)) by apply Number_toString_plain.
      cbn [mbind option_bind].
      rewrite (push_own_plain (moment_format_date _ _)) by apply moment_format_date_plain.
      cbn [mbind option_bind].
      rewrite IH.
      * destruct (decide (indexable l)) as [Hl | Hl].
        -- rewrite decide_True by (by apply Forall_cons). done.
        -- rewrite decide_False by (intros Hall; by apply Forall_cons in Hall as [_ ?]). done.
      * cbn [byConsumer]. intros k Hk. unfold push_at.
        rewrite lookup_insert_ne by congruence. auto.
Qed.

(** Building the index succeeds exactly on rows none of whose
    [CONSUMER_ID]s names a member of [Object.prototype]. *)
Lemma createPaymentIndex_indexOf `{PaymentRow A} env (payments : list A) :
  createPaymentIndex env payments
  = if decide (indexable payments) then Some (indexOf env payments) else None.
Proof.
  unfold createPaymentIndex. rewrite createPaymentIndex_from; [done |].
  intros k _. apply lookup_empty.
Qed.

Lemma performDetailedReconciliation_runResults env cs ps opts :
  performDetailedReconciliation env cs ps opts
  = if decide (indexable cs ∧ indexable ps) then Some (runResults env cs ps opts) else None.
Proof.
  unfold performDetailedReconciliation. rewrite !createPaymentIndex_indexOf.
  destruct (decide (indexable cs)) as [Hc | Hc]; cbn [mbind option_bind].
  - destruct (decide (indexable ps)) as [Hp | Hp]; cbn [mbind option_bind].
    + by rewrite decide_True.
    + rewrite decide_False; [done | tauto].
  - rewrite decide_False; [done | tauto].
Qed.

Lemma getReconciliationStats_statsOf env cs ps :
  getReconciliationStats env cs ps
  = if decide (indexable cs ∧ indexable ps) then Some (statsOf env cs ps) else None.
Proof.
  unfold getReconciliationStats. rewrite performDetailedReconciliation_runResults.
  by destruct (decide _).
Qed.

Lemma afterRun_intro env cs ps opts (P : Results → Prop) :
  P (runResults env cs ps opts) → afterRun env cs ps opts P.
Proof.
  intros HP. unfold afterRun. rewrite performDetailedReconciliation_runResults.
  by destruct (decide _).
Qed.

Lemma afterStats_intro env cs ps (P : Stats → Prop) :
  P (statsOf env cs ps) → afterStats env cs ps P.
Proof.
  intros HP. unfold afterStats. rewrite getReconciliationStats_statsOf.
  by destruct (decide _).
Qed.

(** The run of a proof goal is replaced by what it returns. *)
Ltac run_returns := first [apply afterRun_intro | apply afterStats_intro]; cbv beta.

(** ** Claims about single runs *)

(** C1 (the code departs from the claim).  A posting row is not taken out
    of candidacy once it is assigned.  With two intake rows sharing one
    composite key and a single posting row, the exact phase pairs the
    posting row P1 with both A1 and A2; with the posting amount one paisa
    off, the fuzzy phase does the same.  No intake row is paired twice. *)
Theorem posting_row_claimed_twice :
  runGives (clockFrom NOW) twin_intake [single_posting] defaultOptions
    (λ r, map pairing (matches r)
          = [(EXACT_MATCH, "A1", "P1"); (EXACT_MATCH, "A2", "P1")])
  ∧ runGives (clockFrom NOW) twin_intake [scenario_posting] defaultOptions
      (λ r, map pairing (partialMatches r)
            = [(FUZZY_MATCH, "A1", "P1"); (FUZZY_MATCH, "A2", "P1")]).
Proof. split; vm_compute; reflexivity. Qed.

(** C2 (the code departs from the claim).  On the same input the intake
    side balances (2 exact + 0 fuzzy + 0 unmatched = 2 intake rows) but the
    posting side does not: 2 exact + 0 fuzzy + 0 unmatched against a single
    posting row. *)
Theorem posting_conservation_broken :
  runGives (clockFrom NOW) twin_intake [single_posting] defaultOptions
    (λ r,
       let s := summary r in
       Z.of_nat (length (matches r)) = 2%Z
       ∧ Z.of_nat (length (partialMatches r)) = 0%Z
       ∧ Summary.matchedPayments s = 2%Z
       ∧ Summary.partialMatches s = 0%Z
       ∧ Summary.unmatchedCorportal s = 0%Z
       ∧ Summary.unmatchedCCB s = 0%Z
       ∧ Summary.totalCorportalPayments s = 2%Z
       ∧ Summary.totalCCBPayments s = 1%Z).
Proof. vm_compute. by repeat split. Qed.


(** C6 (the code departs from the claim).  The two rates are the quotients
    the claim names, times 100, but the division is not guarded: with no
    intake rows both are [0 / 0 * 100], which is [NaN], not 0. *)
Theorem rates_are_NaN_without_intake :
  (∀ env cs ps,
     afterStats env cs ps
       (λ stats,
          let s := stats_summary stats in
          reconciliationEfficiency stats
          = (JS.of_Z (Summary.matchedPayments s) / JS.of_Z (Summary.totalCorportalPayments s)
             * 100)%float
          ∧ amountReconciliationRate stats
            = (Summary.matchedAmount s / Summary.totalCorportalAmount s * 100)%float))
  ∧ (∀ env,
       statsGive env [] []
         (λ stats,
            Summary.totalCorportalPayments (stats_summary stats) = 0%Z
            ∧ Summary.totalCorportalAmount (stats_summary stats) = 0%float
            ∧ reconciliationEfficiency stats = nan
            ∧ amountReconciliationRate stats = nan
            ∧ (reconciliationEfficiency stats =? 0)%float = false
            ∧ (amountReconciliationRate stats =? 0)%float = false)).
Proof. split; [intros; by run_returns | by vm_compute]. Qed.

(** ** Rounding to a number of decimals *)

(** [nearest_int v e] is the integer nearest to [v * 2^e], the upper one
    of the two on a tie: twice the value lies in [2n - 1, 2n + 1). *)
Lemma nearest_int_nearest v e :
  (e < 0)%Z →
  let n := JS.nearest_int v e in
  ((2 * n - 1) * 2 ^ (- e) <= 2 * v < (2 * n + 1) * 2 ^ (- e))%Z.
Proof.
  intros He. unfold JS.nearest_int.
  destruct (0 <=? e)%Z eqn:E; [apply Z.leb_le in E; lia |]. cbv zeta.
  replace (1 - e)%Z with (Z.succ (- e)) by lia.
  rewrite Z.pow_succ_r by lia.
  assert (0 < 2 ^ (- e))%Z as Hk by (apply Z.pow_pos_nonneg; lia).
  set (k := (2 ^ (- e))%Z) in *.
  pose proof (Z.div_mod (2 * v + k) (2 * k) ltac:(lia)) as Hdm.
  pose proof (Z.mod_pos_bound (2 * v + k) (2 * k) ltac:(lia)) as Hr.
  set (n := ((2 * v + k) / (2 * k))%Z) in *.
  nia.
Qed.

(** ** Matched amount and settlement lag *)

Lemma exact_shape_type ms :
  Forall exact_shape ms → Forall (λ m, type m = EXACT_MATCH) ms.
Proof. intros H. eapply Forall_impl; [exact H |]. by intros m (? & _). Qed.

Lemma fuzzy_shape_type ms :
  Forall fuzzy_shape ms → Forall (λ m, type m = FUZZY_MATCH) ms.
Proof. intros H. eapply Forall_impl; [exact H |]. by intros m (? & _). Qed.

(** C7, the claim as stated fails: a run whose only accepted match is a
    fuzzy one (intake amount 1000.00) reports a matched amount of 0, while
    the sum over every accepted match is 1000. *)
Lemma matchedAmount_counterexample :
  runGives (clockFrom NOW) [scenario_intake] [scenario_posting] defaultOptions
    (λ r,
       map pairing (Spec.acceptedMatches r) = [(FUZZY_MATCH, "A1", "P1")]
       ∧ Summary.matchedAmount (summary r) = 0%float
       ∧ Spec.matchedAmount r = 1000%float
       ∧ (Summary.matchedAmount (summary r) =? Spec.matchedAmount r)%float = false).
Proof. by vm_compute. Qed.

(** C7, amended.  For every run the reported matched amount is the sum of
    the intake-side amounts over [results.matches], added in order, and
    [results.matches] holds the exact matches only; accepted fuzzy
    pairings go to [results.partialMatches], are counted by
    [summary.partialMatches], and add nothing to the matched amount. *)
Theorem matchedAmount_sums_exact_matches env cs ps opts :
  afterRun env cs ps opts
    (λ r,
       Summary.matchedAmount (summary r) = intakeAmountSum (matches r)
       ∧ Forall (λ m, type m = EXACT_MATCH) (matches r)
       ∧ Forall (λ m, type m = FUZZY_MATCH) (partialMatches r)
       ∧ Summary.matchedPayments (summary r) = Z.of_nat (length (matches r))
       ∧ Summary.partialMatches (summary r) = Z.of_nat (length (partialMatches r))).
Proof.
  run_returns.
  destruct (performDetailedReconciliation_state env cs ps opts)
    as (st & Hinv & Hm & Hp & _ & Ha & Hc & Hpc & _).
  destruct Hinv as [He Hf Hamt Hcnt Hpcnt _ _].
  cbv zeta. rewrite Hm, Hp, Ha, Hc, Hpc.
  repeat split; auto using exact_shape_type, fuzzy_shape_type.
Qed.

Lemma settlementDays_foldl ms acc :
  Forall exact_shape ms →
  foldl (λ sum m, (sum + abs_dateDifference m)%float) acc ms
  = foldl (λ sum m, (sum + Spec.settlementDays m)%float) acc ms.
Proof.
  intros H. revert acc. induction H as [| m ms (_ & _ & Hd) _ IH]; intros acc; simpl; [done |].
  rewrite <- IH. unfold abs_dateDifference, Spec.settlementDays. by rewrite Hd.
Qed.

(** C8, the claim as stated fails: with one exact match posted the same
    day and one fuzzy match posted a day late, the mean lag over both is
    0.5, but the reported average is "0.0". *)
Lemma avgSettlementDays_counterexample :
  let cs := [corp "A0" "C0" "BBPS" 500.00 DAY0; scenario_intake] in
  let ps := [ccb "P0" "C0" "BBPS" 500.00 DAY0; scenario_posting] in
  runGives (clockFrom NOW) cs ps defaultOptions
    (λ r,
       map pairing (Spec.acceptedMatches r)
       = [(EXACT_MATCH, "A0", "P0"); (FUZZY_MATCH, "A1", "P1")]
       ∧ map Spec.settlementDays (Spec.acceptedMatches r) = [0%float; 1%float]
       ∧ Spec.avgSettlementDays r = JS.Str "0.5")
  ∧ statsGive (clockFrom NOW) cs ps (λ stats, avgSettlementDays stats = JS.Str "0.0").
Proof. by vm_compute. Qed.

(** C8, amended.  [avgSettlementDays] is taken over [results.matches],
    which holds the exact matches only: it is the number 0 when there is
    no exact match, and otherwise the sum of their lags in whole days
    divided by their number, printed by [toFixed(1)].  Fuzzy matches carry
    no date difference and do not enter the average. *)
Theorem avgSettlementDays_over_exact_matches env cs ps :
  afterRun env cs ps defaultOptions
    (λ r,
       afterStats env cs ps
         (λ stats,
            let ms := matches r in
            avgSettlementDays stats
            = (if Nat.eqb (length ms) 0 then JS.Num 0
               else JS.Str (JS.toFixed 1
                              (foldl (λ sum m, (sum + Spec.settlementDays m)%float)
                                     0%float ms
                               / JS.of_Z (Z.of_nat (length ms)))))
            ∧ Forall (λ m, type m = EXACT_MATCH) ms
            ∧ Forall (λ m, dateDifference m = None) (partialMatches r))).
Proof.
  run_returns. run_returns.
  destruct (performDetailedReconciliation_state env cs ps defaultOptions)
    as (st & Hinv & Hm & Hp & _).
  destruct Hinv as [He Hf _ _ _ _ _].
  cbv zeta.
  change (avgSettlementDays (statsOf env cs ps))
    with (calculateAverageSettlementDays
            (matches (runResults env cs ps defaultOptions))).
  unfold calculateAverageSettlementDays. rewrite Hm, Hp.
  rewrite settlementDays_foldl by done.
  repeat split; auto using exact_shape_type.
  eapply Forall_impl; [exact Hf |]. by intros m (_ & ? & _).
Qed.

(** ** Exceptions *)


Lemma finalExceptions_unfold env cs ps st :
  finalExceptions env cs ps st
  = imap (intakeException env)
         (filter (λ p, CORPORTAL_ROWID p ∉ matchedCorportalIds st) cs)
    ++ imap (λ j, postingException env
                    (1 + 2 * length (filter (λ p, CORPORTAL_ROWID p ∉ matchedCorportalIds st)
                                            cs) + j))
            (filter (λ p, CCB_ROWID p ∉ matchedCCBIds st) ps).
Proof. reflexivity. Qed.

(** The exceptions by position: the unmatched intake rows in input order,
    then the unmatched posting rows. *)
Lemma finalExceptions_lookup env cs ps st i e :
  finalExceptions env cs ps st !! i = Some e
  ↔ (∃ p, filter (λ p, CORPORTAL_ROWID p ∉ matchedCorportalIds st) cs !! i = Some p
          ∧ e = intakeException env i p)
    ∨ (∃ j q, filter (λ p, CCB_ROWID p ∉ matchedCCBIds st) ps !! j = Some q
          ∧ i = length (filter (λ p, CORPORTAL_ROWID p ∉ matchedCorportalIds st) cs) + j
          ∧ e = postingException env (1 + 2 * (i - j) + j) q).
Proof.
  rewrite finalExceptions_unfold.
  set (U := filter _ cs). set (V := filter _ ps).
  rewrite lookup_app_Some, length_imap, !list_lookup_imap. split.
  - intros [H | [Hlen H]].
    + left. destruct (U !! i) as [p |]; [| done]. injection H as <-. by exists p.
    + right.
      destruct (V !! (i - length U)) as [q |] eqn:Hq; [| done]. injection H as <-.
      exists (i - length U), q. split; [done |]. split; [lia |].
      by replace (i - (i - length U)) with (length U) by lia.
  - intros [(p & Hp & ->) | (j & q & Hq & -> & ->)].
    + left. by rewrite Hp.
    + right. split; [lia |].
      replace (length U + j - length U) with j by lia. rewrite Hq. simpl.
      by replace (length U + j - j) with (length U) by lia.
Qed.

Lemma finalExceptions_elem env cs ps st e :
  e ∈ finalExceptions env cs ps st →
  (∃ k p, p ∈ cs ∧ (CORPORTAL_ROWID p ∉ matchedCorportalIds st)
          ∧ e = intakeException env k p)
  ∨ (∃ n q, q ∈ ps ∧ (CCB_ROWID q ∉ matchedCCBIds st) ∧ e = postingException env n q).
Proof.
  rewrite list_elem_of_lookup. intros (i & Hi).
  apply finalExceptions_lookup in Hi as [(p & Hp & ->) | (j & q & Hq & _ & ->)].
  - left. exists i, p. apply list_elem_of_lookup_2 in Hp.
    apply list_elem_of_filter in Hp as [? ?]. auto.
  - right. eexists _, q. apply list_elem_of_lookup_2 in Hq.
    apply list_elem_of_filter in Hq as [? ?]. auto.
Qed.

Lemma finalExceptions_has_intake env cs ps st p :
  p ∈ cs → CORPORTAL_ROWID p ∉ matchedCorportalIds st →
  ∃ k, intakeException env k p ∈ finalExceptions env cs ps st.
Proof.
  intros Hp Hid.
  assert (p ∈ filter (λ p, CORPORTAL_ROWID p ∉ matchedCorportalIds st) cs) as Hin
    by (by apply list_elem_of_filter).
  apply list_elem_of_lookup in Hin as (i & Hi).
  exists i. apply list_elem_of_lookup. exists i.
  apply finalExceptions_lookup. left. by exists p.
Qed.

Lemma finalExceptions_has_posting env cs ps st q :
  q ∈ ps → CCB_ROWID q ∉ matchedCCBIds st →
  ∃ n, postingException env n q ∈ finalExceptions env cs ps st.
Proof.
  intros Hq Hid.
  assert (q ∈ filter (λ p, CCB_ROWID p ∉ matchedCCBIds st) ps) as Hin
    by (by apply list_elem_of_filter).
  apply list_elem_of_lookup in Hin as (j & Hj).
  eexists. apply list_elem_of_lookup.
  exists (length (filter (λ p, CORPORTAL_ROWID p ∉ matchedCorportalIds st) cs) + j).
  apply finalExceptions_lookup. right. exists j, q. split; [done |]. split; [done |].
  reflexivity.
Qed.

Lemma claimed_intake_ids st id :
  RunInv st → id ∈ matchedCorportalIds st ↔ id ∈ intakeIds (results st).
Proof.
  intros Hinv. rewrite (inv_corp_ids _ Hinv). unfold intakeIds.
  rewrite list_elem_of_fmap. split; intros (m & H1 & H2); by exists m.
Qed.

Lemma claimed_posting_ids st id :
  RunInv st → id ∈ matchedCCBIds st ↔ id ∈ postingIds (results st).
Proof.
  intros Hinv. rewrite (inv_ccb_ids _ Hinv). unfold postingIds.
  rewrite list_elem_of_fmap. split; intros (m & H1 & H2); by exists m.
Qed.

Lemma RunInv_matchedRun env cs ps opts : RunInv (matchedRun env cs ps opts).
Proof.
  unfold matchedRun.
  pose proof (RunInv_exactPhase cs (indexOf env ps) (daysTolerance opts) _
                (RunInv_initial env cs ps)) as He.
  destruct (includePartialMatches opts); [by apply RunInv_fuzzyPhase | done].
Qed.



(** C10.  With [includePartialMatches] off the fuzzy phase does not run:
    there is no fuzzy match and the counter stays 0; every intake row
    whose row id no exact match carries is reported as UNMATCHED_CORPORTAL,
    and every posting row whose row id no exact match carries is reported
    as UNMATCHED_CCB. *)
Theorem fuzzy_phase_skipped_when_disabled env cs ps at_ dt :
  afterRun env cs ps
    {| amountTolerance := at_; daysTolerance := dt; includePartialMatches := false |}
    (λ r,
       partialMatches r = []
       ∧ Summary.partialMatches (summary r) = 0%Z
       ∧ Forall (λ m, type m = EXACT_MATCH) (matches r)
       ∧ (∀ p, p ∈ cs →
            (¬ ∃ m, m ∈ matches r
                    ∧ CORPORTAL_ROWID (corportalPayment m) = CORPORTAL_ROWID p) →
            ∃ e, e ∈ exceptions r ∧ exc_type e = UNMATCHED_CORPORTAL
                 ∧ exc_payment e = inl p)
       ∧ (∀ p, p ∈ ps →
            (¬ ∃ m, m ∈ matches r ∧ CCB_ROWID (ccbPayment m) = CCB_ROWID p) →
            ∃ e, e ∈ exceptions r ∧ exc_type e = UNMATCHED_CCB ∧ exc_payment e = inr p)).
Proof.
  run_returns.
  set (opts := {| amountTolerance := at_; daysTolerance := dt;
                  includePartialMatches := false |}).
  destruct (performDetailedReconciliation_state env cs ps opts)
    as (st & Hinv & Hm & Hp & Hex & _ & _ & Hpc & Hoff).
  specialize (Hoff eq_refl).
  destruct Hinv as [He _ _ _ Hpcnt Hci Hbi].
  cbv zeta. rewrite Hm, Hp, Hpc, Hex, Hpcnt, Hoff.
  rewrite Hoff, app_nil_r in Hci, Hbi.
  split; [done | split; [done | split; [by apply exact_shape_type |]]].
  split.
  - intros p Hin Hno.
    destruct (finalExceptions_has_intake env cs ps st p Hin) as [k Hk].
    + intros Hid. apply Hno. by apply Hci.
    + by exists (intakeException env k p).
  - intros p Hin Hno.
    destruct (finalExceptions_has_posting env cs ps st p Hin) as [n Hn].
    + intros Hid. apply Hno. by apply Hbi.
    + by exists (postingException env n p).
Qed.


(** ** Order of binary64 values and the sign of a difference *)

Module FloatOrder.
Local Open Scope Z_scope.

Lemma SFcompare_rank f1 f2 :
  f1 ≠ S754_nan → f2 ≠ S754_nan →
  match SFcompare f1 f2 with
  | Some Lt => lex_lt (rank f1) (rank f2)
  | Some Eq => rank f1 = rank f2
  | Some Gt => lex_lt (rank f2) (rank f1)
  | None => False
  end.
Proof.
  intros H1 H2.
  destruct f1 as [s1 | s1 | | s1 m1 e1], f2 as [s2 | s2 | | s2 m2 e2];
    try congruence; try destruct s1; try destruct s2; simpl; try lia; try reflexivity.
  all: change (Pos.compare_cont Eq m1 m2) with (Pos.compare m1 m2).
  all: destruct (Z.compare_spec e1 e2); try lia.
  all: destruct (Pos.compare_spec m1 m2); simpl; subst; try reflexivity; try lia.
Qed.


Lemma SFcompare_nan_l f : SFcompare S754_nan f = None.
Proof. by destruct f. Qed.
Lemma SFcompare_nan_r f : SFcompare f S754_nan = None.
Proof. by destruct f as [[]|[]| |[]]. Qed.

Lemma lex_lt_irrefl r : ¬ lex_lt r r.
Proof. destruct r as [[a b] c]. simpl. lia. Qed.

Lemma lex_lt_asym r1 r2 : lex_lt r1 r2 → ¬ lex_lt r2 r1.
Proof. destruct r1 as [[a b] c], r2 as [[a' b'] c']. simpl. lia. Qed.

Lemma lex_lt_trans r1 r2 r3 : lex_lt r1 r2 → lex_lt r2 r3 → lex_lt r1 r3.
Proof. destruct r1 as [[a b] c], r2 as [[a' b'] c'], r3 as [[a'' b''] c'']. simpl. lia. Qed.

Lemma lex_total r1 r2 : lex_lt r1 r2 ∨ r1 = r2 ∨ lex_lt r2 r1.
Proof.
  destruct r1 as [[a b] c], r2 as [[a' b'] c']. simpl.
  destruct (Z.lt_total a a') as [|[|]]; [lia | | lia].
  destruct (Z.lt_total b b') as [|[|]]; [lia | | lia].
  destruct (Z.lt_total c c') as [|[|]]; [lia | | lia].
  right; left; congruence.
Qed.

Lemma SFltb_iff f1 f2 :
  SFltb f1 f2 = true ↔ f1 ≠ S754_nan ∧ f2 ≠ S754_nan ∧ lex_lt (rank f1) (rank f2).
Proof.
  unfold SFltb. split.
  - intros H. destruct (SFcompare f1 f2) as [[]|] eqn:E; try discriminate.
    assert (f1 ≠ S754_nan) by (intros ->; by rewrite SFcompare_nan_l in E).
    assert (f2 ≠ S754_nan) by (intros ->; by rewrite SFcompare_nan_r in E).
    pose proof (SFcompare_rank f1 f2) as Hr. rewrite E in Hr. auto.
  - intros (H1 & H2 & Hlt).
    pose proof (SFcompare_rank f1 f2 H1 H2) as Hr.
    destruct (SFcompare f1 f2) as [[]|]; try done.
    + rewrite Hr in Hlt. by apply lex_lt_irrefl in Hlt.
    + by apply lex_lt_asym in Hlt.
Qed.

Lemma SFleb_iff f1 f2 :
  SFleb f1 f2 = true ↔
  f1 ≠ S754_nan ∧ f2 ≠ S754_nan ∧ (lex_lt (rank f1) (rank f2) ∨ rank f1 = rank f2).
Proof.
  unfold SFleb. split.
  - intros H. destruct (SFcompare f1 f2) as [[]|] eqn:E; try discriminate.
    all: assert (f1 ≠ S754_nan) by (intros ->; by rewrite SFcompare_nan_l in E).
    all: assert (f2 ≠ S754_nan) by (intros ->; by rewrite SFcompare_nan_r in E).
    all: pose proof (SFcompare_rank f1 f2) as Hr; rewrite E in Hr; auto.
  - intros (H1 & H2 & Hle).
    pose proof (SFcompare_rank f1 f2 H1 H2) as Hr.
    destruct (SFcompare f1 f2) as [[]|]; try done.
    destruct Hle as [Hlt | Heq].
    + by apply lex_lt_asym in Hlt.
    + rewrite Heq in Hr. by apply lex_lt_irrefl in Hr.
Qed.

Lemma ltb_iff x y :
  (x <? y)%float = true ↔ fnum x ∧ fnum y ∧ lex_lt (frank x) (frank y).
Proof. rewrite ltb_spec. apply SFltb_iff. Qed.

Lemma leb_iff x y :
  (x <=? y)%float = true ↔
  fnum x ∧ fnum y ∧ (lex_lt (frank x) (frank y) ∨ frank x = frank y).
Proof. rewrite leb_spec. apply SFleb_iff. Qed.

Lemma leb_trans x y z :
  (x <=? y)%float = true → (y <=? z)%float = true → (x <=? z)%float = true.
Proof.
  rewrite !leb_iff. intros (Hx & Hy & Hxy) (_ & Hz & Hyz).
  split; [done | split; [done |]].
  destruct Hxy as [Hxy | Hxy], Hyz as [Hyz | Hyz].
  - left. by eapply lex_lt_trans.
  - left. by rewrite <- Hyz.
  - left. by rewrite Hxy.
  - right. congruence.
Qed.

Lemma not_ltb_leb x y :
  fnum x → fnum y → (x <? y)%float = false → (y <=? x)%float = true.
Proof.
  intros Hx Hy Hlt. apply leb_iff. split; [done | split; [done |]].
  destruct (lex_total (frank x) (frank y)) as [H | [H | H]]; auto.
  assert ((x <? y)%float = true) by (apply ltb_iff; auto). congruence.
Qed.

Lemma ltb_leb x y : (x <? y)%float = true → (x <=? y)%float = true.
Proof. rewrite ltb_iff, leb_iff. intros (? & ? & ?); auto. Qed.

Lemma ltb_fnum_r x y : (x <? y)%float = true → fnum y.
Proof. rewrite ltb_iff. by intros (_ & ? & _). Qed.


Lemma digits2_bounds p :
  2 ^ (Z.pos (digits2_pos p) - 1) <= Z.pos p < 2 ^ Z.pos (digits2_pos p).
Proof.
  induction p as [p IH | p IH |]; simpl digits2_pos.
  - rewrite Pos2Z.inj_succ.
    replace (Z.succ (Z.pos (digits2_pos p)) - 1) with (Z.succ (Z.pos (digits2_pos p) - 1)) by lia.
    rewrite !Z.pow_succ_r by lia. lia.
  - rewrite Pos2Z.inj_succ.
    replace (Z.succ (Z.pos (digits2_pos p)) - 1) with (Z.succ (Z.pos (digits2_pos p) - 1)) by lia.
    rewrite !Z.pow_succ_r by lia. lia.
  - simpl. lia.
Qed.

Lemma shr_1_m r : 0 <= shr_m r → shr_m (shr_1 r) = shr_m r / 2.
Proof.
  destruct r as [m b s]. simpl. intros H.
  rewrite <- Z.div2_div.
  destruct m as [| [p | p |] | p]; try reflexivity; lia.
Qed.

Lemma shr_iter_m n r :
  0 <= shr_m r → shr_m (iter_pos shr_1 n r) = shr_m r / 2 ^ Z.pos n.
Proof.
  revert r. induction n as [n IH | n IH |]; intros r Hr; simpl iter_pos.
  - assert (0 <= shr_m (shr_1 r)) as H1 by (rewrite shr_1_m by done; apply Z.div_pos; lia).
    assert (0 <= shr_m (iter_pos shr_1 n (shr_1 r))) as H2
      by (rewrite IH by done; apply Z.div_pos; lia).
    rewrite IH, IH, shr_1_m by done.
    rewrite !Z.div_div by lia. f_equal.
    replace (Z.pos n~1) with (1 + Z.pos n + Z.pos n) by lia.
    rewrite !Z.pow_add_r by lia. lia.
  - assert (0 <= shr_m (iter_pos shr_1 n r)) as H2
      by (rewrite IH by done; apply Z.div_pos; lia).
    rewrite IH, IH by done.
    rewrite !Z.div_div by lia. f_equal.
    replace (Z.pos n~0) with (Z.pos n + Z.pos n) by lia.
    rewrite !Z.pow_add_r by lia. lia.
  - rewrite shr_1_m by done. reflexivity.
Qed.

(** Rounding to the format never turns a positive mantissa into zero as
    long as the exponent is not below the smallest one. *)
Lemma shr_fexp_pos m e l :
  0 < m → emin64 <= e →
  0 < shr_m (fst (shr_fexp prec emax m e l)) ∧ emin64 <= snd (shr_fexp prec emax m e l).
Proof.
  intros Hm He. unfold shr_fexp, shr.
  destruct m as [| p | p]; try lia. simpl Zdigits2.
  pose proof (digits2_bounds p) as [Hlo Hhi].
  set (d := Z.pos (digits2_pos p)) in *.
  assert (shr_m (shr_record_of_loc (Z.pos p) l) = Z.pos p) as Hrec
    by (destruct l as [| []]; reflexivity).
  destruct (fexp prec emax (d + e) - e) as [| n | n] eqn:En; simpl fst; simpl snd.
  - rewrite Hrec. lia.
  - rewrite shr_iter_m, Hrec by (rewrite Hrec; lia).
    unfold fexp in En.
    assert (Z.pos n = d - prec) as Hn by (unfold prec, emax, SpecFloat.emin in *; lia).
    split; [| lia].
    apply Z.div_str_pos. split; [lia |].
    etransitivity; [| exact Hlo].
    apply Z.pow_le_mono_r; unfold prec in *; lia.
  - rewrite Hrec. lia.
Qed.

Lemma round_nearest_even_pos m l : 0 < m → 0 < round_nearest_even m l.
Proof.
  intros H. destruct l as [| []]; simpl; try lia. destruct (Z.even m); lia.
Qed.

Lemma binary_round_aux_shape s m e l :
  0 < m → emin64 <= e →
  (∃ m' e', binary_round_aux prec emax s m e l = S754_finite s m' e')
  ∨ binary_round_aux prec emax s m e l = S754_infinity s.
Proof.
  intros Hm He. unfold binary_round_aux.
  pose proof (shr_fexp_pos m e l Hm He) as [H1 H1e].
  destruct (shr_fexp prec emax m e l) as [r1 e1]. simpl in H1, H1e.
  pose proof (round_nearest_even_pos (shr_m r1) (loc_of_shr_record r1) H1) as H2.
  pose proof (shr_fexp_pos _ e1 loc_Exact H2 H1e) as [H3 _].
  destruct (shr_fexp prec emax _ e1 loc_Exact) as [r2 e2]. simpl in H3.
  destruct (shr_m r2) as [| q | q]; try lia.
  destruct (e2 <=? emax - prec); eauto.
Qed.

Lemma shl_align_value mx ex ez :
  ez <= ex → Z.pos (fst (shl_align mx ex ez)) = Z.pos mx * 2 ^ (ex - ez).
Proof.
  intros H. unfold shl_align.
  destruct (ez - ex) as [| d | d] eqn:E; simpl fst; try lia.
  - replace (ex - ez) with 0 by lia. lia.
  - replace (ex - ez) with (Z.pos d) by lia.
    rewrite Z.mul_comm. exact (Zpower.shift_pos_correct d mx).
Qed.

Lemma shl_align_exp mx ex ez :
  snd (shl_align mx ex ez) = Z.min ex ez.
Proof.
  unfold shl_align. destruct (ez - ex) as [| d | d] eqn:E; simpl snd; lia.
Qed.

Lemma binary_round_shape s p e :
  emin64 <= e →
  (∃ m' e', binary_round prec emax s p e = S754_finite s m' e')
  ∨ binary_round prec emax s p e = S754_infinity s.
Proof.
  intros He. unfold binary_round.
  pose proof (shl_align_exp p e (fexp prec emax (Z.pos (digits2_pos p) + e))) as Hs.
  destruct (shl_align p e _) as [mz ez]. simpl in Hs.
  apply binary_round_aux_shape; [lia |].
  unfold fexp in Hs. lia.
Qed.

(** What validity says about a finite value of the format. *)
Lemma valid_finite s m e :
  valid_binary (S754_finite s m e) = true →
  emin64 <= e ∧ Z.pos (digits2_pos m) <= prec
  ∧ (emin64 < e → Z.pos (digits2_pos m) = prec).
Proof.
  unfold SpecFloat.valid_binary, bounded, canonical_mantissa, fexp.
  intros H. apply andb_prop in H as [H _]. apply Z.eqb_eq in H.
  lia.
Qed.

(** With both values valid, the larger exponent wins once the mantissas
    are aligned on the smaller one. *)
Lemma aligned_exponent_order sx mx ex sy my ey :
  valid_binary (S754_finite sx mx ex) = true →
  valid_binary (S754_finite sy my ey) = true →
  ex < ey → Z.pos mx < Z.pos my * 2 ^ (ey - ex).
Proof.
  intros Hx Hy Hlt.
  apply valid_finite in Hx as (Hxe & Hxd & _).
  apply valid_finite in Hy as (_ & _ & Hyd).
  specialize (Hyd ltac:(lia)).
  pose proof (digits2_bounds mx) as [_ Hxhi].
  pose proof (digits2_bounds my) as [Hylo _].
  rewrite Hyd in Hylo.
  assert (2 ^ Z.pos (digits2_pos mx) <= 2 ^ prec) by (apply Z.pow_le_mono_r; lia).
  assert (2 ^ prec = 2 * 2 ^ (prec - 1)) as Hp by (by vm_compute).
  assert (2 ^ 1 <= 2 ^ (ey - ex)) by (apply Z.pow_le_mono_r; lia).
  nia.
Qed.

(** The sign of a rounded difference is the sign of the exact one. *)
Lemma SFsub_sign X Y :
  valid_binary X = true → valid_binary Y = true →
  SFltb (S754_zero false) (SF64sub Y X) = SFltb X Y.
Proof.
  intros HX HY.
  destruct X as [sx | sx | | sx mx ex], Y as [sy | sy | | sy my ey];
    try reflexivity; try (by destruct sx); try (by destruct sy); try (by destruct sx, sy).
  unfold SF64sub, SFsub.
  pose proof (valid_finite _ _ _ HX) as (Hex & _).
  pose proof (valid_finite _ _ _ HY) as (Hey & _).
  set (ez := Z.min ey ex).
  rewrite !shl_align_value by lia.
  set (vy := Z.pos my * 2 ^ (ey - ez)).
  set (vx := Z.pos mx * 2 ^ (ex - ez)).
  assert (0 < vx ∧ 0 < vy) as [Hvx Hvy].
  { split; apply Z.mul_pos_pos; try lia; apply Z.pow_pos_nonneg; lia. }
  assert (ex < ey → vx < vy) as Hlt.
  { intros H. subst vx vy ez. rewrite Z.min_r by lia.
    rewrite Z.sub_diag, Z.pow_0_r, Z.mul_1_r. by eapply aligned_exponent_order. }
  assert (ey < ex → vy < vx) as Hgt.
  { intros H. subst vx vy ez. rewrite Z.min_l by lia.
    rewrite Z.sub_diag, Z.pow_0_r, Z.mul_1_r. by eapply aligned_exponent_order. }
  assert (ex = ey → vx = Z.pos mx ∧ vy = Z.pos my) as Heq.
  { intros ->. subst vx vy ez. rewrite Z.min_id, Z.sub_diag, Z.pow_0_r. lia. }
  set (m := cond_Zopp sy vy - cond_Zopp sx vx).
  assert (SFltb (S754_finite sx mx ex) (S754_finite sy my ey) = true ↔ 0 < m) as HXY.
  { rewrite SFltb_iff. subst m. unfold cond_Zopp.
    destruct sx, sy; simpl; split.
    all: try (intros (_ & _ & H)); try (intros H; split; [done | split; [done |]]).
    all: lia. }
  assert (emin64 <= ez) as Hez by lia.
  destruct m as [| p | p] eqn:Em; unfold binary_normalize.
  - destruct (SFltb (S754_finite sx mx ex) (S754_finite sy my ey)); [| done].
    destruct HXY as [HXY _]. specialize (HXY eq_refl). lia.
  - destruct HXY as [_ HXY]. rewrite HXY by lia.
    destruct (binary_round_shape false p ez Hez) as [(m' & e' & ->) | ->]; reflexivity.
  - destruct (SFltb (S754_finite sx mx ex) (S754_finite sy my ey)).
    + destruct HXY as [HXY _]. specialize (HXY eq_refl). lia.
    + destruct (binary_round_shape true p ez Hez) as [(m' & e' & ->) | ->]; reflexivity.
Qed.

(** The comparator [(a, b) => b - a] is positive exactly when [a < b]. *)
Lemma sub_pos_iff_lt x y : (0 <? y - x)%float = (x <? y)%float.
Proof.
  rewrite !ltb_spec, sub_spec.
  change (Prim2SF 0) with (S754_zero false).
  apply SFsub_sign; apply Prim2SF_valid.
Qed.

End FloatOrder.

(** ** Sorting the candidates *)

Lemma insert_sorted_perm {A} (cmp : A → A → float) x l :
  insert_sorted cmp x l ≡ₚ x :: l.
Proof.
  induction l as [| y l IH]; simpl; [done |].
  destruct (0 <? cmp x y)%float; [| done].
  by rewrite IH, Permutation_swap.
Qed.

Lemma Array_sort_perm {A} (cmp : A → A → float) l : Array_sort cmp l ≡ₚ l.
Proof.
  induction l as [| x l IH]; simpl; [done |].
  by rewrite insert_sorted_perm, IH.
Qed.

Lemma insert_sorted_desc x l :
  fnum (score x) → Forall (λ c, fnum (score c)) l →
  StronglySorted scoreDesc l →
  StronglySorted scoreDesc (insert_sorted (λ a b, (score b - score a)%float) x l).
Proof.
  intros Hx Hl Hs. induction Hs as [| y l Hs IH Hy]; simpl.
  - repeat constructor.
  - apply Forall_cons in Hl as [Hny Hl].
    rewrite FloatOrder.sub_pos_iff_lt.
    destruct (score x <? score y)%float eqn:E.
    + constructor; [by apply IH |].
      rewrite insert_sorted_perm. constructor; [| done].
      by apply FloatOrder.ltb_leb.
    + assert (scoreDesc x y) as Hxy by (by apply FloatOrder.not_ltb_leb).
      constructor; [by constructor |].
      constructor; [done |].
      eapply Forall_impl; [exact Hy |].
      intros z Hz. unfold scoreDesc in *. by eapply FloatOrder.leb_trans.
Qed.

Lemma Array_sort_desc l :
  Forall (λ c, fnum (score c)) l →
  StronglySorted scoreDesc (Array_sort (λ a b, (score b - score a)%float) l).
Proof.
  induction 1 as [| x l Hx Hl IH]; simpl; [constructor |].
  apply insert_sorted_desc; [done | | done].
  by rewrite Array_sort_perm.
Qed.

(** The loop of [findFuzzyMatches] keeps, in order, the candidates with a
    positive score. *)
Lemma scan_filter (f : CCBPayment → Candidate) pool acc :
  foldl (λ ms q, if (0 <? score (f q))%float then ms ++ [f q] else ms) acc pool
  = acc ++ filter positiveScore (f <$> pool).
Proof.
  revert acc. induction pool as [| q pool IH]; intros acc.
  - by rewrite app_nil_r.
  - cbn [foldl fmap list_fmap]. rewrite IH, filter_cons.
    case_decide as Hp; unfold positiveScore in Hp.
    + by rewrite Hp, <- app_assoc.
    + by destruct (0 <? score (f q))%float.
Qed.

Lemma findFuzzyMatches_unfold i pool at_ dt :
  findFuzzyMatches i pool at_ dt
  = Array_sort (λ a b, (score b - score a)%float)
               (filter positiveScore (scoreCandidate i at_ dt <$> pool)).
Proof.
  unfold findFuzzyMatches. cbv zeta.
  exact (f_equal (Array_sort _) (scan_filter (scoreCandidate i at_ dt) pool [])).
Qed.

Lemma findFuzzyMatches_desc i pool at_ dt :
  StronglySorted scoreDesc (findFuzzyMatches i pool at_ dt).
Proof.
  rewrite findFuzzyMatches_unfold. apply Array_sort_desc.
  apply Forall_forall. intros c Hc.
  apply list_elem_of_filter in Hc as [Hc _].
  by apply FloatOrder.ltb_fnum_r in Hc.
Qed.

(** ** The intake side: every intake row is claimed at most once *)

Lemma exactStep_claims idx dt st c : claimsAtMost st (exactStep idx dt st c) c.
Proof.
  unfold exactStep.
  destruct (exact idx !! exactKey c) as [ms |]; [| by left].
  case_bool_decide; [| by left].
  destruct (findBestDateMatch c ms dt) as [best |]; [| by left].
  right. unfold intakeIds, exactAccept; simpl.
  rewrite !fmap_app. simpl. rewrite <- app_assoc. simpl.
  by rewrite <- Permutation_middle.
Qed.

Lemma fuzzyStep_claims pool at_ dt st c : claimsAtMost st (fuzzyStep pool at_ dt st c) c.
Proof.
  unfold fuzzyStep, fuzzyAccept.
  destruct (findFuzzyMatches c pool at_ dt) as [| best rest]; [by left |].
  destruct (0.8 <=? score best)%float; [| by left].
  right. unfold intakeIds; simpl.
  rewrite !fmap_app. simpl.
  by rewrite app_assoc, <- Permutation_cons_append.
Qed.

Lemma claims_foldl (step : Run → CorportalPayment → Run) :
  (∀ st c, claimsAtMost st (step st c) c) →
  ∀ l st seen,
    NoDup (seen ++ (CORPORTAL_ROWID <$> l)) →
    NoDup (intakeIds (results st)) →
    (∀ id, id ∈ intakeIds (results st) → id ∈ seen) →
    NoDup (intakeIds (results (foldl step st l)))
    ∧ (∀ id, id ∈ intakeIds (results (foldl step st l)) →
             id ∈ seen ++ (CORPORTAL_ROWID <$> l)).
Proof.
  intros Hstep. induction l as [| c l IH]; intros st seen Hnd Hst Hsub; simpl.
  - split; [done |]. intros id Hid. rewrite app_nil_r. auto.
  - assert (NoDup ((seen ++ [CORPORTAL_ROWID c]) ++ (CORPORTAL_ROWID <$> l))) as Hnd'
      by (rewrite <- app_assoc; exact Hnd).
    assert (CORPORTAL_ROWID c ∉ seen) as Hfresh.
    { apply NoDup_app in Hnd' as (Hnd' & _ & _).
      apply NoDup_app in Hnd' as (_ & Hnd' & _).
      intros Hin. apply (Hnd' _ Hin). by apply list_elem_of_singleton. }
    destruct (IH (step st c) (seen ++ [CORPORTAL_ROWID c]) Hnd') as [H1 H2].
    + destruct (Hstep st c) as [-> | Hp]; [done |].
      rewrite Hp. apply NoDup_cons; split; [| done].
      intros Hin. by apply Hfresh, Hsub.
    + intros id Hid. apply elem_of_app.
      destruct (Hstep st c) as [Heq | Hp].
      * rewrite Heq in Hid. left; auto.
      * rewrite Hp in Hid. apply elem_of_cons in Hid as [-> | Hid].
        -- right. by apply list_elem_of_singleton.
        -- left; auto.
    + split; [done |]. intros id Hid. apply H2 in Hid.
      by rewrite <- app_assoc in Hid.
Qed.

Lemma fmap_filter_ids (ids : gset string) (cs : list CorportalPayment) :
  CORPORTAL_ROWID <$> filter (λ p, CORPORTAL_ROWID p ∉ ids) cs
  = filter (λ id, id ∉ ids) (CORPORTAL_ROWID <$> cs).
Proof.
  induction cs as [| c cs IH]; [done |].
  rewrite fmap_cons, !filter_cons.
  destruct (decide (CORPORTAL_ROWID c ∉ ids)); by rewrite ?fmap_cons, IH.
Qed.

(** The state after the matching phases, with what it says about the
    intake rows. *)
Lemma intake_tracking env cs ps opts :
  NoDup (CORPORTAL_ROWID <$> cs) →
  let r := runResults env cs ps opts in
  NoDup (intakeIds r) ∧ (∀ id, id ∈ intakeIds r → id ∈ CORPORTAL_ROWID <$> cs).
Proof.
  intros Hnd. cbv zeta.
  change (intakeIds (runResults env cs ps opts))
    with (intakeIds (results (matchedRun env cs ps opts))).
  unfold matchedRun. cbv zeta.
  destruct (claims_foldl (exactStep (indexOf env ps) (daysTolerance opts))
              (exactStep_claims _ _) cs (initialRun env cs ps) [])
    as [Hn1 Hs1]; [done | constructor | by intros id Hid; apply elem_of_nil in Hid |].
  fold (exactPhase cs (indexOf env ps) (daysTolerance opts) (initialRun env cs ps)) in Hn1, Hs1.
  set (st1 := exactPhase cs (indexOf env ps) (daysTolerance opts) (initialRun env cs ps)) in *.
  destruct (includePartialMatches opts); [| done].
  pose proof (RunInv_exactPhase cs (indexOf env ps) (daysTolerance opts) _ (RunInv_initial env cs ps))
    as Hinv.
  fold st1 in Hinv.
  destruct (claims_foldl
              (fuzzyStep (filter (λ p, CCB_ROWID p ∉ matchedCCBIds st1) ps)
                         (amountTolerance opts) (daysTolerance opts))
              (fuzzyStep_claims _ _ _)
              (filter (λ p, CORPORTAL_ROWID p ∉ matchedCorportalIds st1) cs)
              st1 (intakeIds (results st1)))
    as [Hn2 Hs2]; [| done | done |].
  - apply NoDup_app. split; [done | split].
    + intros id Hid Hin. rewrite fmap_filter_ids in Hin.
      apply list_elem_of_filter in Hin as [Hin _]. apply Hin.
      apply (inv_corp_ids _ Hinv). unfold intakeIds in Hid.
      apply list_elem_of_fmap in Hid as (m & -> & Hm). by exists m.
    + rewrite fmap_filter_ids. by apply NoDup_filter.
  - split; [exact Hn2 |].
    intros id Hid. apply Hs2 in Hid. apply elem_of_app in Hid as [Hid | Hid]; [auto |].
    rewrite fmap_filter_ids in Hid. by apply list_elem_of_filter in Hid as [_ Hid].
Qed.

Lemma totals_foldl {A} (step : Run → A → Run) (f : Summary.t → Z) l :
  (∀ st x, f (summary (results (step st x))) = f (summary (results st))) →
  ∀ st, f (summary (results (foldl step st l))) = f (summary (results st)).
Proof.
  intros Hstep. induction l as [| x l IH]; intros st; simpl; [done |].
  by rewrite IH, Hstep.
Qed.

Lemma exactStep_total idx dt st c :
  Summary.totalCorportalPayments (summary (results (exactStep idx dt st c)))
  = Summary.totalCorportalPayments (summary (results st)).
Proof.
  unfold exactStep.
  destruct (exact idx !! exactKey c) as [ms |]; [| done].
  case_bool_decide; [| done].
  by destruct (findBestDateMatch c ms dt).
Qed.

Lemma fuzzyStep_total pool at_ dt st c :
  Summary.totalCorportalPayments (summary (results (fuzzyStep pool at_ dt st c)))
  = Summary.totalCorportalPayments (summary (results st)).
Proof.
  unfold fuzzyStep, fuzzyAccept.
  destruct (findFuzzyMatches c pool at_ dt) as [| best rest]; [done |].
  by destruct (0.8 <=? score best)%float.
Qed.

Lemma matchedRun_total env cs ps opts :
  Summary.totalCorportalPayments (summary (results (matchedRun env cs ps opts)))
  = Z.of_nat (length cs).
Proof.
  unfold matchedRun, fuzzyPhase, exactPhase. cbv zeta.
  destruct (includePartialMatches opts).
  - rewrite (totals_foldl _ Summary.totalCorportalPayments)
      by (intros; apply fuzzyStep_total).
    by rewrite (totals_foldl _ Summary.totalCorportalPayments)
      by (intros; apply exactStep_total).
  - by rewrite (totals_foldl _ Summary.totalCorportalPayments)
      by (intros; apply exactStep_total).
Qed.


Lemma filter_imap_all {A} (P : ExceptionRecord → Prop) `{∀ e, Decision (P e)}
    (f : nat → A → ExceptionRecord) (l : list A) :
  (∀ k p, P (f k p)) → filter P (imap f l) = imap f l.
Proof.
  intros Hf. revert f Hf. induction l as [| p l IH]; intros f Hf; [done |].
  cbn [imap]. rewrite filter_cons, decide_True by apply Hf.
  f_equal. apply IH. intros k q. apply Hf.
Qed.

Lemma filter_imap_none {A} (P : ExceptionRecord → Prop) `{∀ e, Decision (P e)}
    (f : nat → A → ExceptionRecord) (l : list A) :
  (∀ k p, ¬ P (f k p)) → filter P (imap f l) = [].
Proof.
  intros Hf. revert f Hf. induction l as [| p l IH]; intros f Hf; [done |].
  cbn [imap]. rewrite filter_cons, decide_False by apply Hf.
  apply IH. intros k q. apply Hf.
Qed.

Lemma unmatchedCorportal_count env cs ps st :
  length (filter (λ e, exc_type e = UNMATCHED_CORPORTAL) (finalExceptions env cs ps st))
  = length (filter (λ p, CORPORTAL_ROWID p ∉ matchedCorportalIds st) cs).
Proof.
  rewrite finalExceptions_unfold, filter_app, length_app.
  rewrite filter_imap_all by done.
  rewrite filter_imap_none by done.
  rewrite length_imap. simpl. lia.
Qed.

(** X1.  No intake row is claimed by two matches, and the intake side of the
    conservation equation holds, whenever the intake rows carry distinct
    row ids. *)
Lemma intake_rows_claimed_once_and_conserved env cs ps opts :
  NoDup (CORPORTAL_ROWID <$> cs) →
  afterRun env cs ps opts
    (λ r,
       NoDup (intakeIds r)
       ∧ (Z.of_nat (length (matches r)) + Z.of_nat (length (partialMatches r))
          + Summary.unmatchedCorportal (summary r)
          = Summary.totalCorportalPayments (summary r))%Z).
Proof.
  intros Hnd. run_returns. destruct (intake_tracking env cs ps opts Hnd) as [Hn Hsub].
  cbv zeta in Hn, Hsub. split; [done |].
  pose proof (RunInv_matchedRun env cs ps opts) as Hinv.
  pose proof (matchedRun_total env cs ps opts) as Htot.
  change (intakeIds (runResults env cs ps opts))
    with (intakeIds (results (matchedRun env cs ps opts))) in Hn, Hsub.
  change (matches (runResults env cs ps opts))
    with (matches (results (matchedRun env cs ps opts))).
  change (partialMatches (runResults env cs ps opts))
    with (partialMatches (results (matchedRun env cs ps opts))).
  change (Summary.totalCorportalPayments
            (summary (runResults env cs ps opts)))
    with (Summary.totalCorportalPayments (summary (results (matchedRun env cs ps opts)))).
  change (Summary.unmatchedCorportal
            (summary (runResults env cs ps opts)))
    with (Z.of_nat (length (filter (λ e, exc_type e = UNMATCHED_CORPORTAL)
                              (finalExceptions env cs ps (matchedRun env cs ps opts))))).
  set (st := matchedRun env cs ps opts) in *.
  rewrite unmatchedCorportal_count, Htot.
  pose proof (filter_app_complement
                (λ p, CORPORTAL_ROWID p ∉ matchedCorportalIds st) cs) as Hsplit.
  apply Permutation_length in Hsplit. rewrite length_app in Hsplit.
  assert (CORPORTAL_ROWID <$>
            filter (λ p, ¬ (CORPORTAL_ROWID p ∉ matchedCorportalIds st)) cs
          ≡ₚ intakeIds (results st)) as Hperm.
  { apply NoDup_Permutation; [| done |].
    - eapply sublist_NoDup; [exact Hnd |]. apply fmap_sublist, sublist_filter.
    - intros id. rewrite list_elem_of_fmap. split.
      + intros (p & -> & Hp). apply list_elem_of_filter in Hp as [Hp _].
        apply dec_stable in Hp. apply (inv_corp_ids _ Hinv) in Hp as (m & Hm & Heq).
        unfold intakeIds. apply list_elem_of_fmap. by exists m.
      + intros Hid. pose proof (Hsub _ Hid) as Hcs.
        apply list_elem_of_fmap in Hcs as (p & -> & Hp). exists p; split; [done |].
        apply list_elem_of_filter; split; [| done].
        intros Hno. apply Hno. apply (inv_corp_ids _ Hinv).
        unfold intakeIds in Hid. apply list_elem_of_fmap in Hid as (m & Hm1 & Hm2).
        by exists m. }
  apply Permutation_length in Hperm.
  unfold intakeIds in Hperm. rewrite !length_fmap, length_app in Hperm.
  lia.
Qed.

(** A run on which the hypothesis holds. *)
Lemma intake_rows_claimed_once_example :
  NoDup (CORPORTAL_ROWID <$> twin_intake)
  ∧ afterRun (clockFrom NOW) twin_intake [single_posting] defaultOptions
      (λ r,
         NoDup (intakeIds r)
         ∧ (Z.of_nat (length (matches r)) + Z.of_nat (length (partialMatches r))
            + Summary.unmatchedCorportal (summary r)
            = Summary.totalCorportalPayments (summary r))%Z).
Proof.
  assert (NoDup (CORPORTAL_ROWID <$> twin_intake)) as H
    by (apply (bool_decide_unpack _); vm_compute; exact I).
  split; [exact H |].
  exact (intake_rows_claimed_once_and_conserved (clockFrom NOW) twin_intake [single_posting]
           defaultOptions H).
Defined.

(** ** Integers as binary64 values *)

Module IntFloat.
Local Open Scope Z_scope.

Lemma digits2_shift p k :
  digits2_pos (Pos.iter xO p k) = (digits2_pos p + k)%positive.
Proof.
  induction k as [| k IH] using Pos.peano_ind.
  - simpl. lia.
  - rewrite Pos.iter_succ. simpl. rewrite IH. lia.
Qed.

(** The representation of a positive integer below 2^53: its bits moved
    up to fill the 53-bit mantissa. *)
Lemma binary_normalize_small p :
  Z.pos p < 2 ^ 53 →
  binary_normalize prec emax (Z.pos p) 0 false
  = S754_finite false
      (Z.to_pos (Z.pos p * 2 ^ (53 - Z.pos (digits2_pos p))))
      (Z.pos (digits2_pos p) - 53).
Proof.
  intros Hp. pose proof (FloatOrder.digits2_bounds p) as [Hlo Hhi].
  set (d := digits2_pos p) in *.
  assert (Z.pos d <= 53) as Hd.
  { destruct (Z.le_gt_cases (Z.pos d) 53) as [|H]; [done |].
    assert (2 ^ 53 <= 2 ^ (Z.pos d - 1)) by (apply Z.pow_le_mono_r; lia). lia. }
  unfold binary_normalize, binary_round.
  change (digits2_pos p) with d.
  assert (fexp prec emax (Z.pos d + 0) = Z.pos d - 53) as Hf
    by (unfold fexp, SpecFloat.emin, prec, emax; lia).
  rewrite Hf.
  assert (∃ mz, shl_align p 0 (Z.pos d - 53) = (mz, Z.pos d - 53)
                ∧ Z.pos mz = Z.pos p * 2 ^ (53 - Z.pos d)
                ∧ digits2_pos mz = 53%positive) as (mz & -> & Hmz & Hdm).
  { unfold shl_align. destruct (Z.pos d - 53 - 0) as [| q | q] eqn:E; try lia.
    - exists p. replace (Z.pos d - 53) with 0 by lia.
      replace (53 - Z.pos d) with 0 by lia. repeat split; [lia |].
      fold d. lia.
    - exists (Pos.iter xO p q). split; [done |]. split.
      + replace (53 - Z.pos d) with (Z.pos q) by lia.
        rewrite Z.mul_comm. exact (Zpower.shift_pos_correct q p).
      + rewrite digits2_shift. fold d. lia. }
  unfold binary_round_aux, shr_fexp. simpl Zdigits2. rewrite Hdm.
  assert (fexp prec emax (53 + (Z.pos d - 53)) - (Z.pos d - 53) = 0) as ->
    by (unfold fexp, SpecFloat.emin, prec, emax; lia).
  cbn [shr shr_record_of_loc shr_m loc_of_shr_record round_nearest_even Zdigits2].
  rewrite Hdm.
  assert (fexp prec emax (53 + (Z.pos d - 53)) - (Z.pos d - 53) = 0) as ->
    by (unfold fexp, SpecFloat.emin, prec, emax; lia).
  cbn [shr shr_record_of_loc shr_m].
  assert ((Z.pos d - 53 <=? emax - prec) = true) as ->
    by (apply Z.leb_le; unfold emax, prec; lia).
  f_equal. rewrite <- Hmz. by rewrite Pos2Z.id.
Qed.

Lemma of_Z_SF z :
  0 <= z < 2 ^ 53 →
  Prim2SF (JS.of_Z z) = binary_normalize prec emax z 0 false.
Proof.
  intros Hz. unfold JS.of_Z.
  destruct (z <? 0) eqn:E; [apply Z.ltb_lt in E; lia |].
  rewrite of_uint63_spec, Uint63.of_Z_spec.
  rewrite Z.mod_small; [done |].
  change Uint63.wB with (2 ^ 63). split; [lia |].
  assert (2 ^ 53 < 2 ^ 63) by (by vm_compute). lia.
Qed.

(** Where an integer below 2^53 sits in the order of the floats. *)
Lemma of_Z_rank z :
  0 <= z < 2 ^ 53 →
  fnum (JS.of_Z z)
  ∧ frank (JS.of_Z z)
    = match z with
      | Z.pos p => (1, Z.pos (digits2_pos p) - 53, z * 2 ^ (53 - Z.pos (digits2_pos p)))
      | _ => (0, 0, 0)
      end.
Proof.
  intros Hz. unfold fnum, frank. rewrite of_Z_SF by done.
  destruct z as [| p | p]; [done | | lia].
  rewrite binary_normalize_small by lia. split; [done |]. simpl rank.
  pose proof (FloatOrder.digits2_bounds p) as [Hlo Hhi].
  rewrite Z2Pos.id; [done |].
  apply Z.mul_pos_pos; [lia |]. apply Z.pow_pos_nonneg; [lia |].
  destruct (Z.le_gt_cases (Z.pos (digits2_pos p)) 53) as [|H]; [lia |].
  assert (2 ^ 53 <= 2 ^ (Z.pos (digits2_pos p) - 1)) by (apply Z.pow_le_mono_r; lia). lia.
Qed.

Lemma rank_lt_iff a b :
  0 <= a < 2 ^ 53 → 0 <= b < 2 ^ 53 →
  lex_lt (frank (JS.of_Z a)) (frank (JS.of_Z b)) ↔ a < b.
Proof.
  intros Ha Hb.
  destruct (of_Z_rank a Ha) as [_ ->], (of_Z_rank b Hb) as [_ ->].
  destruct a as [| p | p], b as [| q | q]; simpl; try lia.
  pose proof (FloatOrder.digits2_bounds p) as [Hplo Hphi].
  pose proof (FloatOrder.digits2_bounds q) as [Hqlo Hqhi].
  set (dp := Z.pos (digits2_pos p)) in *. set (dq := Z.pos (digits2_pos q)) in *.
  assert (dp <= 53 ∧ dq <= 53) as [Hdp Hdq].
  { split.
    - destruct (Z.le_gt_cases dp 53) as [|H]; [done |].
      assert (2 ^ 53 <= 2 ^ (dp - 1)) by (apply Z.pow_le_mono_r; lia). lia.
    - destruct (Z.le_gt_cases dq 53) as [|H]; [done |].
      assert (2 ^ 53 <= 2 ^ (dq - 1)) by (apply Z.pow_le_mono_r; lia). lia. }
  assert (dp < dq → Z.pos p < Z.pos q) as H1.
  { intros H. assert (2 ^ dp <= 2 ^ (dq - 1)) by (apply Z.pow_le_mono_r; lia). lia. }
  assert (dq < dp → Z.pos q < Z.pos p) as H2.
  { intros H. assert (2 ^ dq <= 2 ^ (dp - 1)) by (apply Z.pow_le_mono_r; lia). lia. }
  assert (0 < 2 ^ (53 - dp)) as Hk by (apply Z.pow_pos_nonneg; lia).
  destruct (Z.lt_total dp dq) as [H | [H | H]].
  - split; [intros _; auto | intros _; lia].
  - rewrite H in *. split; [nia | intros Hlt; right; split; [done |]; right; split; [done |]; nia].
  - split; [| intros Hlt; specialize (H2 H); lia].
    intros [Hc | [_ [Hc | [Hc _]]]]; lia.
Qed.

(** Integers below 2^53 compare as numbers the way they compare as
    integers. *)
Lemma of_Z_ltb a b :
  0 <= a < 2 ^ 53 → 0 <= b < 2 ^ 53 → (JS.of_Z a <? JS.of_Z b)%float = (a <? b).
Proof.
  intros Ha Hb. apply eq_true_iff_eq.
  rewrite FloatOrder.ltb_iff, Z.ltb_lt, <- (rank_lt_iff a b) by done.
  destruct (of_Z_rank a Ha) as [Hna _], (of_Z_rank b Hb) as [Hnb _]. tauto.
Qed.

Lemma of_Z_lt_infinity a : 0 <= a < 2 ^ 53 → (JS.of_Z a <? infinity)%float = true.
Proof.
  intros Ha. apply FloatOrder.ltb_iff.
  destruct (of_Z_rank a Ha) as [Hna ->].
  split; [done | split; [by vm_compute |]].
  change (frank infinity) with (2, 0, 0).
  destruct a; simpl; lia.
Qed.
End IntFloat.


(** ** The payment index *)

Lemma push_fold_lookup `{Countable K} {A} (key : A → K) (rows : list A)
    (m0 : gmap K (list A)) (k : K) :
  foldl (λ m x, push_at (key x) x m) m0 rows !! k
  = match filter (λ x, key x = k) rows with
    | [] => m0 !! k
    | l => Some (default [] (m0 !! k) ++ l)
    end.
Proof.
  revert m0. induction rows as [| x rows IH]; intros m0; [done |].
  cbn [foldl]. rewrite IH, filter_cons. unfold push_at.
  destruct (decide (key x = k)) as [-> | Hne].
  - rewrite lookup_insert_eq. simpl.
    destruct (filter _ rows); [done |]. by rewrite <- app_assoc.
  - by rewrite lookup_insert_ne.
Qed.

Lemma indexOf_lookup `{PaymentRow A} env (payments : list A) :
  (∀ k, exact (indexOf env payments) !! k = bucketOf exactKey k payments)
  ∧ (∀ k, byConsumer (indexOf env payments) !! k = bucketOf CONSUMER_ID k payments)
  ∧ (∀ k, byAmount (indexOf env payments) !! k
          = bucketOf (λ x, JS.Number_toString (JS.Math_round (JS.parseFloat (AMOUNT x))))
                     k payments)
  ∧ (∀ k, byDate (indexOf env payments) !! k
          = bucketOf (λ x, moment_format_date env (PAYMENT_DATE_or_POSTING_DATE x))
                     k payments).
Proof.
  unfold bucketOf, indexOf. cbn [exact byConsumer byAmount byDate].
  repeat split; intros k; rewrite push_fold_lookup, lookup_empty; by destruct (filter _ _).
Qed.



(** ** The closest posting date *)

Lemma dayDistance_small i p :
  validDate (PAYMENT_DATE i) → validDate (POSTING_DATE p) →
  (0 <= dayDistance i p < 2 ^ 53)%Z.
Proof.
  unfold validDate, dayDistance, moment_diff_days, MS_PER_DAY. intros Hi Hp.
  split; [lia |].
  assert (Z.abs (Z.quot (PAYMENT_DATE i - POSTING_DATE p) 86400000) <= 200000000)%Z as H.
  { rewrite <- Z.quot_abs by lia. change (Z.abs 86400000) with 86400000%Z.
    apply Z.quot_le_upper_bound; lia. }
  assert (2 ^ 53 = 9007199254740992)%Z by (by vm_compute). lia.
Qed.

(** The state of the scan in [findBestDateMatch] after a prefix of the
    candidates. *)
Lemma findBestDateMatch_scan i tol rest :
  validDate (PAYMENT_DATE i) →
  Forall (λ p, validDate (POSTING_DATE p)) rest →
  ∀ seen best smallest,
    match best with
    | None => smallest = infinity ∧ ∀ c, c ∈ seen → ¬ withinDays tol i c
    | Some b =>
        smallest = JS.of_Z (dayDistance i b)
        ∧ validDate (POSTING_DATE b) ∧ withinDays tol i b
        ∧ ∃ l1 l2, seen = l1 ++ b :: l2
            ∧ (∀ c, c ∈ l1 → withinDays tol i c → (dayDistance i b < dayDistance i c)%Z)
            ∧ (∀ c, c ∈ l2 → withinDays tol i c → (dayDistance i b <= dayDistance i c)%Z)
    end →
    match fst (foldl
                 (λ '(bestMatch, smallestDateDiff) ccbPayment,
                    let ccbDate := POSTING_DATE ccbPayment in
                    let daysDiff :=
                      JS.of_Z (Z.abs (moment_diff_days (PAYMENT_DATE i) ccbDate)) in
                    if (daysDiff <=? tol)%float && (daysDiff <? smallestDateDiff)%float
                    then (Some ccbPayment, daysDiff)
                    else (bestMatch, smallestDateDiff))
                 (best, smallest) rest) with
    | None => ∀ c, c ∈ seen ++ rest → ¬ withinDays tol i c
    | Some b =>
        withinDays tol i b
        ∧ ∃ l1 l2, seen ++ rest = l1 ++ b :: l2
            ∧ (∀ c, c ∈ l1 → withinDays tol i c → (dayDistance i b < dayDistance i c)%Z)
            ∧ (∀ c, c ∈ l2 → withinDays tol i c → (dayDistance i b <= dayDistance i c)%Z)
    end.
Proof.
  intros Hi Hrest. induction Hrest as [| c rest Hc Hrest IH]; intros seen best smallest Hinv.
  - cbn [foldl fst]. rewrite app_nil_r.
    destruct best as [b |]; [| by destruct Hinv].
    destruct Hinv as (_ & _ & Hb & Hsplit). auto.
  - cbn [foldl]. cbv zeta.
    change (Z.abs (moment_diff_days (PAYMENT_DATE i) (POSTING_DATE c)))
      with (dayDistance i c).
    replace (seen ++ c :: rest) with ((seen ++ [c]) ++ rest) by (by rewrite <- app_assoc).
    pose proof (dayDistance_small i c Hi Hc) as Hdc.
    destruct (JS.of_Z (dayDistance i c) <=? tol)%float eqn:Ew; cbn [andb].
    + destruct best as [b |].
      * destruct Hinv as (-> & Hvb & Hb & l1 & l2 & -> & H1 & H2).
        pose proof (dayDistance_small i b Hi Hvb) as Hdb.
        rewrite IntFloat.of_Z_ltb by done.
        destruct (dayDistance i c <? dayDistance i b)%Z eqn:El.
        -- apply Z.ltb_lt in El. apply IH.
           split; [done | split; [done | split; [done |]]].
           exists (l1 ++ b :: l2), []. split; [done |]. split.
           ++ intros x Hx Hwx. apply elem_of_app in Hx as [Hx | Hx].
              ** specialize (H1 x Hx Hwx). lia.
              ** apply elem_of_cons in Hx as [-> | Hx]; [lia |].
                 specialize (H2 x Hx Hwx). lia.
           ++ intros x Hx. by apply elem_of_nil in Hx.
        -- apply Z.ltb_ge in El. apply IH.
           split; [done | split; [done | split; [done |]]].
           exists l1, (l2 ++ [c]). split; [by rewrite <- !app_assoc |]. split; [done |].
           intros x Hx Hwx. apply elem_of_app in Hx as [Hx | Hx]; [auto |].
           apply list_elem_of_singleton in Hx as ->. done.
      * destruct Hinv as (-> & Hnone).
        rewrite IntFloat.of_Z_lt_infinity by done.
        apply IH. split; [done | split; [done | split; [done |]]].
        exists seen, []. split; [done |]. split.
        -- intros x Hx Hwx. by destruct (Hnone x Hx).
        -- intros x Hx. by apply elem_of_nil in Hx.
    + apply IH. destruct best as [b |].
      * destruct Hinv as (-> & Hvb & Hb & l1 & l2 & -> & H1 & H2).
        split; [done | split; [done | split; [done |]]].
        exists l1, (l2 ++ [c]). split; [by rewrite <- !app_assoc |]. split; [done |].
        intros x Hx Hwx. apply elem_of_app in Hx as [Hx | Hx]; [auto |].
        apply list_elem_of_singleton in Hx as ->.
        unfold withinDays in Hwx. congruence.
      * destruct Hinv as (-> & Hnone). split; [done |].
        intros x Hx. apply elem_of_app in Hx as [Hx | Hx]; [auto |].
        apply list_elem_of_singleton in Hx as ->.
        unfold withinDays. congruence.
Qed.

(** X3.  [findBestDateMatch] returns the candidate closest in whole days among
    those within the tolerance, the earliest of them on a tie, and nothing
    exactly when no candidate is within the tolerance. *)
Theorem findBestDateMatch_closest i ccbMatches tol :
  validDate (PAYMENT_DATE i) →
  Forall (λ p, validDate (POSTING_DATE p)) ccbMatches →
  match findBestDateMatch i ccbMatches tol with
  | None => ∀ c, c ∈ ccbMatches → ¬ withinDays tol i c
  | Some b =>
      withinDays tol i b
      ∧ ∃ l1 l2, ccbMatches = l1 ++ b :: l2
          ∧ (∀ c, c ∈ l1 → withinDays tol i c → (dayDistance i b < dayDistance i c)%Z)
          ∧ (∀ c, c ∈ l2 → withinDays tol i c → (dayDistance i b <= dayDistance i c)%Z)
  end.
Proof.
  intros Hi Hl.
  apply (findBestDateMatch_scan i tol ccbMatches Hi Hl [] None infinity).
  split; [done |]. intros c Hc. by apply elem_of_nil in Hc.
Qed.

(** A list of candidates on which the hypotheses hold: the second and the
    third are equally close, and the second is returned. *)
Lemma findBestDateMatch_closest_example :
  validDate (PAYMENT_DATE scenario_intake)
  ∧ Forall (λ p, validDate (POSTING_DATE p))
           [ccb "P1" "C1" "BBPS" 1000 (DAY0 + 2 * MS_PER_DAY);
            ccb "P2" "C1" "BBPS" 1000 (DAY0 + MS_PER_DAY);
            ccb "P3" "C1" "BBPS" 1000 (DAY0 - MS_PER_DAY)]
  ∧ match findBestDateMatch scenario_intake
            [ccb "P1" "C1" "BBPS" 1000 (DAY0 + 2 * MS_PER_DAY);
             ccb "P2" "C1" "BBPS" 1000 (DAY0 + MS_PER_DAY);
             ccb "P3" "C1" "BBPS" 1000 (DAY0 - MS_PER_DAY)] 2 with
    | None => ∀ c, c ∈ [ccb "P1" "C1" "BBPS" 1000 (DAY0 + 2 * MS_PER_DAY);
                        ccb "P2" "C1" "BBPS" 1000 (DAY0 + MS_PER_DAY);
                        ccb "P3" "C1" "BBPS" 1000 (DAY0 - MS_PER_DAY)] →
                   ¬ withinDays 2 scenario_intake c
    | Some b =>
        withinDays 2 scenario_intake b
        ∧ ∃ l1 l2, [ccb "P1" "C1" "BBPS" 1000 (DAY0 + 2 * MS_PER_DAY);
                    ccb "P2" "C1" "BBPS" 1000 (DAY0 + MS_PER_DAY);
                    ccb "P3" "C1" "BBPS" 1000 (DAY0 - MS_PER_DAY)] = l1 ++ b :: l2
            ∧ (∀ c, c ∈ l1 → withinDays 2 scenario_intake c →
                    (dayDistance scenario_intake b < dayDistance scenario_intake c)%Z)
            ∧ (∀ c, c ∈ l2 → withinDays 2 scenario_intake c →
                    (dayDistance scenario_intake b <= dayDistance scenario_intake c)%Z)
    end.
Proof.
  assert (validDate (PAYMENT_DATE scenario_intake)) as H1
    by (unfold validDate; simpl; unfold DAY0; lia).
  assert (Forall (λ p, validDate (POSTING_DATE p))
            [ccb "P1" "C1" "BBPS" 1000 (DAY0 + 2 * MS_PER_DAY);
             ccb "P2" "C1" "BBPS" 1000 (DAY0 + MS_PER_DAY);
             ccb "P3" "C1" "BBPS" 1000 (DAY0 - MS_PER_DAY)]) as H2
    by (repeat constructor; unfold validDate; simpl; unfold DAY0, MS_PER_DAY; lia).
  split; [exact H1 | split; [exact H2 |]].
  exact (findBestDateMatch_closest scenario_intake _ 2 H1 H2).
Defined.

Lemma findBestDateMatch_in i ccbMatches tol b :
  findBestDateMatch i ccbMatches tol = Some b → b ∈ ccbMatches ∧ withinDays tol i b.
Proof.
  unfold findBestDateMatch. cbv zeta.
  assert (∀ l best (smallest : float),
            (∀ x, best = Some x → x ∈ ccbMatches ∧ withinDays tol i x) →
            (∀ x, x ∈ l → x ∈ ccbMatches) →
            fst (foldl
                   (λ '(bestMatch, smallestDateDiff) ccbPayment,
                      if (JS.of_Z (Z.abs (moment_diff_days (PAYMENT_DATE i)
                                            (POSTING_DATE ccbPayment))) <=? tol)%float
                         && (JS.of_Z (Z.abs (moment_diff_days (PAYMENT_DATE i)
                                               (POSTING_DATE ccbPayment)))
                             <? smallestDateDiff)%float
                      then (Some ccbPayment,
                            JS.of_Z (Z.abs (moment_diff_days (PAYMENT_DATE i)
                                              (POSTING_DATE ccbPayment))))
                      else (bestMatch, smallestDateDiff))
                   (best, smallest) l) = Some b →
            b ∈ ccbMatches ∧ withinDays tol i b) as Hgen.
  { induction l as [| c l IH]; intros best smallest Hbest Hl; cbn [foldl fst].
    - intros ->. by apply Hbest.
    - destruct (JS.of_Z _ <=? tol)%float eqn:Ew; cbn [andb].
      + destruct (JS.of_Z _ <? smallest)%float.
        * apply IH.
          -- intros x [= <-]. split; [apply Hl; left | exact Ew].
          -- intros x Hx. apply Hl. by right.
        * apply IH; [done |]. intros x Hx. apply Hl. by right.
      + apply IH; [done |]. intros x Hx. apply Hl. by right. }
  apply Hgen; [done | done].
Qed.

Lemma findBestDateMatch_found i ccbMatches tol c :
  validDate (PAYMENT_DATE i) →
  Forall (λ p, validDate (POSTING_DATE p)) ccbMatches →
  c ∈ ccbMatches → withinDays tol i c →
  is_Some (findBestDateMatch i ccbMatches tol).
Proof.
  intros Hi Hl Hc Hw.
  assert (match findBestDateMatch i ccbMatches tol with
          | None => ∀ c, c ∈ ccbMatches → ¬ withinDays tol i c
          | Some _ => True
          end) as H.
  { pose proof (findBestDateMatch_scan i tol ccbMatches Hi Hl [] None infinity) as H.
    unfold findBestDateMatch. cbv zeta.
    destruct (fst _) as [b |]; [done |].
    apply H. split; [done |]. intros x Hx. by apply elem_of_nil in Hx. }
  destruct (findBestDateMatch i ccbMatches tol) as [b |]; [by exists b |].
  by destruct (H c Hc).
Qed.

(** ** What the run writes into [results.matches] *)

Lemma exact_bucket env (ps : list CCBPayment) k ms :
  exact (indexOf env ps) !! k = Some ms →
  ms = filter (λ x, exactKey x = k) ps.
Proof.
  destruct (indexOf_lookup env ps) as (-> & _). unfold bucketOf.
  destruct (filter _ ps); [done |]. by intros [= <-].
Qed.

Lemma foldl_invariant_in {A S} (P : S → Prop) (step : S → A → S) (dom l : list A) :
  (∀ st x, x ∈ dom → P st → P (step st x)) →
  (∀ x, x ∈ l → x ∈ dom) →
  ∀ st, P st → P (foldl step st l).
Proof.
  intros Hstep. induction l as [| x l IH]; intros Hl st Hst; simpl; [done |].
  apply IH.
  - intros y Hy. apply Hl. by right.
  - apply Hstep; [apply Hl; by left | done].
Qed.

Lemma exactStep_sound env cs ps dt st c :
  c ∈ cs →
  Forall (exactSound cs ps dt) (matches (results st)) →
  Forall (exactSound cs ps dt) (matches (results (exactStep (indexOf env ps) dt st c))).
Proof.
  intros Hc Hst. unfold exactStep.
  destruct (exact (indexOf env ps) !! exactKey c) as [ms |] eqn:Hms; [| done].
  case_bool_decide; [| done].
  destruct (findBestDateMatch c ms dt) as [b |] eqn:Hb; [| done].
  apply exact_bucket in Hms. apply findBestDateMatch_in in Hb as [Hin Hw].
  rewrite Hms in Hin. apply list_elem_of_filter in Hin as [Hk Hin].
  simpl. apply Forall_app; split; [done |]. apply Forall_singleton.
  by repeat split.
Qed.

Lemma fuzzyStep_matches pool at_ dt st c :
  matches (results (fuzzyStep pool at_ dt st c)) = matches (results st).
Proof.
  unfold fuzzyStep, fuzzyAccept.
  destruct (findFuzzyMatches c pool at_ dt) as [| best rest]; [done |].
  by destruct (0.8 <=? score best)%float.
Qed.

Lemma fuzzyPhase_matches cs ps at_ dt st :
  matches (results (fuzzyPhase cs ps at_ dt st)) = matches (results st).
Proof.
  unfold fuzzyPhase. cbv zeta.
  generalize (filter (λ p, CORPORTAL_ROWID p ∉ matchedCorportalIds st) cs).
  generalize (filter (λ p, CCB_ROWID p ∉ matchedCCBIds st) ps).
  intros pool l. revert st.
  induction l as [| c l IH]; intros st; simpl; [done |].
  by rewrite IH, fuzzyStep_matches.
Qed.

Lemma exactPhase_sound env cs ps dt :
  Forall (exactSound cs ps dt)
         (matches (results (exactPhase cs (indexOf env ps) dt (initialRun env cs ps)))).
Proof.
  unfold exactPhase. cbv zeta.
  apply (foldl_invariant_in
           (λ st, Forall (exactSound cs ps dt) (matches (results st)))
           _ cs cs); [| done | constructor].
  intros st c Hc Hst. by apply exactStep_sound.
Qed.

Lemma matchedRun_exact_sound env cs ps opts :
  Forall (exactSound cs ps (daysTolerance opts))
         (matches (results (matchedRun env cs ps opts))).
Proof.
  unfold matchedRun. cbv zeta.
  destruct (includePartialMatches opts).
  - rewrite fuzzyPhase_matches. apply exactPhase_sound.
  - apply exactPhase_sound.
Qed.

(** X4.  Every entry of [results.matches] is an exact match of an intake row
    and a posting row of the inputs that have the same composite key
    string (consumer, text of the amount and payment mode joined by
    hyphens), and whose dates are within the day tolerance. *)
Theorem exact_matches_sound env cs ps opts :
  afterRun env cs ps opts (λ r, Forall (exactSound cs ps (daysTolerance opts)) (matches r)).
Proof. run_returns. apply matchedRun_exact_sound. Qed.

(** ** What the run writes into [results.partialMatches] *)

Lemma exactStep_partialMatches idx dt st c :
  partialMatches (results (exactStep idx dt st c)) = partialMatches (results st).
Proof.
  unfold exactStep.
  destruct (exact idx !! exactKey c) as [ms |]; [| done].
  case_bool_decide; [| done].
  by destruct (findBestDateMatch c ms dt).
Qed.

Lemma exactPhase_partialMatches cs idx dt st :
  partialMatches (results (exactPhase cs idx dt st)) = partialMatches (results st).
Proof.
  unfold exactPhase.
  revert st. induction cs as [| c cs IH]; intros st; simpl; [done |].
  by rewrite IH, exactStep_partialMatches.
Qed.

Lemma findFuzzyMatches_candidate i pool at_ dt best :
  best ∈ findFuzzyMatches i pool at_ dt →
  ∃ q, q ∈ pool ∧ best = scoreCandidate i at_ dt q.
Proof.
  rewrite findFuzzyMatches_unfold, Array_sort_perm.
  intros [_ Hin]%list_elem_of_filter.
  apply list_elem_of_fmap in Hin as (q & -> & Hq). by exists q.
Qed.

Lemma fuzzyStep_sound cs ps at_ dt (cids pids : gset string) pool st c :
  c ∈ cs → (CORPORTAL_ROWID c ∉ cids) →
  (∀ q, q ∈ pool → q ∈ ps ∧ (CCB_ROWID q ∉ pids)) →
  Forall (λ m, fuzzySound cs ps at_ dt m ∧ leftOver cids pids m)
         (partialMatches (results st)) →
  Forall (λ m, fuzzySound cs ps at_ dt m ∧ leftOver cids pids m)
         (partialMatches (results (fuzzyStep pool at_ dt st c))).
Proof.
  intros Hc Hcid Hpool Hst. unfold fuzzyStep, fuzzyAccept.
  destruct (findFuzzyMatches c pool at_ dt) as [| best rest] eqn:Hf; [done |].
  destruct (0.8 <=? score best)%float eqn:Hs; [| done].
  destruct (findFuzzyMatches_candidate c pool at_ dt best) as (q & Hq & ->);
    [rewrite Hf; by left |].
  destruct (Hpool q Hq) as [Hqps Hqid].
  simpl. apply Forall_app; split; [done |]. apply Forall_singleton.
  by repeat split.
Qed.

Lemma fuzzyPhase_sound cs ps at_ dt st :
  Forall (λ m, fuzzySound cs ps at_ dt m
               ∧ leftOver (matchedCorportalIds st) (matchedCCBIds st) m)
         (partialMatches (results st)) →
  Forall (λ m, fuzzySound cs ps at_ dt m
               ∧ leftOver (matchedCorportalIds st) (matchedCCBIds st) m)
         (partialMatches (results (fuzzyPhase cs ps at_ dt st))).
Proof.
  intros Hst. unfold fuzzyPhase. cbv zeta.
  apply (foldl_invariant_in
           (λ st', Forall (λ m, fuzzySound cs ps at_ dt m
                                ∧ leftOver (matchedCorportalIds st) (matchedCCBIds st) m)
                          (partialMatches (results st')))
           _ (filter (λ p, CORPORTAL_ROWID p ∉ matchedCorportalIds st) cs)); [| done | done].
  intros st' c [Hid Hc]%list_elem_of_filter Hst'.
  apply fuzzyStep_sound; [done | done | | done].
  intros q [Hqid Hq]%list_elem_of_filter. done.
Qed.

Lemma matchedRun_partial_sound env cs ps opts :
  let st1 := exactPhase cs (indexOf env ps) (daysTolerance opts) (initialRun env cs ps) in
  Forall (λ m, fuzzySound cs ps (amountTolerance opts) (daysTolerance opts) m
               ∧ leftOver (matchedCorportalIds st1) (matchedCCBIds st1) m)
         (partialMatches (results (matchedRun env cs ps opts))).
Proof.
  cbv zeta. unfold matchedRun. cbv zeta.
  assert (partialMatches
            (results (exactPhase cs (indexOf env ps) (daysTolerance opts) (initialRun env cs ps))) = [])
    as Hnil by apply exactPhase_partialMatches.
  destruct (includePartialMatches opts).
  - apply fuzzyPhase_sound. rewrite Hnil. constructor.
  - rewrite Hnil. constructor.
Qed.

(** X5.  Every entry of [results.partialMatches] pairs an intake row and a
    posting row of the inputs, is the entry written for the candidate
    that [findFuzzyMatches] scores for this pair, and has a score of at
    least 0.8. *)
Theorem partial_matches_sound env cs ps opts :
  afterRun env cs ps opts
    (λ r, Forall (fuzzySound cs ps (amountTolerance opts) (daysTolerance opts))
                 (partialMatches r)).
Proof.
  run_returns.
  change (partialMatches (runResults env cs ps opts))
    with (partialMatches (results (matchedRun env cs ps opts))).
  eapply Forall_impl; [apply matchedRun_partial_sound |].
  by intros m [Hm _].
Qed.

(** X6.  A fuzzy match never reuses a row of an exact match: no entry of
    [results.partialMatches] has its intake row id or its posting row id
    in common with an entry of [results.matches]. *)
Theorem exact_and_partial_matches_share_no_row env cs ps opts :
  afterRun env cs ps opts
    (λ r, Forall (λ m, Forall (sharesNoRow m) (matches r)) (partialMatches r)).
Proof.
  run_returns.
  change (partialMatches (runResults env cs ps opts))
    with (partialMatches (results (matchedRun env cs ps opts))).
  assert (matches (runResults env cs ps opts)
          = matches (results (exactPhase cs (indexOf env ps) (daysTolerance opts)
                                         (initialRun env cs ps)))) as ->.
  { change (matches (runResults env cs ps opts))
      with (matches (results (matchedRun env cs ps opts))).
    unfold matchedRun. cbv zeta.
    destruct (includePartialMatches opts); [apply fuzzyPhase_matches | done]. }
  pose proof (RunInv_exactPhase cs (indexOf env ps) (daysTolerance opts) _ (RunInv_initial env cs ps))
    as Hinv.
  eapply Forall_impl; [apply matchedRun_partial_sound |].
  intros m [_ [Hc Hp]]. apply Forall_forall. intros e He. split.
  - intros Heq. apply Hc. apply (inv_corp_ids _ Hinv). exists e.
    split; [apply elem_of_app; by left | done].
  - intros Heq. apply Hp. apply (inv_ccb_ids _ Hinv). exists e.
    split; [apply elem_of_app; by left | done].
Qed.

(** ** Exceptions *)

Lemma finalExceptions_intake env cs ps st p :
  (∃ e, e ∈ finalExceptions env cs ps st ∧ exc_payment e = inl p)
  ↔ p ∈ cs ∧ CORPORTAL_ROWID p ∉ matchedCorportalIds st.
Proof.
  split.
  - intros (e & He & Hp).
    apply finalExceptions_elem in He as [(k & x & Hx & Hid & ->) | (n & x & _ & _ & ->)];
      [| done].
    by injection Hp as ->.
  - intros [Hp Hid].
    destruct (finalExceptions_has_intake env cs ps st p Hp Hid) as [k Hk].
    by exists (intakeException env k p).
Qed.

Lemma finalExceptions_posting env cs ps st q :
  (∃ e, e ∈ finalExceptions env cs ps st ∧ exc_payment e = inr q)
  ↔ q ∈ ps ∧ CCB_ROWID q ∉ matchedCCBIds st.
Proof.
  split.
  - intros (e & He & Hp).
    apply finalExceptions_elem in He as [(k & x & _ & _ & ->) | (n & x & Hx & Hid & ->)];
      [done |].
    by injection Hp as ->.
  - intros [Hq Hid].
    destruct (finalExceptions_has_posting env cs ps st q Hq Hid) as [n Hn].
    by exists (postingException env n q).
Qed.

(** X7.  Every input row is accounted for: a row is reported in
    [results.exceptions] exactly when it is a row of the inputs whose row
    id occurs in no match, exact or fuzzy.  This holds on both sides and
    for all options. *)
Theorem exceptions_are_the_unclaimed_rows env cs ps opts :
  afterRun env cs ps opts
    (λ r,
       (∀ p, (∃ e, e ∈ exceptions r ∧ exc_payment e = inl p)
             ↔ p ∈ cs ∧ CORPORTAL_ROWID p ∉ intakeIds r)
       ∧ (∀ q, (∃ e, e ∈ exceptions r ∧ exc_payment e = inr q)
             ↔ q ∈ ps ∧ CCB_ROWID q ∉ postingIds r)).
Proof.
  run_returns.
  change (exceptions (runResults env cs ps opts))
    with (finalExceptions env cs ps (matchedRun env cs ps opts)).
  change (intakeIds (runResults env cs ps opts))
    with (intakeIds (results (matchedRun env cs ps opts))).
  change (postingIds (runResults env cs ps opts))
    with (postingIds (results (matchedRun env cs ps opts))).
  pose proof (RunInv_matchedRun env cs ps opts) as Hinv.
  split.
  - intros p. rewrite finalExceptions_intake.
    by rewrite (claimed_intake_ids _ (CORPORTAL_ROWID p) Hinv).
  - intros q. rewrite finalExceptions_posting.
    by rewrite (claimed_posting_ids _ (CCB_ROWID q) Hinv).
Qed.

(** ** The posting side of the totals *)

Lemma exactStep_totalCCB idx dt st c :
  Summary.totalCCBPayments (summary (results (exactStep idx dt st c)))
  = Summary.totalCCBPayments (summary (results st)).
Proof.
  unfold exactStep.
  destruct (exact idx !! exactKey c) as [ms |]; [| done].
  case_bool_decide; [| done].
  by destruct (findBestDateMatch c ms dt).
Qed.

Lemma fuzzyStep_totalCCB pool at_ dt st c :
  Summary.totalCCBPayments (summary (results (fuzzyStep pool at_ dt st c)))
  = Summary.totalCCBPayments (summary (results st)).
Proof.
  unfold fuzzyStep, fuzzyAccept.
  destruct (findFuzzyMatches c pool at_ dt) as [| best rest]; [done |].
  by destruct (0.8 <=? score best)%float.
Qed.

Lemma matchedRun_totalCCB env cs ps opts :
  Summary.totalCCBPayments (summary (results (matchedRun env cs ps opts)))
  = Z.of_nat (length ps).
Proof.
  unfold matchedRun, fuzzyPhase, exactPhase. cbv zeta.
  destruct (includePartialMatches opts).
  - rewrite (totals_foldl _ Summary.totalCCBPayments)
      by (intros; apply fuzzyStep_totalCCB).
    by rewrite (totals_foldl _ Summary.totalCCBPayments)
      by (intros; apply exactStep_totalCCB).
  - by rewrite (totals_foldl _ Summary.totalCCBPayments)
      by (intros; apply exactStep_totalCCB).
Qed.

Lemma unmatchedCCB_count env cs ps st :
  length (filter (λ e, exc_type e = UNMATCHED_CCB) (finalExceptions env cs ps st))
  = length (filter (λ p, CCB_ROWID p ∉ matchedCCBIds st) ps).
Proof.
  rewrite finalExceptions_unfold, filter_app, length_app.
  rewrite filter_imap_none by done.
  rewrite filter_imap_all by done.
  by rewrite length_imap.
Qed.

Lemma remove_dups_length `{EqDecision A} (l : list A) :
  (length (remove_dups l) <= length l)%nat.
Proof.
  induction l as [| x l IH]; simpl; [done |].
  destruct (decide_rel elem_of x l); simpl; lia.
Qed.

Lemma postingIds_from_inputs env cs ps opts id :
  id ∈ postingIds (results (matchedRun env cs ps opts)) → id ∈ CCB_ROWID <$> ps.
Proof.
  unfold postingIds. intros (m & -> & Hm)%list_elem_of_fmap.
  apply list_elem_of_fmap. exists (ccbPayment m). split; [done |].
  apply elem_of_app in Hm as [Hm | Hm].
  - pose proof (matchedRun_exact_sound env cs ps opts) as Hs.
    rewrite Forall_forall in Hs. by destruct (Hs m Hm) as (_ & _ & ? & _).
  - pose proof (matchedRun_partial_sound env cs ps opts) as Hs. cbv zeta in Hs.
    rewrite Forall_forall in Hs. by destruct (Hs m Hm) as ((_ & ? & _) & _).
Qed.

(** X8.  The posting side of the conservation equation in the form that the
    run keeps: when the posting rows carry distinct row ids, the posting
    rows split into those reported as unmatched and those whose row id
    occurs in a match, each counted once.  As one posting row can occur
    in several matches, the entries of the two match lists together with
    the unmatched posting rows can only exceed the posting total. *)
Theorem posting_rows_conserved_by_distinct_ids env cs ps opts :
  NoDup (CCB_ROWID <$> ps) →
  afterRun env cs ps opts
    (λ r,
       (Z.of_nat (length (remove_dups (postingIds r))) + Summary.unmatchedCCB (summary r)
        = Summary.totalCCBPayments (summary r))%Z
       ∧ (Summary.totalCCBPayments (summary r)
          <= Z.of_nat (length (matches r)) + Z.of_nat (length (partialMatches r))
             + Summary.unmatchedCCB (summary r))%Z).
Proof.
  intros Hnd. run_returns.
  pose proof (RunInv_matchedRun env cs ps opts) as Hinv.
  pose proof (matchedRun_totalCCB env cs ps opts) as Htot.
  pose proof (postingIds_from_inputs env cs ps opts) as Hsub.
  change (postingIds (runResults env cs ps opts))
    with (postingIds (results (matchedRun env cs ps opts))).
  change (matches (runResults env cs ps opts))
    with (matches (results (matchedRun env cs ps opts))).
  change (partialMatches (runResults env cs ps opts))
    with (partialMatches (results (matchedRun env cs ps opts))).
  change (Summary.totalCCBPayments
            (summary (runResults env cs ps opts)))
    with (Summary.totalCCBPayments (summary (results (matchedRun env cs ps opts)))).
  change (Summary.unmatchedCCB
            (summary (runResults env cs ps opts)))
    with (Z.of_nat (length (filter (λ e, exc_type e = UNMATCHED_CCB)
                              (finalExceptions env cs ps (matchedRun env cs ps opts))))).
  set (st := matchedRun env cs ps opts) in *.
  rewrite unmatchedCCB_count, Htot.
  pose proof (filter_app_complement (λ p, CCB_ROWID p ∉ matchedCCBIds st) ps) as Hsplit.
  apply Permutation_length in Hsplit. rewrite length_app in Hsplit.
  assert (CCB_ROWID <$> filter (λ p, ¬ (CCB_ROWID p ∉ matchedCCBIds st)) ps
          ≡ₚ remove_dups (postingIds (results st))) as Hperm.
  { apply NoDup_Permutation; [| apply NoDup_remove_dups |].
    - eapply sublist_NoDup; [exact Hnd |]. apply fmap_sublist, sublist_filter.
    - intros id. rewrite elem_of_remove_dups, list_elem_of_fmap. split.
      + intros (p & -> & Hp). apply list_elem_of_filter in Hp as [Hp _].
        apply dec_stable in Hp. by apply claimed_posting_ids in Hp.
      + intros Hid. pose proof (Hsub _ Hid) as Hps.
        apply list_elem_of_fmap in Hps as (p & -> & Hp). exists p; split; [done |].
        apply list_elem_of_filter; split; [| done].
        intros Hno. apply Hno. by apply claimed_posting_ids. }
  apply Permutation_length in Hperm. rewrite length_fmap in Hperm.
  pose proof (remove_dups_length (postingIds (results st))) as Hle.
  unfold postingIds in Hle at 2. rewrite length_fmap, length_app in Hle.
  lia.
Qed.

(** A run on which the hypothesis holds: the single posting row is in two
    matches and is counted once. *)
Lemma posting_rows_conserved_example :
  NoDup (CCB_ROWID <$> [single_posting])
  ∧ afterRun (clockFrom NOW) twin_intake [single_posting] defaultOptions
      (λ r,
         (Z.of_nat (length (remove_dups (postingIds r))) + Summary.unmatchedCCB (summary r)
          = Summary.totalCCBPayments (summary r))%Z
         ∧ (Summary.totalCCBPayments (summary r)
            <= Z.of_nat (length (matches r)) + Z.of_nat (length (partialMatches r))
               + Summary.unmatchedCCB (summary r))%Z).
Proof.
  assert (NoDup (CCB_ROWID <$> [single_posting])) as H
    by (apply (bool_decide_unpack _); vm_compute; exact I).
  split; [exact H |].
  exact (posting_rows_conserved_by_distinct_ids (clockFrom NOW) twin_intake [single_posting]
           defaultOptions H).
Defined.

(** ** Exceptions that require action *)

Lemma imap_pair_fmap {A B} (f : nat → A → B) (l : list A) :
  imap f l = (λ kp, f kp.1 kp.2) <$> imap pair l.
Proof. by rewrite fmap_imap. Qed.

Lemma filter_fmap_length {A B} (f : A → B) (P : B → Prop) `{∀ b, Decision (P b)}
    (Q : A → Prop) `{∀ a, Decision (Q a)} (l : list A) :
  (∀ a, P (f a) ↔ Q a) → length (filter P (f <$> l)) = length (filter Q l).
Proof.
  intros HPQ. induction l as [| a l IH]; [done |].
  rewrite fmap_cons, !filter_cons.
  destruct (decide (P (f a))) as [Hp | Hp], (decide (Q a)) as [Hq | Hq];
    cbn [length]; rewrite ?IH; try done; by destruct (HPQ a); tauto.
Qed.

Lemma requiresAction_count env cs ps st :
  length (filter (λ e, requiresAction e = true) (finalExceptions env cs ps st))
  = (length (filter (requiresActionAt env)
               (imap pair (filter (λ p, CORPORTAL_ROWID p ∉ matchedCorportalIds st) cs)))
     + length (filter (λ p, CCB_ROWID p ∉ matchedCCBIds st) ps))%nat.
Proof.
  rewrite finalExceptions_unfold, filter_app, length_app.
  rewrite (filter_imap_all (λ e, requiresAction e = true) (λ j, postingException env _))
    by done.
  rewrite length_imap. f_equal.
  rewrite (imap_pair_fmap (intakeException env)).
  by apply filter_fmap_length.
Qed.

(** X9.  [criticalExceptions] counts every unmatched posting row, whatever its
    age, and those unmatched intake rows for which [requiresActionCheck]
    holds when it is called for their exception; it therefore lies between
    the number of unmatched posting rows and the number of all
    exceptions. *)
Theorem criticalExceptions_counts_all_unmatched_postings env cs ps :
  afterRun env cs ps defaultOptions
    (λ r,
       afterStats env cs ps
         (λ s,
            (criticalExceptions s
             = Summary.unmatchedCCB (summary r)
               + Z.of_nat
                   (length (filter (requiresActionAt env)
                              (imap pair
                                 (filter (λ p, CORPORTAL_ROWID p ∉ intakeIds r) cs)))))%Z
            ∧ (Summary.unmatchedCCB (summary r) <= criticalExceptions s
               <= Summary.unmatchedCorportal (summary r)
                  + Summary.unmatchedCCB (summary r))%Z)).
Proof.
  run_returns. run_returns.
  change (criticalExceptions (statsOf env cs ps))
    with (Z.of_nat (length (filter (λ e, requiresAction e = true)
                              (finalExceptions env cs ps
                                 (matchedRun env cs ps defaultOptions))))).
  change (Summary.unmatchedCCB
            (summary (runResults env cs ps defaultOptions)))
    with (Z.of_nat (length (filter (λ e, exc_type e = UNMATCHED_CCB)
                              (finalExceptions env cs ps
                                 (matchedRun env cs ps defaultOptions))))).
  change (Summary.unmatchedCorportal
            (summary (runResults env cs ps defaultOptions)))
    with (Z.of_nat (length (filter (λ e, exc_type e = UNMATCHED_CORPORTAL)
                              (finalExceptions env cs ps
                                 (matchedRun env cs ps defaultOptions))))).
  change (intakeIds (runResults env cs ps defaultOptions))
    with (intakeIds (results (matchedRun env cs ps defaultOptions))).
  pose proof (RunInv_matchedRun env cs ps defaultOptions) as Hinv.
  set (st := matchedRun env cs ps defaultOptions) in *.
  rewrite requiresAction_count, unmatchedCCB_count, unmatchedCorportal_count.
  rewrite (list_filter_iff (λ p, CORPORTAL_ROWID p ∉ intakeIds (results st))
                           (λ p, CORPORTAL_ROWID p ∉ matchedCorportalIds st))
    by (intros p; by rewrite (claimed_intake_ids st _ Hinv)).
  pose proof (length_filter (requiresActionAt env)
                (imap pair (filter (λ p, CORPORTAL_ROWID p ∉ matchedCorportalIds st) cs))).
  rewrite length_imap in H.
  lia.
Qed.

(** ** The label of a fuzzy match *)

Lemma ltb_leb_trans x y z :
  (x <? y)%float = true → (y <=? z)%float = true → (x <? z)%float = true.
Proof.
  rewrite !FloatOrder.ltb_iff, FloatOrder.leb_iff.
  intros (Hx & Hy & Hxy) (_ & Hz & Hyz).
  split; [done | split; [done |]].
  destruct Hyz as [Hyz | Hyz].
  - by eapply FloatOrder.lex_lt_trans.
  - by rewrite <- Hyz.
Qed.

Lemma getMatchReasons_last i p s :
  (0.8 <=? s)%float = true →
  last (getMatchReasons i p s)
  = Some (if (0.9 <? s)%float then "High confidence match" else "Good match").
Proof.
  intros Hs. unfold getMatchReasons. cbv zeta.
  assert ((0.7 <? s)%float = true) as ->
    by (eapply ltb_leb_trans; [| exact Hs]; by vm_compute).
  destruct (0.9 <? s)%float; apply last_snoc.
Qed.

(** X10.  An accepted fuzzy match is labelled by its score: the last of its
    reasons is "High confidence match" when the score exceeds 0.9 and
    "Good match" otherwise.  The third label of [getMatchReasons],
    "Potential match - requires review", never reaches the results. *)
Theorem partial_match_label env cs ps opts :
  afterRun env cs ps opts
    (λ r,
       Forall (λ m, ∃ rs, reasons m = Some rs
                      ∧ last rs = Some (if (0.9 <? matchScore m)%float
                                        then "High confidence match" else "Good match"))
              (partialMatches r)).
Proof.
  run_returns.
  change (partialMatches (runResults env cs ps opts))
    with (partialMatches (results (matchedRun env cs ps opts))).
  eapply Forall_impl; [apply matchedRun_partial_sound |].
  intros m [(_ & _ & Hm & Hs) _].
  rewrite Hm in Hs |- *. simpl in Hs |- *.
  eexists; split; [reflexivity |]. by apply getMatchReasons_last.
Qed.

(** ** A day tolerance of zero *)

Lemma add_nan_r x : (x + nan)%float = nan.
Proof.
  apply Prim2SF_inj. rewrite add_spec.
  change (Prim2SF nan) with S754_nan. by destruct (Prim2SF x).
Qed.

Lemma calculateMatchScore_zero_tolerance i p ia pa idate pdate at_ :
  moment_diff_days idate pdate = 0%Z →
  calculateMatchScore i p ia pa idate pdate at_ 0 = nan.
Proof.
  intros Hd. unfold calculateMatchScore. cbv zeta. rewrite Hd.
  change (JS.of_Z (Z.abs 0) <=? 0)%float with true. cbn match.
  change (0.05 * (1 - JS.of_Z (Z.abs 0) / 0))%float with nan.
  apply add_nan_r.
Qed.

(** X11.  With a day tolerance of 0 the date term of the score divides zero by
    zero for a pair dated the same day: the score of such a pair is not a
    number, and no fuzzy match pairs two rows less than a day apart. *)
Theorem zero_day_tolerance_rejects_same_day_pairs env cs ps opts :
  daysTolerance opts = 0%float →
  (∀ i p at_,
      dayDistance i p = 0%Z →
      score (scoreCandidate i at_ (daysTolerance opts) p) = nan)
  ∧ afterRun env cs ps opts
      (λ r, Forall (λ m, dayDistance (corportalPayment m) (ccbPayment m) ≠ 0%Z)
                   (partialMatches r)).
Proof.
  intros Hzero. rewrite Hzero.
  assert (∀ i p at_, dayDistance i p = 0%Z → score (scoreCandidate i at_ 0 p) = nan)
    as Hnan.
  { intros i p at_ Hd. unfold scoreCandidate. cbv zeta. cbn [score].
    apply calculateMatchScore_zero_tolerance.
    unfold dayDistance in Hd. lia. }
  split; [exact Hnan |]. run_returns.
  change (partialMatches (runResults env cs ps opts))
    with (partialMatches (results (matchedRun env cs ps opts))).
  eapply Forall_impl; [apply matchedRun_partial_sound |].
  intros m [(_ & _ & Hm & Hs) _] Hd.
  rewrite Hm in Hs. cbn [matchScore fuzzyRecord] in Hs.
  rewrite Hzero, (Hnan _ _ _ Hd) in Hs. by vm_compute in Hs.
Qed.

(** A same-day pair that the default tolerance pairs, run with a day
    tolerance of 0. *)
Lemma zero_day_tolerance_example :
  daysTolerance (mkOptions 0.01 0 true) = 0%float
  ∧ (∀ i p at_,
        dayDistance i p = 0%Z →
        score (scoreCandidate i at_ (daysTolerance (mkOptions 0.01 0 true)) p) = nan)
  ∧ afterRun (clockFrom NOW)
      [corp "A1" "C1" "BBPS" 1000.00 DAY0]
      [ccb "P1" "C1" "BBPS" 1000.01 DAY0]
      (mkOptions 0.01 0 true)
      (λ r, Forall (λ m, dayDistance (corportalPayment m) (ccbPayment m) ≠ 0%Z)
                   (partialMatches r)).
Proof.
  split; [reflexivity |].
  exact (zero_day_tolerance_rejects_same_day_pairs (clockFrom NOW)
           [corp "A1" "C1" "BBPS" 1000.00 DAY0]
           [ccb "P1" "C1" "BBPS" 1000.01 DAY0]
           (mkOptions 0.01 0 true) eq_refl).
Defined.

(** ** Ageing of an unmatched intake row *)

(** X12.  Once an unmatched intake row requires action it keeps requiring it:
    for clock readings not before the payment date, [requiresActionCheck]
    does not fall back as the clock advances. *)
Theorem requiresAction_persists now now' p :
  (PAYMENT_DATE p <= now)%Z → (now <= now')%Z →
  requiresActionCheck now p = true → requiresActionCheck now' p = true.
Proof.
  intros H1 H2. unfold requiresActionCheck, calculateDaysDifference, moment_diff_days.
  cbv zeta. intros H%bool_decide_eq_true. apply bool_decide_eq_true.
  assert (0 <= Z.quot (now - PAYMENT_DATE p) MS_PER_DAY)%Z
    by (apply Z.quot_pos; unfold MS_PER_DAY; lia).
  assert (Z.quot (now - PAYMENT_DATE p) MS_PER_DAY
          <= Z.quot (now' - PAYMENT_DATE p) MS_PER_DAY)%Z
    by (apply Z.quot_le_mono; unfold MS_PER_DAY; lia).
  lia.
Qed.

Lemma requiresAction_persists_example :
  (PAYMENT_DATE scenario_intake <= DAY0 + 3 * MS_PER_DAY)%Z
  ∧ (DAY0 + 3 * MS_PER_DAY <= NOW)%Z
  ∧ requiresActionCheck (DAY0 + 3 * MS_PER_DAY) scenario_intake = true
  ∧ requiresActionCheck NOW scenario_intake = true.
Proof.
  assert (PAYMENT_DATE scenario_intake <= DAY0 + 3 * MS_PER_DAY)%Z as H1
    by (by vm_compute).
  assert (DAY0 + 3 * MS_PER_DAY <= NOW)%Z as H2 by (by vm_compute).
  assert (requiresActionCheck (DAY0 + 3 * MS_PER_DAY) scenario_intake = true) as H3
    by (by vm_compute).
  split; [exact H1 | split; [exact H2 | split; [exact H3 |]]].
  exact (requiresAction_persists _ _ scenario_intake H1 H2 H3).
Defined.

(** ** Completeness of the exact phase *)

Lemma exactStep_keeps idx dt st c m :
  m ∈ matches (results st) → m ∈ matches (results (exactStep idx dt st c)).
Proof.
  intros Hm. unfold exactStep.
  destruct (exact idx !! exactKey c) as [ms |]; [| done].
  case_bool_decide; [| done].
  destruct (findBestDateMatch c ms dt); [| done].
  simpl. apply elem_of_app. by left.
Qed.

Lemma exactPhase_keeps idx dt l st m :
  m ∈ matches (results st) → m ∈ matches (results (foldl (exactStep idx dt) st l)).
Proof.
  revert st. induction l as [| c l IH]; intros st Hm; simpl; [done |].
  by apply IH, exactStep_keeps.
Qed.

Lemma exactStep_finds env ps dt st p q :
  validDate (PAYMENT_DATE p) →
  Forall (λ x, validDate (POSTING_DATE x)) ps →
  q ∈ ps → exactKey p = exactKey q → withinDays dt p q →
  ∃ m, m ∈ matches (results (exactStep (indexOf env ps) dt st p))
       ∧ corportalPayment m = p ∧ type m = EXACT_MATCH.
Proof.
  intros Hp Hps Hq Hk Hw. unfold exactStep.
  destruct (indexOf_lookup env ps) as (-> & _). unfold bucketOf.
  assert (q ∈ filter (λ x, exactKey x = exactKey p) ps) as Hin
    by (by apply list_elem_of_filter).
  destruct (filter (λ x, exactKey x = exactKey p) ps) as [| x ms] eqn:Hf;
    [by apply elem_of_nil in Hin |].
  rewrite bool_decide_eq_true_2 by (simpl; lia).
  destruct (findBestDateMatch_found p (x :: ms) dt q) as [b ->]; [done | | done | done |].
  { rewrite <- Hf. apply Forall_forall. intros y [_ Hy]%list_elem_of_filter.
    rewrite Forall_forall in Hps. by apply Hps. }
  eexists. split; [simpl; apply elem_of_app; right; by left |]. done.
Qed.

Lemma exactPhase_finds env ps dt l st p q :
  validDate (PAYMENT_DATE p) →
  Forall (λ x, validDate (POSTING_DATE x)) ps →
  p ∈ l → q ∈ ps → exactKey p = exactKey q → withinDays dt p q →
  ∃ m, m ∈ matches (results (foldl (exactStep (indexOf env ps) dt) st l))
       ∧ corportalPayment m = p ∧ type m = EXACT_MATCH.
Proof.
  intros Hp Hps Hl Hq Hk Hw. revert st.
  induction l as [| c l IH]; intros st; [by apply elem_of_nil in Hl |].
  simpl. apply elem_of_cons in Hl as [<- | Hl]; [| by apply IH].
  destruct (exactStep_finds env ps dt st p q) as (m & Hm & H1 & H2); try done.
  exists m. split; [by apply exactPhase_keeps | done].
Qed.

(** X13.  The exact phase misses nothing it could pair: an intake row for which
    some posting row has the same composite key and lies within the day
    tolerance gets an exact match, and is therefore not reported as an
    exception. *)
Theorem keyed_row_within_tolerance_is_matched_exactly env cs ps opts p q :
  validDate (PAYMENT_DATE p) →
  Forall (λ x, validDate (POSTING_DATE x)) ps →
  p ∈ cs → q ∈ ps → exactKey p = exactKey q → withinDays (daysTolerance opts) p q →
  afterRun env cs ps opts
    (λ r,
       (∃ m, m ∈ matches r ∧ corportalPayment m = p ∧ type m = EXACT_MATCH)
       ∧ ∀ e, e ∈ exceptions r → exc_payment e = inl p → False).
Proof.
  intros Hp Hps Hc Hq Hk Hw. run_returns.
  assert (∃ m, m ∈ matches (results (matchedRun env cs ps opts))
               ∧ corportalPayment m = p ∧ type m = EXACT_MATCH) as Hex.
  { unfold matchedRun. cbv zeta.
    destruct (includePartialMatches opts); [rewrite fuzzyPhase_matches |];
      by apply (exactPhase_finds env ps (daysTolerance opts) cs _ p q). }
  split; [exact Hex |].
  intros e He Hpay.
  change (exceptions (runResults env cs ps opts))
    with (finalExceptions env cs ps (matchedRun env cs ps opts)) in He.
  destruct (proj1 (finalExceptions_intake env cs ps (matchedRun env cs ps opts) p))
    as [_ Hid];
    [by exists e |].
  apply Hid. apply (inv_corp_ids _ (RunInv_matchedRun env cs ps opts)).
  destruct Hex as (m & Hm & <- & _). exists m.
  split; [apply elem_of_app; by left | done].
Qed.

(** Two intake rows and a posting row on which the hypotheses hold. *)
Lemma keyed_row_matched_exactly_example :
  validDate (PAYMENT_DATE scenario_intake)
  ∧ Forall (λ x, validDate (POSTING_DATE x)) [single_posting]
  ∧ scenario_intake ∈ twin_intake
  ∧ single_posting ∈ [single_posting]
  ∧ exactKey scenario_intake = exactKey single_posting
  ∧ withinDays (daysTolerance defaultOptions) scenario_intake single_posting
  ∧ afterRun (clockFrom NOW) twin_intake [single_posting] defaultOptions
      (λ r,
         (∃ m, m ∈ matches r ∧ corportalPayment m = scenario_intake
               ∧ type m = EXACT_MATCH)
         ∧ ∀ e, e ∈ exceptions r → exc_payment e = inl scenario_intake → False).
Proof.
  assert (validDate (PAYMENT_DATE scenario_intake)) as H1
    by (unfold validDate; simpl; unfold DAY0; lia).
  assert (Forall (λ x, validDate (POSTING_DATE x)) [single_posting]) as H2
    by (repeat constructor; unfold validDate; simpl; unfold DAY0; lia).
  assert (scenario_intake ∈ twin_intake) as H3 by (by left).
  assert (single_posting ∈ [single_posting]) as H4 by (by left).
  assert (exactKey scenario_intake = exactKey single_posting) as H5 by (by vm_compute).
  assert (withinDays (daysTolerance defaultOptions) scenario_intake single_posting) as H6
    by (by vm_compute).
  split; [exact H1 |]. split; [exact H2 |]. split; [exact H3 |]. split; [exact H4 |].
  split; [exact H5 |]. split; [exact H6 |].
  exact (keyed_row_within_tolerance_is_matched_exactly (clockFrom NOW) twin_intake
           [single_posting]
           defaultOptions scenario_intake single_posting H1 H2 H3 H4 H5 H6).
Defined.

(** ** Matches follow the intake rows *)

Lemma foldl_appends {S A} (get : S → list A) (step : S → A → S) :
  (∀ st c, get (step st c) = get st ∨ get (step st c) = get st ++ [c]) →
  ∀ l st, ∃ l', l' `sublist_of` l ∧ get (foldl step st l) = get st ++ l'.
Proof.
  intros Hstep. induction l as [| c l IH]; intros st; simpl.
  - exists []. split; [constructor | by rewrite app_nil_r].
  - destruct (IH (step st c)) as (l' & Hsub & ->).
    destruct (Hstep st c) as [-> | ->].
    + exists l'. split; [by constructor | done].
    + exists (c :: l'). split; [by constructor | by rewrite <- app_assoc].
Qed.

Lemma sublist_into_filter {A} (P : A → Prop) `{∀ x, Decision (P x)} (l1 l2 : list A) :
  l1 `sublist_of` l2 → Forall P l1 → l1 `sublist_of` filter P l2.
Proof.
  induction 1 as [| x l1 l2 Hsub IH | x l1 l2 Hsub IH]; intros Hall.
  - constructor.
  - apply Forall_cons in Hall as [Hx Hall].
    rewrite filter_cons, decide_True by done. constructor. by apply IH.
  - rewrite filter_cons. destruct (decide (P x)); [constructor |]; by apply IH.
Qed.

Lemma exactStep_appends idx dt st c :
  corportalPayment <$> matches (results (exactStep idx dt st c))
  = corportalPayment <$> matches (results st)
  ∨ corportalPayment <$> matches (results (exactStep idx dt st c))
    = (corportalPayment <$> matches (results st)) ++ [c].
Proof.
  unfold exactStep.
  destruct (exact idx !! exactKey c) as [ms |]; [| by left].
  case_bool_decide; [| by left].
  destruct (findBestDateMatch c ms dt); [| by left].
  right. simpl. by rewrite fmap_app.
Qed.

Lemma fuzzyStep_appends pool at_ dt st c :
  corportalPayment <$> partialMatches (results (fuzzyStep pool at_ dt st c))
  = corportalPayment <$> partialMatches (results st)
  ∨ corportalPayment <$> partialMatches (results (fuzzyStep pool at_ dt st c))
    = (corportalPayment <$> partialMatches (results st)) ++ [c].
Proof.
  unfold fuzzyStep, fuzzyAccept.
  destruct (findFuzzyMatches c pool at_ dt) as [| best rest]; [by left |].
  destruct (0.8 <=? score best)%float; [| by left].
  right. simpl. by rewrite fmap_app.
Qed.

(** X14.  The matches follow the intake rows: the intake rows of
    [results.matches], and those of [results.partialMatches], are taken
    from the intake list in its order, each position at most once; and
    the two lists draw on different positions, their intake rows taken
    together being a selection of positions of the intake list, each at
    most once.  Hence the two lists together never hold more entries than
    there are intake rows. *)
Theorem matches_follow_intake_order env cs ps opts :
  afterRun env cs ps opts
    (λ r,
       (corportalPayment <$> matches r) `sublist_of` cs
       ∧ (corportalPayment <$> partialMatches r) `sublist_of` cs
       ∧ (corportalPayment <$> matches r) ++ (corportalPayment <$> partialMatches r) ⊆+ cs
       ∧ (Summary.matchedPayments (summary r) + Summary.partialMatches (summary r)
          <= Summary.totalCorportalPayments (summary r))%Z).
Proof.
  run_returns.
  pose proof (RunInv_matchedRun env cs ps opts) as Hinv.
  pose proof (matchedRun_total env cs ps opts) as Htot.
  change (Summary.matchedPayments (summary (runResults env cs ps opts)))
    with (Summary.matchedPayments (summary (results (matchedRun env cs ps opts)))).
  change (Summary.partialMatches (summary (runResults env cs ps opts)))
    with (Summary.partialMatches (summary (results (matchedRun env cs ps opts)))).
  change (Summary.totalCorportalPayments
            (summary (runResults env cs ps opts)))
    with (Summary.totalCorportalPayments (summary (results (matchedRun env cs ps opts)))).
  change (matches (runResults env cs ps opts))
    with (matches (results (matchedRun env cs ps opts))).
  change (partialMatches (runResults env cs ps opts))
    with (partialMatches (results (matchedRun env cs ps opts))).
  rewrite (inv_count _ Hinv), (inv_partial_count _ Hinv), Htot. clear Hinv Htot.
  set (st1 := exactPhase cs (indexOf env ps) (daysTolerance opts) (initialRun env cs ps)).
  pose proof (RunInv_exactPhase cs (indexOf env ps) (daysTolerance opts) _ (RunInv_initial env cs ps))
    as Hinv1. fold st1 in Hinv1.
  destruct (foldl_appends (λ st, corportalPayment <$> matches (results st))
              (exactStep (indexOf env ps) (daysTolerance opts))
              (exactStep_appends _ _) cs (initialRun env cs ps)) as (l1 & Hsub1 & H1).
  fold (exactPhase cs (indexOf env ps) (daysTolerance opts) (initialRun env cs ps)) in H1.
  fold st1 in H1. simpl in H1.
  assert (l1 `sublist_of` filter (λ p, ¬ (CORPORTAL_ROWID p ∉ matchedCorportalIds st1)) cs)
    as Hsub1'.
  { apply sublist_into_filter; [done |]. rewrite <- H1.
    apply Forall_forall. intros p (m & -> & Hm)%list_elem_of_fmap Hno. apply Hno.
    apply (inv_corp_ids _ Hinv1). exists m. split; [apply elem_of_app; by left | done]. }
  pose proof (filter_app_complement
                (λ p, CORPORTAL_ROWID p ∉ matchedCorportalIds st1) cs) as Hsplit.
  pose proof Hsplit as Hperm. pose proof Hsub1' as Hclaimed.
  apply Permutation_length in Hsplit. rewrite length_app in Hsplit.
  apply sublist_length in Hsub1'. rewrite <- H1, length_fmap in Hsub1'.
  assert (matches (results (matchedRun env cs ps opts)) = matches (results st1)) as Hm.
  { unfold matchedRun. cbv zeta. fold st1.
    destruct (includePartialMatches opts); [apply fuzzyPhase_matches | done]. }
  rewrite Hm, H1. split; [done |].
  assert (partialMatches (results st1) = []) as Hnil
    by (unfold st1; by rewrite exactPhase_partialMatches).
  unfold matchedRun. cbv zeta. fold st1.
  destruct (includePartialMatches opts).
  - unfold fuzzyPhase. cbv zeta.
    destruct (foldl_appends (λ st, corportalPayment <$> partialMatches (results st))
                (fuzzyStep (filter (λ p, CCB_ROWID p ∉ matchedCCBIds st1) ps)
                           (amountTolerance opts) (daysTolerance opts))
                (fuzzyStep_appends _ _ _)
                (filter (λ p, CORPORTAL_ROWID p ∉ matchedCorportalIds st1) cs) st1)
      as (l2 & Hsub2 & H2).
    rewrite Hnil in H2. simpl in H2.
    rewrite H2. split; [| split].
    + etrans; [exact Hsub2 | apply sublist_filter].
    + rewrite <- Hperm, (Permutation_app_comm l1 l2).
      apply submseteq_app; by apply sublist_submseteq.
    + apply sublist_length in Hsub2. rewrite <- H2, length_fmap in Hsub2. lia.
  - rewrite Hnil. simpl. split; [apply sublist_nil_l | split; [| lia]].
    rewrite app_nil_r. by apply sublist_submseteq.
Qed.

(** ** The settlement lag of an exact match *)

(** X15.  The date difference recorded with an exact match is, without its
    sign, within the day tolerance of the run. *)
Theorem exact_match_lag_within_tolerance env cs ps opts :
  afterRun env cs ps opts
    (λ r, Forall (λ m, (abs_dateDifference m <=? daysTolerance opts)%float = true)
                 (matches r)).
Proof.
  run_returns.
  change (matches (runResults env cs ps opts))
    with (matches (results (matchedRun env cs ps opts))).
  pose proof (inv_exact _ (RunInv_matchedRun env cs ps opts)) as Hshape.
  pose proof (matchedRun_exact_sound env cs ps opts) as Hsound.
  rewrite Forall_forall in Hshape, Hsound. apply Forall_forall. intros m Hm.
  destruct (Hshape m Hm) as (_ & _ & Hd). destruct (Hsound m Hm) as (_ & _ & _ & _ & Hw).
  unfold abs_dateDifference. rewrite Hd.
  unfold withinDays, dayDistance in Hw.
  unfold calculateDateDifference, moment_diff_days in *.
  replace (POSTING_DATE (ccbPayment m) - PAYMENT_DATE (corportalPayment m))%Z
    with (- (PAYMENT_DATE (corportalPayment m) - POSTING_DATE (ccbPayment m)))%Z by lia.
  rewrite Z.quot_opp_l by (unfold MS_PER_DAY; lia). by rewrite Z.abs_opp.
Qed.

(** ** The counters of the summary *)

(** X16.  The counters of the summary agree with the inputs and with the three
    result lists. *)
Theorem summary_counts_agree_with_results env cs ps opts :
  afterRun env cs ps opts
    (λ r,
       Summary.totalCorportalPayments (summary r) = Z.of_nat (length cs)
       ∧ Summary.totalCCBPayments (summary r) = Z.of_nat (length ps)
       ∧ Summary.matchedPayments (summary r) = Z.of_nat (length (matches r))
       ∧ Summary.partialMatches (summary r) = Z.of_nat (length (partialMatches r))
       ∧ (Summary.unmatchedCorportal (summary r) + Summary.unmatchedCCB (summary r)
          = Z.of_nat (length (exceptions r)))%Z).
Proof.
  run_returns.
  pose proof (RunInv_matchedRun env cs ps opts) as Hinv.
  split; [exact (matchedRun_total env cs ps opts) |].
  split; [exact (matchedRun_totalCCB env cs ps opts) |].
  split; [exact (inv_count _ Hinv) |].
  split; [exact (inv_partial_count _ Hinv) |].
  change (Summary.unmatchedCorportal
            (summary (runResults env cs ps opts)))
    with (Z.of_nat (length (filter (λ e, exc_type e = UNMATCHED_CORPORTAL)
                              (finalExceptions env cs ps (matchedRun env cs ps opts))))).
  change (Summary.unmatchedCCB
            (summary (runResults env cs ps opts)))
    with (Z.of_nat (length (filter (λ e, exc_type e = UNMATCHED_CCB)
                              (finalExceptions env cs ps (matchedRun env cs ps opts))))).
  change (exceptions (runResults env cs ps opts))
    with (finalExceptions env cs ps (matchedRun env cs ps opts)).
  rewrite unmatchedCorportal_count, unmatchedCCB_count.
  rewrite finalExceptions_unfold, length_app, !length_imap. lia.
Qed.

(** ** The choices of the two phases *)

Lemma findBestDateMatch_least i ccbMatches tol b q :
  validDate (PAYMENT_DATE i) →
  Forall (λ p, validDate (POSTING_DATE p)) ccbMatches →
  findBestDateMatch i ccbMatches tol = Some b →
  q ∈ ccbMatches → withinDays tol i q →
  (dayDistance i b <= dayDistance i q)%Z.
Proof.
  intros Hi Hl Hb Hq Hw.
  assert (infinity = infinity ∧ ∀ c, c ∈ [] → ¬ withinDays tol i c) as Hinit
    by (split; [done |]; intros x Hx; by apply elem_of_nil in Hx).
  pose proof (findBestDateMatch_scan i tol ccbMatches Hi Hl [] None infinity Hinit) as H.
  unfold findBestDateMatch in Hb. cbv zeta in Hb, H. rewrite Hb in H.
  destruct H as (_ & l1 & l2 & Heq & H1 & H2).
  simpl in Heq. rewrite Heq in Hq.
  apply elem_of_app in Hq as [Hq | Hq].
  - specialize (H1 q Hq Hw). lia.
  - apply elem_of_cons in Hq as [-> | Hq]; [lia | by apply H2].
Qed.

(** X17.  Among the posting rows that carry the composite key of an intake row
    and lie within the day tolerance, the exact phase pairs the intake
    row with one that is closest in whole days. *)
Theorem exact_match_is_closest_keyed_row env cs ps opts :
  Forall (λ p, validDate (PAYMENT_DATE p)) cs →
  Forall (λ p, validDate (POSTING_DATE p)) ps →
  afterRun env cs ps opts
    (λ r,
       Forall (λ m, ∀ q, q ∈ ps → exactKey q = exactKey (corportalPayment m) →
                         withinDays (daysTolerance opts) (corportalPayment m) q →
                         (dayDistance (corportalPayment m) (ccbPayment m)
                          <= dayDistance (corportalPayment m) q)%Z)
              (matches r)).
Proof.
  intros Hcs Hps. run_returns.
  change (matches (runResults env cs ps opts))
    with (matches (results (matchedRun env cs ps opts))).
  assert (matches (results (matchedRun env cs ps opts))
          = matches (results (exactPhase cs (indexOf env ps) (daysTolerance opts)
                                         (initialRun env cs ps)))) as ->.
  { unfold matchedRun. cbv zeta.
    destruct (includePartialMatches opts); [apply fuzzyPhase_matches | done]. }
  unfold exactPhase. cbv zeta.
  apply (foldl_invariant_in
           (λ st, Forall (λ m, ∀ q, q ∈ ps → exactKey q = exactKey (corportalPayment m) →
                              withinDays (daysTolerance opts) (corportalPayment m) q →
                              (dayDistance (corportalPayment m) (ccbPayment m)
                               <= dayDistance (corportalPayment m) q)%Z)
                         (matches (results st)))
           _ cs cs); [| done | constructor].
  intros st c Hc Hst. unfold exactStep.
  destruct (exact (indexOf env ps) !! exactKey c) as [ms |] eqn:Hms; [| done].
  case_bool_decide; [| done].
  destruct (findBestDateMatch c ms (daysTolerance opts)) as [b |] eqn:Hb; [| done].
  apply exact_bucket in Hms.
  simpl. apply Forall_app; split; [done |]. apply Forall_singleton. simpl.
  intros q Hq Hk Hw.
  apply (findBestDateMatch_least c ms (daysTolerance opts)); try done.
  - rewrite Forall_forall in Hcs. by apply Hcs.
  - rewrite Hms. apply Forall_forall. intros y [_ Hy]%list_elem_of_filter.
    rewrite Forall_forall in Hps. by apply Hps.
  - rewrite Hms. by apply list_elem_of_filter.
Qed.

(** An intake row with three keyed posting rows, the closest of which is
    not the first. *)
Lemma exact_match_is_closest_example :
  Forall (λ p, validDate (PAYMENT_DATE p)) [scenario_intake]
  ∧ Forall (λ p, validDate (POSTING_DATE p))
           [ccb "P1" "C1" "BBPS" 1000 (DAY0 + 2 * MS_PER_DAY);
            ccb "P2" "C1" "BBPS" 1000 (DAY0 + MS_PER_DAY);
            ccb "P3" "C1" "BBPS" 1000 (DAY0 - MS_PER_DAY)]
  ∧ afterRun (clockFrom NOW) [scenario_intake]
      [ccb "P1" "C1" "BBPS" 1000 (DAY0 + 2 * MS_PER_DAY);
       ccb "P2" "C1" "BBPS" 1000 (DAY0 + MS_PER_DAY);
       ccb "P3" "C1" "BBPS" 1000 (DAY0 - MS_PER_DAY)]
      defaultOptions
      (λ r,
         Forall (λ m, ∀ q, q ∈ [ccb "P1" "C1" "BBPS" 1000 (DAY0 + 2 * MS_PER_DAY);
                                ccb "P2" "C1" "BBPS" 1000 (DAY0 + MS_PER_DAY);
                                ccb "P3" "C1" "BBPS" 1000 (DAY0 - MS_PER_DAY)] →
                           exactKey q = exactKey (corportalPayment m) →
                           withinDays (daysTolerance defaultOptions) (corportalPayment m) q →
                           (dayDistance (corportalPayment m) (ccbPayment m)
                            <= dayDistance (corportalPayment m) q)%Z)
                (matches r)).
Proof.
  assert (Forall (λ p, validDate (PAYMENT_DATE p)) [scenario_intake]) as H1
    by (repeat constructor; unfold validDate; simpl; unfold DAY0; lia).
  assert (Forall (λ p, validDate (POSTING_DATE p))
            [ccb "P1" "C1" "BBPS" 1000 (DAY0 + 2 * MS_PER_DAY);
             ccb "P2" "C1" "BBPS" 1000 (DAY0 + MS_PER_DAY);
             ccb "P3" "C1" "BBPS" 1000 (DAY0 - MS_PER_DAY)]) as H2
    by (repeat constructor; unfold validDate; simpl; unfold DAY0, MS_PER_DAY; lia).
  split; [exact H1 | split; [exact H2 |]].
  exact (exact_match_is_closest_keyed_row (clockFrom NOW) [scenario_intake] _
           defaultOptions H1 H2).
Defined.

Lemma leb_refl_pos x : (0 <? x)%float = true → (x <=? x)%float = true.
Proof.
  intros H%FloatOrder.ltb_fnum_r. apply FloatOrder.leb_iff. auto.
Qed.

Lemma findFuzzyMatches_top i pool at_ dt best rest q :
  findFuzzyMatches i pool at_ dt = best :: rest →
  q ∈ pool → positiveScore (scoreCandidate i at_ dt q) →
  (score (scoreCandidate i at_ dt q) <=? score best)%float = true.
Proof.
  intros Hf Hq Hpos.
  pose proof (findFuzzyMatches_desc i pool at_ dt) as Hs. rewrite Hf in Hs.
  apply StronglySorted_inv in Hs as [_ Hrest].
  assert (scoreCandidate i at_ dt q ∈ best :: rest) as Hin.
  { rewrite <- Hf, findFuzzyMatches_unfold, Array_sort_perm.
    apply list_elem_of_filter. split; [done |].
    apply list_elem_of_fmap. by exists q. }
  apply elem_of_cons in Hin as [<- | Hin]; [by apply leb_refl_pos |].
  rewrite Forall_forall in Hrest. exact (Hrest _ Hin).
Qed.

Lemma runResults_partial_top env cs ps opts :
  let r := runResults env cs ps opts in
  Forall (λ m, ∀ q, q ∈ ps →
                    (∀ e, e ∈ matches r → CCB_ROWID (ccbPayment e) ≠ CCB_ROWID q) →
                    positiveScore (scoreCandidate (corportalPayment m)
                                     (amountTolerance opts) (daysTolerance opts) q) →
                    (score (scoreCandidate (corportalPayment m)
                              (amountTolerance opts) (daysTolerance opts) q)
                     <=? matchScore m)%float = true)
         (partialMatches r).
Proof.
  cbv zeta.
  change (partialMatches (runResults env cs ps opts))
    with (partialMatches (results (matchedRun env cs ps opts))).
  assert (matches (runResults env cs ps opts)
          = matches (results (exactPhase cs (indexOf env ps) (daysTolerance opts)
                                         (initialRun env cs ps)))) as ->.
  { change (matches (runResults env cs ps opts))
      with (matches (results (matchedRun env cs ps opts))).
    unfold matchedRun. cbv zeta.
    destruct (includePartialMatches opts); [apply fuzzyPhase_matches | done]. }
  pose proof (RunInv_exactPhase cs (indexOf env ps) (daysTolerance opts) _ (RunInv_initial env cs ps))
    as Hinv.
  assert (partialMatches
            (results (exactPhase cs (indexOf env ps) (daysTolerance opts) (initialRun env cs ps))) = [])
    as Hnil by apply exactPhase_partialMatches.
  unfold matchedRun. cbv zeta.
  set (st1 := exactPhase cs (indexOf env ps) (daysTolerance opts) (initialRun env cs ps)) in *.
  destruct (includePartialMatches opts); [| rewrite Hnil; constructor].
  unfold fuzzyPhase. cbv zeta.
  apply (foldl_invariant_in
           (λ st, Forall (λ m, ∀ q, q ∈ ps →
                     (∀ e, e ∈ matches (results st1) →
                           CCB_ROWID (ccbPayment e) ≠ CCB_ROWID q) →
                     positiveScore (scoreCandidate (corportalPayment m)
                                      (amountTolerance opts) (daysTolerance opts) q) →
                     (score (scoreCandidate (corportalPayment m)
                               (amountTolerance opts) (daysTolerance opts) q)
                      <=? matchScore m)%float = true)
                   (partialMatches (results st)))
           _ (filter (λ p, CORPORTAL_ROWID p ∉ matchedCorportalIds st1) cs)
             (filter (λ p, CORPORTAL_ROWID p ∉ matchedCorportalIds st1) cs));
    [| done | rewrite Hnil; constructor].
  intros st c _ Hst. unfold fuzzyStep, fuzzyAccept.
  destruct (findFuzzyMatches c _ _ _) as [| best rest] eqn:Hf; [done |].
  destruct (0.8 <=? score best)%float; [| done].
  simpl. apply Forall_app; split; [done |]. apply Forall_singleton. simpl.
  intros q Hq Hfree Hpos.
  apply (findFuzzyMatches_top c _ _ _ best rest q Hf); [| done].
  apply list_elem_of_filter. split; [| done].
  intros Hin. apply (inv_ccb_ids _ Hinv) in Hin as (e & He & Heq).
  rewrite Hnil, app_nil_r in He. by apply (Hfree e He).
Qed.

(** X18.  The fuzzy phase pairs an intake row with a best-scoring candidate:
    no posting row left over by the exact phase has, for this intake row,
    a positive score above the score of the recorded fuzzy match. *)
Theorem partial_match_is_top_scoring env cs ps opts :
  afterRun env cs ps opts
    (λ r,
       Forall (λ m, ∀ q, q ∈ ps →
                         (∀ e, e ∈ matches r → CCB_ROWID (ccbPayment e) ≠ CCB_ROWID q) →
                         positiveScore (scoreCandidate (corportalPayment m)
                                          (amountTolerance opts) (daysTolerance opts) q) →
                         (score (scoreCandidate (corportalPayment m)
                                   (amountTolerance opts) (daysTolerance opts) q)
                          <=? matchScore m)%float = true)
              (partialMatches r)).
Proof. run_returns. apply runResults_partial_top. Qed.

(** ** What the acceptance threshold means *)

Lemma calculateMatchScore_steps i p ia pa idate pdate at_ dt :
  calculateMatchScore i p ia pa idate pdate at_ dt
  = let base :=
      scoreBeforeDate (String.eqb (CONSUMER_ID i) (CONSUMER_ID p))
                      (String.eqb (PAYMENT_MODE i) (PAYMENT_MODE p))
                      (if (PrimFloat.abs (ia - pa) <=? at_)%float then Some 0.25%float
                       else if (PrimFloat.abs (ia - pa) <=? ia * 0.01)%float
                            then Some 0.15%float else None) in
    let daysDiff := JS.of_Z (Z.abs (moment_diff_days idate pdate)) in
    if (daysDiff <=? dt)%float
    then (base + 0.05 * (1 - daysDiff / dt))%float else base.
Proof.
  unfold calculateMatchScore, scoreBeforeDate. cbv zeta.
  destruct (String.eqb (CONSUMER_ID i) (CONSUMER_ID p)),
           (String.eqb (PAYMENT_MODE i) (PAYMENT_MODE p)),
           (PrimFloat.abs (ia - pa) <=? at_)%float,
           (PrimFloat.abs (ia - pa) <=? ia * 0.01)%float; reflexivity.
Qed.

Lemma thresholdCheck_all : forallb thresholdCheck (seqZ 1 366) = true.
Proof. vm_compute. reflexivity. Qed.

Lemma thresholdCheck_sound n dd c m a :
  (1 <= n <= 366)%Z → (0 <= dd <= n)%Z →
  a ∈ [Some 0.25%float; Some 0.15%float; None] →
  (0.8 <=? scoreBeforeDate c m a + 0.05 * (1 - JS.of_Z dd / JS.of_Z n))%float
  = c && m && match a with Some _ => true | None => false end.
Proof.
  intros Hn Hdd Ha.
  assert (In n (seqZ 1 366)) as Hin1 by (apply list_elem_of_In, elem_of_seqZ; lia).
  assert (In dd (seqZ 0 (n + 1))) as Hin2 by (apply list_elem_of_In, elem_of_seqZ; lia).
  assert (In c [true; false]) as Hin3 by (destruct c; simpl; auto).
  assert (In m [true; false]) as Hin4 by (destruct m; simpl; auto).
  apply list_elem_of_In in Ha.
  pose proof (proj1 (forallb_forall _ _) thresholdCheck_all n Hin1) as H1.
  unfold thresholdCheck in H1.
  pose proof (proj1 (forallb_forall _ _) H1 dd Hin2) as H2. cbv beta in H2.
  pose proof (proj1 (forallb_forall _ _) H2 c Hin3) as H3. cbv beta in H3.
  pose proof (proj1 (forallb_forall _ _) H3 m Hin4) as H4. cbv beta in H4.
  pose proof (proj1 (forallb_forall _ _) H4 a Ha) as H5. cbv beta in H5.
  by apply Bool.eqb_prop.
Qed.

Lemma leb_not_ltb x y : (x <=? y)%float = true → (y <? x)%float = false.
Proof.
  rewrite FloatOrder.leb_iff. intros (_ & _ & Hxy).
  destruct (y <? x)%float eqn:E; [| done].
  apply FloatOrder.ltb_iff in E as (_ & _ & Hlt). destruct Hxy as [Hxy | Hxy].
  - by destruct (FloatOrder.lex_lt_asym _ _ Hxy).
  - rewrite Hxy in Hlt. by destruct (FloatOrder.lex_lt_irrefl _ Hlt).
Qed.

Lemma of_Z_leb_inv a b :
  (0 <= a < 2 ^ 53)%Z → (0 <= b < 2 ^ 53)%Z →
  (JS.of_Z a <=? JS.of_Z b)%float = true → (a <= b)%Z.
Proof.
  intros Ha Hb H%leb_not_ltb. rewrite IntFloat.of_Z_ltb in H by done. lia.
Qed.

Lemma scoreCandidate_threshold i p at_ n :
  validDate (PAYMENT_DATE i) → validDate (POSTING_DATE p) → (1 <= n <= 366)%Z →
  (0.8 <=? score (scoreCandidate i at_ (JS.of_Z n) p))%float = true
  ↔ CONSUMER_ID i = CONSUMER_ID p ∧ PAYMENT_MODE i = PAYMENT_MODE p ∧ amountClose i p at_.
Proof.
  intros Hi Hp Hn. unfold scoreCandidate. cbv zeta. cbn [score].
  rewrite calculateMatchScore_steps. cbv zeta. unfold amountClose. cbv zeta.
  rewrite <- (String.eqb_eq (CONSUMER_ID i)), <- (String.eqb_eq (PAYMENT_MODE i)).
  change (Z.abs (moment_diff_days (PAYMENT_DATE i) (POSTING_DATE p)))
    with (dayDistance i p).
  pose proof (dayDistance_small i p Hi Hp) as Hd.
  assert (2 ^ 53 = 9007199254740992)%Z as H53 by (by vm_compute).
  generalize (String.eqb (CONSUMER_ID i) (CONSUMER_ID p)).
  generalize (String.eqb (PAYMENT_MODE i) (PAYMENT_MODE p)).
  generalize (PrimFloat.abs (JS.parseFloat (AMOUNT i) - JS.parseFloat (AMOUNT p))
              <=? at_)%float.
  generalize (PrimFloat.abs (JS.parseFloat (AMOUNT i) - JS.parseFloat (AMOUNT p))
              <=? JS.parseFloat (AMOUNT i) * 0.01)%float.
  intros t2 t1 m c.
  destruct (JS.of_Z (dayDistance i p) <=? JS.of_Z n)%float eqn:Ed.
  - apply of_Z_leb_inv in Ed; [| done | lia].
    rewrite (thresholdCheck_sound n (dayDistance i p) c m) by
      (first [lia | destruct t1; [| destruct t2]; repeat constructor]).
    destruct c, m, t1, t2; simpl; intuition discriminate.
  - destruct c, m, t1, t2; vm_compute; intuition discriminate.
Qed.

(** X19.  For a tolerance of 1 to 366 whole days, the score of a pair reaches
    the acceptance threshold of 0.8 exactly when the two rows have the
    same consumer and the same payment mode and their amounts are within
    the tolerance or within 1%; how far apart the dates are has no
    influence on it. *)
Theorem score_reaches_threshold_iff_rows_agree i p at_ n :
  validDate (PAYMENT_DATE i) → validDate (POSTING_DATE p) → (1 <= n <= 366)%Z →
  (0.8 <=? score (scoreCandidate i at_ (JS.of_Z n) p))%float = true
  ↔ CONSUMER_ID i = CONSUMER_ID p ∧ PAYMENT_MODE i = PAYMENT_MODE p ∧ amountClose i p at_.
Proof. apply scoreCandidate_threshold. Qed.

(** The scenario rows under the default tolerances. *)
Lemma score_reaches_threshold_example :
  validDate (PAYMENT_DATE scenario_intake)
  ∧ validDate (POSTING_DATE scenario_posting)
  ∧ (1 <= 2 <= 366)%Z
  ∧ ((0.8 <=? score (scoreCandidate scenario_intake 0.01 (JS.of_Z 2) scenario_posting))%float
     = true
     ↔ CONSUMER_ID scenario_intake = CONSUMER_ID scenario_posting
       ∧ PAYMENT_MODE scenario_intake = PAYMENT_MODE scenario_posting
       ∧ amountClose scenario_intake scenario_posting 0.01).
Proof.
  assert (validDate (PAYMENT_DATE scenario_intake)) as H1
    by (unfold validDate; simpl; unfold DAY0; lia).
  assert (validDate (POSTING_DATE scenario_posting)) as H2
    by (unfold validDate; simpl; unfold DAY0, MS_PER_DAY; lia).
  assert (1 <= 2 <= 366)%Z as H3 by lia.
  split; [exact H1 | split; [exact H2 | split; [exact H3 |]]].
  exact (score_reaches_threshold_iff_rows_agree scenario_intake scenario_posting
           0.01 2 H1 H2 H3).
Defined.

(** ** Fuzzy matches and the intake rows left unmatched *)

(** X20.  With a tolerance of 1 to 366 whole days, the two rows of every fuzzy
    match have the same consumer and the same payment mode, and amounts
    within the tolerance or within 1%.  Their dates are not constrained. *)
Theorem partial_matches_agree_on_consumer_mode_amount env cs ps opts n :
  daysTolerance opts = JS.of_Z n → (1 <= n <= 366)%Z →
  Forall (λ p, validDate (PAYMENT_DATE p)) cs →
  Forall (λ p, validDate (POSTING_DATE p)) ps →
  afterRun env cs ps opts
    (λ r,
       Forall (λ m, CONSUMER_ID (corportalPayment m) = CONSUMER_ID (ccbPayment m)
                    ∧ PAYMENT_MODE (corportalPayment m) = PAYMENT_MODE (ccbPayment m)
                    ∧ amountClose (corportalPayment m) (ccbPayment m)
                                  (amountTolerance opts))
              (partialMatches r)).
Proof.
  intros Hdt Hn Hcs Hps. run_returns.
  change (partialMatches (runResults env cs ps opts))
    with (partialMatches (results (matchedRun env cs ps opts))).
  eapply Forall_impl; [apply matchedRun_partial_sound |].
  intros m [(Hc & Hp & Hm & Hs) _].
  rewrite Forall_forall in Hcs. rewrite Forall_forall in Hps.
  apply (scoreCandidate_threshold _ _ _ n); [by apply Hcs | by apply Hps | done |].
  rewrite Hm in Hs. cbn [matchScore fuzzyRecord] in Hs. by rewrite Hdt in Hs.
Qed.

(** The scenario rows, which differ by one paisa and are paired by the
    fuzzy phase. *)
Lemma partial_matches_agree_example :
  daysTolerance defaultOptions = JS.of_Z 2
  ∧ (1 <= 2 <= 366)%Z
  ∧ Forall (λ p, validDate (PAYMENT_DATE p)) [scenario_intake]
  ∧ Forall (λ p, validDate (POSTING_DATE p)) [scenario_posting]
  ∧ afterRun (clockFrom NOW) [scenario_intake] [scenario_posting] defaultOptions
      (λ r,
         Forall (λ m, CONSUMER_ID (corportalPayment m) = CONSUMER_ID (ccbPayment m)
                      ∧ PAYMENT_MODE (corportalPayment m) = PAYMENT_MODE (ccbPayment m)
                      ∧ amountClose (corportalPayment m) (ccbPayment m)
                                    (amountTolerance defaultOptions))
                (partialMatches r)).
Proof.
  assert (daysTolerance defaultOptions = JS.of_Z 2) as H0 by (by vm_compute).
  assert (1 <= 2 <= 366)%Z as H1 by lia.
  assert (Forall (λ p, validDate (PAYMENT_DATE p)) [scenario_intake]) as H2
    by (repeat constructor; unfold validDate; simpl; unfold DAY0; lia).
  assert (Forall (λ p, validDate (POSTING_DATE p)) [scenario_posting]) as H3
    by (repeat constructor; unfold validDate; simpl; unfold DAY0, MS_PER_DAY; lia).
  split; [exact H0 | split; [exact H1 | split; [exact H2 | split; [exact H3 |]]]].
  exact (partial_matches_agree_on_consumer_mode_amount (clockFrom NOW) [scenario_intake]
           [scenario_posting] defaultOptions 2 H0 H1 H2 H3).
Defined.

Lemma fuzzyStep_keeps pool at_ dt st c m :
  m ∈ partialMatches (results st) →
  m ∈ partialMatches (results (fuzzyStep pool at_ dt st c)).
Proof.
  intros Hm. unfold fuzzyStep, fuzzyAccept.
  destruct (findFuzzyMatches c pool at_ dt) as [| best rest]; [done |].
  destruct (0.8 <=? score best)%float; [| done].
  simpl. apply elem_of_app. by left.
Qed.

Lemma fuzzyPhase_keeps pool at_ dt l st m :
  m ∈ partialMatches (results st) →
  m ∈ partialMatches (results (foldl (fuzzyStep pool at_ dt) st l)).
Proof.
  revert st. induction l as [| c l IH]; intros st Hm; simpl; [done |].
  by apply IH, fuzzyStep_keeps.
Qed.

Lemma fuzzyStep_accepts pool at_ dt st c q :
  q ∈ pool → (0.8 <=? score (scoreCandidate c at_ dt q))%float = true →
  ∃ m, m ∈ partialMatches (results (fuzzyStep pool at_ dt st c))
       ∧ corportalPayment m = c.
Proof.
  intros Hq Hs.
  assert (positiveScore (scoreCandidate c at_ dt q)) as Hpos
    by (eapply ltb_leb_trans; [| exact Hs]; by vm_compute).
  assert (scoreCandidate c at_ dt q ∈ findFuzzyMatches c pool at_ dt) as Hin.
  { rewrite findFuzzyMatches_unfold, Array_sort_perm.
    apply list_elem_of_filter. split; [done |].
    apply list_elem_of_fmap. by exists q. }
  unfold fuzzyStep, fuzzyAccept.
  destruct (findFuzzyMatches c pool at_ dt) as [| best rest] eqn:Hf;
    [by apply elem_of_nil in Hin |].
  pose proof (findFuzzyMatches_top c pool at_ dt best rest q Hf Hq Hpos) as Htop.
  rewrite (FloatOrder.leb_trans _ _ _ Hs Htop).
  eexists. split; [simpl; apply elem_of_app; right; by left | done].
Qed.

Lemma fuzzyPhase_accepts pool at_ dt l st c q :
  c ∈ l → q ∈ pool → (0.8 <=? score (scoreCandidate c at_ dt q))%float = true →
  ∃ m, m ∈ partialMatches (results (foldl (fuzzyStep pool at_ dt) st l))
       ∧ corportalPayment m = c.
Proof.
  intros Hc Hq Hs. revert st.
  induction l as [| x l IH]; intros st; [by apply elem_of_nil in Hc |].
  simpl. apply elem_of_cons in Hc as [<- | Hc]; [| by apply IH].
  destruct (fuzzyStep_accepts pool at_ dt st c q Hq Hs) as (m & Hm & Heq).
  exists m. split; [by apply fuzzyPhase_keeps | done].
Qed.

(** With the fuzzy phase enabled, an intake row for which some posting
    row that no exact match uses scores at least 0.8 ends up in a match. *)
Lemma leftover_reaching_threshold_is_matched env cs ps opts p q :
  includePartialMatches opts = true →
  p ∈ cs → q ∈ ps →
  (∀ e, e ∈ matches (runResults env cs ps opts) →
        CCB_ROWID (ccbPayment e) ≠ CCB_ROWID q) →
  (0.8 <=? score (scoreCandidate p (amountTolerance opts) (daysTolerance opts) q))%float
  = true →
  let r := runResults env cs ps opts in
  (∃ m, m ∈ matches r ∧ CORPORTAL_ROWID (corportalPayment m) = CORPORTAL_ROWID p)
  ∨ (∃ m, m ∈ partialMatches r ∧ corportalPayment m = p).
Proof.
  intros Hinc Hpc Hqp Hfree Hs. cbv zeta.
  change (matches (runResults env cs ps opts))
    with (matches (results (matchedRun env cs ps opts))) in *.
  change (partialMatches (runResults env cs ps opts))
    with (partialMatches (results (matchedRun env cs ps opts))).
  unfold matchedRun in *. cbv zeta in *. rewrite Hinc in *.
  rewrite fuzzyPhase_matches in *.
  pose proof (RunInv_exactPhase cs (indexOf env ps) (daysTolerance opts) _
                (RunInv_initial env cs ps)) as Hinv.
  assert (partialMatches
            (results (exactPhase cs (indexOf env ps) (daysTolerance opts)
                        (initialRun env cs ps))) = [])
    as Hnil by apply exactPhase_partialMatches.
  set (st1 := exactPhase cs (indexOf env ps) (daysTolerance opts) (initialRun env cs ps))
    in *.
  destruct (decide (CORPORTAL_ROWID p ∈ matchedCorportalIds st1)) as [Hin | Hout].
  - left. apply (inv_corp_ids _ Hinv) in Hin as (m & Hmm & Heq).
    rewrite Hnil, app_nil_r in Hmm. by exists m.
  - right. apply (fuzzyPhase_accepts
                    (filter (λ x, CCB_ROWID x ∉ matchedCCBIds st1) ps)
                    (amountTolerance opts) (daysTolerance opts)
                    (filter (λ x, CORPORTAL_ROWID x ∉ matchedCorportalIds st1) cs)
                    st1 p q).
    + by apply list_elem_of_filter.
    + apply list_elem_of_filter. split; [| done].
      intros Hin. apply (inv_ccb_ids _ Hinv) in Hin as (e & He & Heq).
      rewrite Hnil, app_nil_r in He. by apply (Hfree e He).
    + done.
Qed.

(** X21.  With the fuzzy phase enabled and a tolerance of 1 to 366 whole days,
    an intake row is matched, and so not reported as an exception,
    whenever some posting row that no exact match uses has the same
    consumer and payment mode and an amount within the tolerance or
    within 1%, whatever the two dates are. *)
Theorem agreeing_leftover_row_is_matched env cs ps opts n p q :
  includePartialMatches opts = true →
  daysTolerance opts = JS.of_Z n → (1 <= n <= 366)%Z →
  validDate (PAYMENT_DATE p) → validDate (POSTING_DATE q) →
  p ∈ cs → q ∈ ps →
  CONSUMER_ID p = CONSUMER_ID q → PAYMENT_MODE p = PAYMENT_MODE q →
  amountClose p q (amountTolerance opts) →
  afterRun env cs ps opts
    (λ r,
       (∀ e, e ∈ matches r → CCB_ROWID (ccbPayment e) ≠ CCB_ROWID q) →
       (∃ m, m ∈ matches r ++ partialMatches r
             ∧ CORPORTAL_ROWID (corportalPayment m) = CORPORTAL_ROWID p)
       ∧ ∀ e, e ∈ exceptions r → exc_payment e = inl p → False).
Proof.
  intros Hinc Hdt Hn Hp Hq Hpc Hqp Hc Hm Ha. run_returns. intros Hfree.
  assert (∃ m, m ∈ matches (runResults env cs ps opts)
                   ++ partialMatches (runResults env cs ps opts)
               ∧ CORPORTAL_ROWID (corportalPayment m) = CORPORTAL_ROWID p) as Hex.
  { destruct (leftover_reaching_threshold_is_matched env cs ps opts p q Hinc Hpc Hqp Hfree)
      as [(m & Hmm & Heq) | (m & Hmm & Heq)].
    - rewrite Hdt. by apply scoreCandidate_threshold.
    - exists m. split; [apply elem_of_app; by left | done].
    - exists m. split; [apply elem_of_app; by right | by rewrite Heq]. }
  split; [exact Hex |].
  intros e He Hpay.
  change (exceptions (runResults env cs ps opts))
    with (finalExceptions env cs ps (matchedRun env cs ps opts)) in He.
  destruct (proj1 (finalExceptions_intake env cs ps (matchedRun env cs ps opts) p))
    as [_ Hid]; [by exists e |].
  apply Hid. by apply (inv_corp_ids _ (RunInv_matchedRun env cs ps opts)).
Qed.

(** The scenario rows, dated a year apart. *)
Lemma agreeing_leftover_row_example :
  includePartialMatches defaultOptions = true
  ∧ daysTolerance defaultOptions = JS.of_Z 2
  ∧ (1 <= 2 <= 366)%Z
  ∧ validDate (PAYMENT_DATE scenario_intake)
  ∧ validDate (POSTING_DATE (ccb "P1" "C1" "BBPS" 1000.01 (DAY0 + 365 * MS_PER_DAY)))
  ∧ scenario_intake ∈ [scenario_intake]
  ∧ ccb "P1" "C1" "BBPS" 1000.01 (DAY0 + 365 * MS_PER_DAY)
    ∈ [ccb "P1" "C1" "BBPS" 1000.01 (DAY0 + 365 * MS_PER_DAY)]
  ∧ CONSUMER_ID scenario_intake
    = CONSUMER_ID (ccb "P1" "C1" "BBPS" 1000.01 (DAY0 + 365 * MS_PER_DAY))
  ∧ PAYMENT_MODE scenario_intake
    = PAYMENT_MODE (ccb "P1" "C1" "BBPS" 1000.01 (DAY0 + 365 * MS_PER_DAY))
  ∧ amountClose scenario_intake
      (ccb "P1" "C1" "BBPS" 1000.01 (DAY0 + 365 * MS_PER_DAY))
      (amountTolerance defaultOptions)
  ∧ afterRun (clockFrom NOW) [scenario_intake]
      [ccb "P1" "C1" "BBPS" 1000.01 (DAY0 + 365 * MS_PER_DAY)] defaultOptions
      (λ r,
         (∀ e, e ∈ matches r →
               CCB_ROWID (ccbPayment e)
               ≠ CCB_ROWID (ccb "P1" "C1" "BBPS" 1000.01 (DAY0 + 365 * MS_PER_DAY))) →
         (∃ m, m ∈ matches r ++ partialMatches r
               ∧ CORPORTAL_ROWID (corportalPayment m) = CORPORTAL_ROWID scenario_intake)
         ∧ ∀ e, e ∈ exceptions r → exc_payment e = inl scenario_intake → False).
Proof.
  assert (includePartialMatches defaultOptions = true) as H0 by reflexivity.
  assert (daysTolerance defaultOptions = JS.of_Z 2) as H1 by (by vm_compute).
  assert (1 <= 2 <= 366)%Z as H2 by lia.
  assert (validDate (PAYMENT_DATE scenario_intake)) as H3
    by (unfold validDate; simpl; unfold DAY0; lia).
  assert (validDate (POSTING_DATE (ccb "P1" "C1" "BBPS" 1000.01 (DAY0 + 365 * MS_PER_DAY))))
    as H4 by (unfold validDate; simpl; unfold DAY0, MS_PER_DAY; lia).
  assert (scenario_intake ∈ [scenario_intake]) as H5 by (by left).
  assert (ccb "P1" "C1" "BBPS" 1000.01 (DAY0 + 365 * MS_PER_DAY)
          ∈ [ccb "P1" "C1" "BBPS" 1000.01 (DAY0 + 365 * MS_PER_DAY)]) as H6 by (by left).
  assert (CONSUMER_ID scenario_intake
          = CONSUMER_ID (ccb "P1" "C1" "BBPS" 1000.01 (DAY0 + 365 * MS_PER_DAY)))
    as H8 by reflexivity.
  assert (PAYMENT_MODE scenario_intake
          = PAYMENT_MODE (ccb "P1" "C1" "BBPS" 1000.01 (DAY0 + 365 * MS_PER_DAY)))
    as H9 by reflexivity.
  assert (amountClose scenario_intake
            (ccb "P1" "C1" "BBPS" 1000.01 (DAY0 + 365 * MS_PER_DAY))
            (amountTolerance defaultOptions)) as H10 by (left; by vm_compute).
  split; [exact H0 |]. split; [exact H1 |]. split; [exact H2 |]. split; [exact H3 |].
  split; [exact H4 |]. split; [exact H5 |]. split; [exact H6 |].
  split; [exact H8 |]. split; [exact H9 |]. split; [exact H10 |].
  exact (agreeing_leftover_row_is_matched (clockFrom NOW) [scenario_intake]
           [ccb "P1" "C1" "BBPS" 1000.01 (DAY0 + 365 * MS_PER_DAY)] defaultOptions 2
           scenario_intake _ H0 H1 H2 H3 H4 H5 H6 H8 H9 H10).
Defined.

(** ** Claims about the fuzzy phase *)

Lemma findFuzzyMatches_perm i pool at_ dt :
  findFuzzyMatches i pool at_ dt
  ≡ₚ filter positiveScore (scoreCandidate i at_ dt <$> pool).
Proof. rewrite findFuzzyMatches_unfold. apply Array_sort_perm. Qed.

Lemma threshold_positive c : (0.8 <=? score c)%float = true → positiveScore c.
Proof. intros Hs. eapply ltb_leb_trans; [| exact Hs]. by vm_compute. Qed.

(** What one step of the fuzzy loop does, by the scores of the pool. *)
Lemma fuzzyStep_accepts_top pool at_ dt st i :
  (∃ q, q ∈ pool ∧ (0.8 <=? score (scoreCandidate i at_ dt q))%float = true) →
  ∃ q0, q0 ∈ pool
    ∧ (0.8 <=? score (scoreCandidate i at_ dt q0))%float = true
    ∧ (∀ q, q ∈ pool → positiveScore (scoreCandidate i at_ dt q) →
            (score (scoreCandidate i at_ dt q)
             <=? score (scoreCandidate i at_ dt q0))%float = true)
    ∧ partialMatches (results (fuzzyStep pool at_ dt st i))
      = partialMatches (results st) ++ [fuzzyRecord i (scoreCandidate i at_ dt q0)]
    ∧ matchedCorportalIds (fuzzyStep pool at_ dt st i)
      = {[ CORPORTAL_ROWID i ]} ∪ matchedCorportalIds st
    ∧ matchedCCBIds (fuzzyStep pool at_ dt st i)
      = {[ CCB_ROWID q0 ]} ∪ matchedCCBIds st.
Proof.
  intros (q & Hq & Hs).
  pose proof (threshold_positive _ Hs) as Hpos.
  assert (scoreCandidate i at_ dt q ∈ findFuzzyMatches i pool at_ dt) as Hin.
  { rewrite findFuzzyMatches_perm. apply list_elem_of_filter. split; [done |].
    apply list_elem_of_fmap. by exists q. }
  unfold fuzzyStep, fuzzyAccept.
  destruct (findFuzzyMatches i pool at_ dt) as [| best rest] eqn:Hf;
    [by apply elem_of_nil in Hin |].
  destruct (findFuzzyMatches_candidate i pool at_ dt best) as (q0 & Hq0 & ->);
    [rewrite Hf; by left |].
  pose proof (findFuzzyMatches_top i pool at_ dt _ rest q Hf Hq Hpos) as Htop.
  pose proof (FloatOrder.leb_trans _ _ _ Hs Htop) as Hacc. rewrite Hacc.
  exists q0. split; [done |]. split; [done |]. split; [| done].
  intros x Hx Hxpos. exact (findFuzzyMatches_top i pool at_ dt _ rest x Hf Hx Hxpos).
Qed.

Lemma fuzzyStep_rejects pool at_ dt st i :
  (∀ q, q ∈ pool → (0.8 <=? score (scoreCandidate i at_ dt q))%float = false) →
  fuzzyStep pool at_ dt st i = st.
Proof.
  intros Hall. unfold fuzzyStep, fuzzyAccept.
  destruct (findFuzzyMatches i pool at_ dt) as [| best rest] eqn:Hf; [done |].
  destruct (findFuzzyMatches_candidate i pool at_ dt best) as (q0 & Hq0 & ->);
    [rewrite Hf; by left |].
  by rewrite (Hall q0 Hq0).
Qed.

Lemma runResults_matches_exactPhase env cs ps opts :
  matches (runResults env cs ps opts)
  = matches (results (exactPhase cs (indexOf env ps) (daysTolerance opts)
                        (initialRun env cs ps))).
Proof.
  change (matches (runResults env cs ps opts))
    with (matches (results (matchedRun env cs ps opts))).
  unfold matchedRun. cbv zeta.
  destruct (includePartialMatches opts); [apply fuzzyPhase_matches | done].
Qed.

(** The fuzzy matches of a run, by the scores of the posting rows that no
    exact match uses. *)
Lemma runResults_partial_accepted env cs ps opts :
  let r := runResults env cs ps opts in
  Forall (λ m, corportalPayment m ∈ cs
               ∧ unusedByExact ps r (ccbPayment m)
               ∧ m = fuzzyRecord (corportalPayment m)
                       (scoreCandidate (corportalPayment m) (amountTolerance opts)
                          (daysTolerance opts) (ccbPayment m))
               ∧ (0.8 <=? matchScore m)%float = true
               ∧ ∀ q, unusedByExact ps r q →
                      positiveScore (scoreCandidate (corportalPayment m)
                                       (amountTolerance opts) (daysTolerance opts) q) →
                      (score (scoreCandidate (corportalPayment m)
                                (amountTolerance opts) (daysTolerance opts) q)
                       <=? matchScore m)%float = true)
         (partialMatches r).
Proof.
  cbv zeta.
  pose proof (runResults_partial_top env cs ps opts) as Htop. cbv zeta in Htop.
  pose proof (matchedRun_partial_sound env cs ps opts) as Hsound. cbv zeta in Hsound.
  change (partialMatches (results (matchedRun env cs ps opts)))
    with (partialMatches (runResults env cs ps opts)) in Hsound.
  pose proof (RunInv_exactPhase cs (indexOf env ps) (daysTolerance opts) _
                (RunInv_initial env cs ps)) as Hinv.
  assert (partialMatches
            (results (exactPhase cs (indexOf env ps) (daysTolerance opts)
                        (initialRun env cs ps))) = [])
    as Hnil by apply exactPhase_partialMatches.
  rewrite Forall_forall in Htop, Hsound. apply Forall_forall. intros m Hm.
  destruct (Hsound m Hm) as [(Hc & Hp & Heq & Hs) [_ Hfree]].
  split; [done |]. split; [| split; [done | split; [done |]]].
  - split; [done |]. intros e He Hid. apply Hfree.
    apply (inv_ccb_ids _ Hinv). exists e. split; [| done].
    rewrite Hnil, app_nil_r. by rewrite <- runResults_matches_exactPhase.
  - intros q [Hq Hno]. by apply Htop.
Qed.

(** C4.  For every intake row the candidates are the posting rows of the
    pool with a positive score, ranked by descending score.  In one step
    of the fuzzy loop the intake row is matched exactly when some row of
    the pool scores at least 0.8 for it, and then with a top-scoring row;
    when every row of the pool scores below 0.8 the step leaves the run as
    it was, the intake row unmatched.  In every run, each fuzzy match
    pairs an intake row with a posting row that no exact match uses, has
    the score of that pair, which is at least 0.8 and is not exceeded by
    any other such posting row; an intake row for which no such posting
    row scores 0.8 has no fuzzy match; and, with the fuzzy phase enabled,
    an intake row for which one does is matched.  The comparison is
    [>=]: a score of exactly 0.8 is accepted, one of 0.7999 is not; a
    pair that scores 0.85 is matched, a pair that scores 0.75 is left as
    two exceptions. *)
Theorem fuzzy_match_accepted_iff_top_score_reaches_threshold :
  (∀ i pool at_ dt,
     findFuzzyMatches i pool at_ dt
     ≡ₚ filter positiveScore (scoreCandidate i at_ dt <$> pool)
     ∧ StronglySorted scoreDesc (findFuzzyMatches i pool at_ dt))
  ∧ (∀ pool at_ dt st i,
       let st' := fuzzyStep pool at_ dt st i in
       ((∃ q, q ∈ pool ∧ (0.8 <=? score (scoreCandidate i at_ dt q))%float = true) →
        ∃ q0, q0 ∈ pool
          ∧ (0.8 <=? score (scoreCandidate i at_ dt q0))%float = true
          ∧ (∀ q, q ∈ pool → positiveScore (scoreCandidate i at_ dt q) →
                  (score (scoreCandidate i at_ dt q)
                   <=? score (scoreCandidate i at_ dt q0))%float = true)
          ∧ partialMatches (results st')
            = partialMatches (results st) ++ [fuzzyRecord i (scoreCandidate i at_ dt q0)]
          ∧ matchedCorportalIds st' = {[ CORPORTAL_ROWID i ]} ∪ matchedCorportalIds st
          ∧ matchedCCBIds st' = {[ CCB_ROWID q0 ]} ∪ matchedCCBIds st)
       ∧ ((∀ q, q ∈ pool → (0.8 <=? score (scoreCandidate i at_ dt q))%float = false) →
          st' = st))
  ∧ (∀ env cs ps opts,
       afterRun env cs ps opts
         (λ r,
            Forall (λ m, corportalPayment m ∈ cs
                         ∧ unusedByExact ps r (ccbPayment m)
                         ∧ m = fuzzyRecord (corportalPayment m)
                                 (scoreCandidate (corportalPayment m) (amountTolerance opts)
                                    (daysTolerance opts) (ccbPayment m))
                         ∧ (0.8 <=? matchScore m)%float = true
                         ∧ ∀ q, unusedByExact ps r q →
                                positiveScore (scoreCandidate (corportalPayment m)
                                                 (amountTolerance opts)
                                                 (daysTolerance opts) q) →
                                (score (scoreCandidate (corportalPayment m)
                                          (amountTolerance opts) (daysTolerance opts) q)
                                 <=? matchScore m)%float = true)
                   (partialMatches r)
            ∧ (∀ p, (∀ q, unusedByExact ps r q →
                          (0.8 <=? score (scoreCandidate p (amountTolerance opts)
                                            (daysTolerance opts) q))%float = false) →
                    ∀ m, m ∈ partialMatches r → corportalPayment m ≠ p)
            ∧ (includePartialMatches opts = true →
               ∀ p q, p ∈ cs → unusedByExact ps r q →
                      (0.8 <=? score (scoreCandidate p (amountTolerance opts)
                                        (daysTolerance opts) q))%float = true →
                      (∃ m, m ∈ matches r
                            ∧ CORPORTAL_ROWID (corportalPayment m) = CORPORTAL_ROWID p)
                      ∨ (∃ m, m ∈ partialMatches r ∧ corportalPayment m = p))))
  ∧ (0.8 <=? 0.8)%float = true
  ∧ (0.8 <=? 0.7999)%float = false
  ∧ (let st := initialRun (clockFrom NOW) [scenario_intake] [scenario_posting] in
     map pairing
         (partialMatches (results (fuzzyAccept st scenario_intake [candidateScoring 0.8])))
     = [(FUZZY_MATCH, "A1", "P1")]
     ∧ fuzzyAccept st scenario_intake [candidateScoring 0.7999] = st)
  ∧ runGives (clockFrom NOW)
      [corp "A1" "C1" "BBPS" 1000 DAY0]
      [ccb "P1" "C1" "BBPS" 1005 (DAY0 + 10 * MS_PER_DAY)] defaultOptions
      (λ r, map (λ m, (pairing m, matchScore m)) (partialMatches r)
            = [((FUZZY_MATCH, "A1", "P1"), 0.85%float)]
            ∧ exceptions r = [])
  ∧ map score (findFuzzyMatches (corp "A1" "C1" "BBPS" 1000 DAY0)
                 [ccb "P1" "C1" "BBPS" 2000 DAY0] 0.01 2) = [0.75%float]
  ∧ runGives (clockFrom NOW)
      [corp "A1" "C1" "BBPS" 1000 DAY0] [ccb "P1" "C1" "BBPS" 2000 DAY0] defaultOptions
      (λ r, partialMatches r = []
            ∧ map exceptionSummary (exceptions r)
              = [(UNMATCHED_CORPORTAL, Some 5%Z, true); (UNMATCHED_CCB, None, true)]).
Proof.
  split; [| split; [| split; [| by vm_compute]]].
  - intros i pool at_ dt.
    split; [apply findFuzzyMatches_perm | apply findFuzzyMatches_desc].
  - intros pool at_ dt st i. cbv zeta.
    split; [apply fuzzyStep_accepts_top | apply fuzzyStep_rejects].
  - intros env cs ps opts. run_returns.
    pose proof (runResults_partial_accepted env cs ps opts) as Hacc. cbv zeta in Hacc.
    split; [exact Hacc | split].
    + intros p Hnone m Hm Heq. rewrite Forall_forall in Hacc.
      destruct (Hacc m Hm) as (_ & Hq & Hrec & Hs & _).
      rewrite Hrec in Hs. cbn [matchScore fuzzyRecord] in Hs.
      rewrite Heq in Hs. rewrite (Hnone _ Hq) in Hs. discriminate Hs.
    + intros Hinc p q Hp [Hq Hfree] Hs.
      by apply (leftover_reaching_threshold_is_matched env cs ps opts p q).
Qed.

(** C5, the claim as stated fails: the posting row of 10090.00 is scored
    against the intake row of 10000.00, ranked (score 0.9) and accepted
    as its fuzzy match, although the two rounded amounts are 90 apart. *)
Lemma candidate_outside_adjacent_buckets :
  Spec.adjacentBucket (AMOUNT wide_intake) (AMOUNT wide_posting) = false
  ∧ map payment (findFuzzyMatches wide_intake [wide_posting] 0.01 2) = [wide_posting]
  ∧ map score (findFuzzyMatches wide_intake [wide_posting] 0.01 2) = [0.9%float]
  ∧ runGives (clockFrom NOW) [wide_intake] [wide_posting] defaultOptions
      (λ r, map pairing (partialMatches r) = [(FUZZY_MATCH, "A1", "P1")]).
Proof. by vm_compute. Qed.

(** C5, amended.  The candidate set is not confined to the same or the
    adjacent [byAmount] buckets: for every intake row, every posting row
    handed to [findFuzzyMatches] is scored, and the candidates ranked are
    exactly those whose score is positive, a row outside the adjacent
    buckets among them.  In a run with the fuzzy phase enabled, an intake
    row and a posting row that both remain unmatched never score 0.8 or
    more for each other, whatever their rounded amounts. *)
Theorem fuzzy_candidates_are_all_remaining_rows :
  (∀ i pool at_ dt,
     findFuzzyMatches i pool at_ dt
     ≡ₚ filter positiveScore (scoreCandidate i at_ dt <$> pool))
  ∧ (∀ i pool at_ dt c,
       c ∈ findFuzzyMatches i pool at_ dt
       ↔ ∃ q, q ∈ pool ∧ c = scoreCandidate i at_ dt q ∧ positiveScore c)
  ∧ (∀ i pool at_ dt q,
       q ∈ pool → Spec.adjacentBucket (AMOUNT i) (AMOUNT q) = false →
       positiveScore (scoreCandidate i at_ dt q) →
       scoreCandidate i at_ dt q ∈ findFuzzyMatches i pool at_ dt)
  ∧ (∀ env cs ps opts,
       afterRun env cs ps opts
         (λ r,
            includePartialMatches opts = true →
            ∀ p q, p ∈ cs → q ∈ ps →
                   CORPORTAL_ROWID p ∉ intakeIds r → CCB_ROWID q ∉ postingIds r →
                   (0.8 <=? score (scoreCandidate p (amountTolerance opts)
                                     (daysTolerance opts) q))%float = false)).
Proof.
  assert (∀ i pool at_ dt c,
            c ∈ findFuzzyMatches i pool at_ dt
            ↔ ∃ q, q ∈ pool ∧ c = scoreCandidate i at_ dt q ∧ positiveScore c) as Hmem.
  { intros i pool at_ dt c. rewrite (findFuzzyMatches_perm i pool at_ dt).
    rewrite list_elem_of_filter, list_elem_of_fmap. split.
    - intros (Hpos & q & -> & Hq). by exists q.
    - intros (q & Hq & -> & Hpos). split; [done | by exists q]. }
  split; [exact findFuzzyMatches_perm | split; [exact Hmem | split]].
  - intros i pool at_ dt q Hq _ Hpos. apply Hmem. by exists q.
  - intros env cs ps opts. run_returns. intros Hinc p q Hp Hq Hpid Hqid.
    destruct (0.8 <=? score (scoreCandidate p (amountTolerance opts)
                                (daysTolerance opts) q))%float eqn:Hs; [| done].
    exfalso.
    destruct (leftover_reaching_threshold_is_matched env cs ps opts p q Hinc Hp Hq)
      as [(m & Hm & Heq) | (m & Hm & Heq)]; [| done | |].
    + intros e He Hid. apply Hqid. unfold postingIds.
      apply list_elem_of_fmap. exists e. split; [done |]. apply elem_of_app. by left.
    + apply Hpid. unfold intakeIds.
      apply list_elem_of_fmap. exists m. split; [done |]. apply elem_of_app. by left.
    + apply Hpid. unfold intakeIds.
      apply list_elem_of_fmap. exists m. split; [by rewrite Heq |].
      apply elem_of_app. by right.
Qed.

(** ** When a run returns *)

(** X30.  A run returns exactly when no row of either side has a
    [CONSUMER_ID] that names a member of [Object.prototype]; a row whose
    [CONSUMER_ID] is "constructor" makes it throw.  The composite key is
    one string, so that rows that differ in consumer, amount and mode can
    carry the same key and be paired by the exact phase; the day under
    which a row is filed is its calendar day in the zone of the process. *)
Theorem run_returns_iff_rows_indexable :
  (∀ env cs ps opts,
     is_Some (performDetailedReconciliation env cs ps opts)
     ↔ indexable cs ∧ indexable ps)
  ∧ performDetailedReconciliation (clockFrom NOW)
      [corp "A1" "constructor" "BBPS" 500 DAY0] [] defaultOptions = None
  ∧ exactKey scenario_posting = "C1-1000.01-BBPS"
  ∧ exactKey (corp "A1" "C1-5" "M" 7 DAY0) = exactKey (ccb "P1" "C1" "7-M" 5 DAY0)
  ∧ runGives (clockFrom NOW)
      [corp "A1" "C1-5" "M" 7 DAY0] [ccb "P1" "C1" "7-M" 5 DAY0] defaultOptions
      (λ r, map pairing (matches r) = [(EXACT_MATCH, "A1", "P1")])
  ∧ moment_format_date {| clock := λ _, 0%Z; utcOffset := 330 |} (DAY0 - 3600000)
    = "2023-11-15"
  ∧ moment_format_date {| clock := λ _, 0%Z; utcOffset := 0 |} (DAY0 - 3600000)
    = "2023-11-14".
Proof.
  split; [| by vm_compute].
  intros env cs ps opts. rewrite performDetailedReconciliation_runResults.
  destruct (decide (indexable cs ∧ indexable ps)) as [H | H].
  - split; [done | by eexists].
  - split; [by intros [r Hr] | done].
Qed.

(** ** The report of the export service *)

Lemma calculateDaysDifference_quot date1 date2 :
  calculateDaysDifference date1 date2 = (Z.abs (date2 - date1) / MS_PER_DAY)%Z.
Proof.
  unfold calculateDaysDifference, moment_diff_days, MS_PER_DAY.
  rewrite <- (Z.quot_abs (date2 - date1) 86400000) by lia.
  change (Z.abs 86400000) with 86400000%Z.
  apply Z.quot_div_nonneg; lia.
Qed.

Lemma finalExceptions_old env cs ps st e :
  steadyClock env →
  e ∈ finalExceptions env cs ps st → exceeds (daysSincePayment e) 5 = true →
  exc_type e = UNMATCHED_CORPORTAL ∧ requiresAction e = true.
Proof.
  intros Hclock He Hold.
  apply list_elem_of_lookup in He as (k & Hk).
  apply finalExceptions_lookup in Hk as [(p & _ & ->) | (j & q & _ & _ & ->)]; [| done].
  split; [done |]. cbn [daysSincePayment exceeds requiresAction intakeException] in *.
  apply bool_decide_eq_true in Hold.
  unfold requiresActionCheck. cbv zeta. apply bool_decide_eq_true.
  rewrite calculateDaysDifference_quot in *.
  specialize (Hclock (1 + 2 * k)).
  replace (S (1 + 2 * k)) with (2 + 2 * k) in Hclock by lia.
  unfold MS_PER_DAY in *.
  set (a1 := Z.abs (clock env (1 + 2 * k) - PAYMENT_DATE p)) in *.
  set (a2 := Z.abs (clock env (2 + 2 * k) - PAYMENT_DATE p)).
  assert (a1 - 86400000 < a2)%Z as Hnear by (subst a1 a2; lia).
  pose proof (Z.mul_div_le a1 86400000 ltac:(lia)) as Hlow.
  assert (5 <= a2 / 86400000)%Z by (apply Z.div_le_lower_bound; lia).
  destruct (String.eqb (PAYMENT_MODE p) "BANK_COUNTER"); lia.
Qed.

(** X22.  With a clock whose successive readings are less than a day apart:
    on the exceptions of a run, the exceptions the report counts as older
    than 5 days are intake rows that require action; an unmatched posting
    row is never among them, however old it is.  The report has no
    action beyond its two routine lines exactly when no exception of the
    run requires action. *)
Theorem next_actions_of_a_run env cs ps opts :
  steadyClock env →
  afterRun env cs ps opts
    (λ r,
       let es := exceptions r in
       Forall (λ e, exceeds (daysSincePayment e) 5 = true →
                    exc_type e = UNMATCHED_CORPORTAL ∧ requiresAction e = true) es
       ∧ (generateNextActions es
          = ["Routine: Schedule next reconciliation run for tomorrow";
             "Follow-up: Verify resolution of previously identified exceptions"]
          ↔ Forall (λ e, requiresAction e = false) es)).
Proof.
  intros Hclock. run_returns.
  cbv zeta.
  change (exceptions (runResults env cs ps opts))
    with (finalExceptions env cs ps (matchedRun env cs ps opts)).
  set (es := finalExceptions env cs ps (matchedRun env cs ps opts)).
  assert (Forall (λ e, exceeds (daysSincePayment e) 5 = true →
                       exc_type e = UNMATCHED_CORPORTAL ∧ requiresAction e = true) es)
    as Hold.
  { apply Forall_forall. intros e He Hgt.
    by apply (finalExceptions_old env cs ps (matchedRun env cs ps opts)). }
  split; [exact Hold |].
  unfold generateNextActions. cbv zeta.
  destruct (filter (λ e, requiresAction e = true) es) as [| c crit] eqn:Hc.
  - assert (Forall (λ e, requiresAction e = false) es) as Hnone.
    { apply Forall_forall. intros e He.
      destruct (requiresAction e) eqn:Hr; [| done].
      assert (e ∈ filter (λ e, requiresAction e = true) es) as Hin
        by (by apply list_elem_of_filter).
      rewrite Hc in Hin. by apply elem_of_nil in Hin. }
    assert (filter (λ e, exceeds (daysSincePayment e) 5 = true) es = []) as ->.
    { destruct (filter (λ e, exceeds (daysSincePayment e) 5 = true) es) as [| o old] eqn:Ho;
        [done |].
      assert (o ∈ filter (λ e, exceeds (daysSincePayment e) 5 = true) es) as Hin
        by (rewrite Ho; by left).
      apply list_elem_of_filter in Hin as [Hgt Hin].
      rewrite Forall_forall in Hold, Hnone.
      destruct (Hold o Hin Hgt) as [_ Hr]. by rewrite (Hnone o Hin) in Hr. }
    by simpl.
  - rewrite (bool_decide_eq_true_2 (0 < length (c :: crit))) by (simpl; lia). split.
    + destruct (bool_decide _); simpl; intros [= H _]; discriminate H.
    + intros Hnone.
      assert (c ∈ filter (λ e, requiresAction e = true) es) as Hin
        by (rewrite Hc; by left).
      apply list_elem_of_filter in Hin as [Hr Hin].
      rewrite Forall_forall in Hnone. by rewrite (Hnone c Hin) in Hr.
Qed.

(** A run a week after the payment date, with one unmatched row on each
    side. *)
Lemma next_actions_example :
  steadyClock (clockFrom (DAY0 + 7 * MS_PER_DAY))
  ∧ afterRun (clockFrom (DAY0 + 7 * MS_PER_DAY))
      [corp "A1" "C1" "BBPS" 500 DAY0] [ccb "P1" "C2" "BBPS" 700 DAY0] defaultOptions
      (λ r,
         let es := exceptions r in
         Forall (λ e, exceeds (daysSincePayment e) 5 = true →
                      exc_type e = UNMATCHED_CORPORTAL ∧ requiresAction e = true) es
         ∧ (generateNextActions es
            = ["Routine: Schedule next reconciliation run for tomorrow";
               "Follow-up: Verify resolution of previously identified exceptions"]
            ↔ Forall (λ e, requiresAction e = false) es)).
Proof.
  assert (steadyClock (clockFrom (DAY0 + 7 * MS_PER_DAY))) as H
    by (intros k; cbn [clock clockFrom]; unfold MS_PER_DAY; lia).
  split; [exact H |].
  exact (next_actions_of_a_run (clockFrom (DAY0 + 7 * MS_PER_DAY))
           [corp "A1" "C1" "BBPS" 500 DAY0] [ccb "P1" "C2" "BBPS" 700 DAY0]
           defaultOptions H).
Defined.

(** X23.  The report and the statistics print the same average settlement time
    for the matches of a run: the report appends " days" to the text the
    statistics give, and prints "0 days" where they give the number 0. *)
Theorem report_and_stats_agree_on_settlement_time env cs ps :
  afterRun env cs ps defaultOptions
    (λ r,
       afterStats env cs ps
         (λ stats,
            calculateAverageSettlementTime (matches r)
            = match avgSettlementDays stats with
              | JS.Num _ => "0 days"
              | JS.Str s => s +:+ " days"
              end
            ∧ (avgSettlementDays stats = JS.Num 0 ↔ matches r = []))).
Proof.
  run_returns. run_returns.
  change (avgSettlementDays (statsOf env cs ps))
    with (calculateAverageSettlementDays
            (matches (runResults env cs ps defaultOptions))).
  generalize (matches (runResults env cs ps defaultOptions)).
  intros ms. unfold calculateAverageSettlementTime, calculateAverageSettlementDays.
  destruct ms as [| m ms]; simpl; [done |]. split; [done |]. split; discriminate.
Qed.

(** ** The date-range middleware *)

(** X24.  The middleware lets a request through exactly when both parameters
    are present and not empty, both parse, and the range runs forwards
    over fewer than 91 full days; the range it stores is the parsed pair.
    A range of 90 days and some hours is therefore within the limit. *)
Theorem validateDateRange_accepts_iff moment fromDate toDate from to :
  validateDateRange moment fromDate toDate = inr (from, to)
  ↔ ∃ f t, fromDate = Some f ∧ toDate = Some t ∧ f ≠ "" ∧ t ≠ ""
           ∧ moment f = Some from ∧ moment t = Some to
           ∧ (0 <= to - from < 91 * MS_PER_DAY)%Z.
Proof.
  unfold validateDateRange, moment_diff_days, MS_PER_DAY. split.
  - destruct fromDate as [f |], toDate as [t |]; try discriminate.
    destruct (String.eqb f "") eqn:Ef; [discriminate |].
    destruct (String.eqb t "") eqn:Et; [discriminate |]. cbn [orb].
    apply String.eqb_neq in Ef, Et.
    destruct (moment f) as [a |] eqn:Ha, (moment t) as [b |] eqn:Hb; try discriminate.
    destruct (b <? a)%Z eqn:Hlt; [discriminate |].
    destruct (90 <? Z.quot (b - a) 86400000)%Z eqn:Hbig; [discriminate |].
    apply Z.ltb_ge in Hlt, Hbig.
    intros [= <- <-]. exists f, t. repeat split; try done; [lia |].
    destruct (Z.lt_ge_cases (b - a) (91 * 86400000)) as [H | H]; [done |].
    assert (91 <= Z.quot (b - a) 86400000)%Z by (apply Z.quot_le_lower_bound; lia).
    lia.
  - intros (f & t & -> & -> & Hf & Ht & -> & -> & Hr).
    apply String.eqb_neq in Hf, Ht. rewrite Hf, Ht. cbn [orb].
    rewrite (proj2 (Z.ltb_ge to from)) by lia.
    assert (Z.quot (to - from) 86400000 < 91)%Z
      by (apply Z.quot_lt_upper_bound; lia).
    by rewrite (proj2 (Z.ltb_ge 90 _)) by lia.
Qed.

(** ** The summary of the payment model *)

Lemma Set_of_spec `{EqDecision K} (l : list K) :
  NoDup (Set_of l) ∧ ∀ x, x ∈ Set_of l ↔ x ∈ l.
Proof.
  unfold Set_of.
  assert (∀ seen : list K,
            NoDup seen →
            NoDup (foldl (λ seen k, if decide (k ∈ seen) then seen else seen ++ [k]) seen l)
            ∧ ∀ x, x ∈ foldl (λ seen k, if decide (k ∈ seen) then seen else seen ++ [k])
                         seen l
                   ↔ x ∈ seen ∨ x ∈ l) as H.
  { induction l as [| k l IH]; intros seen Hnd; simpl.
    - split; [done |]. intros x. rewrite elem_of_nil. tauto.
    - destruct (decide (k ∈ seen)) as [Hin | Hout].
      + destruct (IH seen Hnd) as [H1 H2]. split; [done |].
        intros x. rewrite H2, elem_of_cons. split; [tauto |].
        intros [? | [-> | ?]]; auto.
      + destruct (IH (seen ++ [k])) as [H1 H2].
        { apply NoDup_app. split; [done |]. split; [| apply NoDup_singleton].
          intros x Hx ->%list_elem_of_singleton. done. }
        split; [done |]. intros x.
        rewrite H2, elem_of_app, list_elem_of_singleton, elem_of_cons. tauto. }
  destruct (H [] (NoDup_nil_2)) as [H1 H2]. split; [done |].
  intros x. rewrite H2, elem_of_nil. tauto.
Qed.

Lemma sumOver_cons {K} (f : K → Z) k ks :
  sumOver f (k :: ks) = (f k + sumOver f ks)%Z.
Proof. reflexivity. Qed.

Lemma sumOver_zero {K} (ks : list K) : sumOver (λ _, 0%Z) ks = 0%Z.
Proof. induction ks as [| k ks IH]; [done |]. by rewrite sumOver_cons, IH. Qed.

Lemma sumOver_ext {K} (f g : K → Z) ks :
  (∀ k, k ∈ ks → f k = g k) → sumOver f ks = sumOver g ks.
Proof.
  induction ks as [| k ks IH]; intros H; [done |].
  rewrite !sumOver_cons, (H k) by (by left). rewrite IH; [done |].
  intros x Hx. apply H. by right.
Qed.

Lemma sumOver_add {K} (f g : K → Z) ks :
  sumOver (λ k, (f k + g k)%Z) ks = (sumOver f ks + sumOver g ks)%Z.
Proof. induction ks as [| k ks IH]; [done |]. rewrite !sumOver_cons, IH. lia. Qed.

Lemma sumOver_scale {K} (a : Z) (f : K → Z) ks :
  sumOver (λ k, (a * f k)%Z) ks = (a * sumOver f ks)%Z.
Proof. induction ks as [| k ks IH]; [simpl; lia |]. rewrite !sumOver_cons, IH. lia. Qed.

Lemma sumOver_le {K} (f g : K → Z) ks :
  (∀ k, (f k <= g k)%Z) → (sumOver f ks <= sumOver g ks)%Z.
Proof.
  intros H. induction ks as [| k ks IH]; [done |].
  rewrite !sumOver_cons. specialize (H k). lia.
Qed.

Lemma sumOver_indicator `{EqDecision K} (k0 : K) ks :
  NoDup ks → k0 ∈ ks →
  sumOver (λ k, if decide (k0 = k) then 1%Z else 0%Z) ks = 1%Z.
Proof.
  induction 1 as [| k ks Hk Hnd IH]; intros Hin; [by apply elem_of_nil in Hin |].
  rewrite sumOver_cons. destruct (decide (k0 = k)) as [<- | Hne].
  - rewrite (sumOver_ext _ (λ _, 0%Z)); [by rewrite sumOver_zero |].
    intros x Hx. destruct (decide (k0 = x)) as [<- | ?]; done.
  - apply elem_of_cons in Hin as [? | Hin]; [done |]. by rewrite IH.
Qed.

(** Counting the rows key by key counts every row once. *)
Lemma sumOver_keyCount `{PaymentRow A} (rows : list A) ks :
  NoDup ks → (∀ x, x ∈ rows → exactKey x ∈ ks) →
  sumOver (keyCount rows) ks = Z.of_nat (length rows).
Proof.
  intros Hnd. induction rows as [| x rows IH]; intros Hcover.
  - rewrite (sumOver_ext _ (λ _, 0%Z)); [by rewrite sumOver_zero | done].
  - rewrite (sumOver_ext _ (λ k, ((if decide (exactKey x = k) then 1 else 0)
                                   + keyCount rows k)%Z)).
    + rewrite sumOver_add, sumOver_indicator, IH; [simpl length; lia | | done |].
      * intros y Hy. apply Hcover. by right.
      * apply Hcover. by left.
    + intros k _. unfold keyCount. rewrite filter_cons.
      destruct (decide (exactKey x = k)); simpl length; lia.
Qed.

Lemma groupPayments_lookup `{PaymentRow A} (rows : list A) k :
  Z.of_nat (length (default [] (PaymentReconciliation.groupPayments rows !! k)))
  = keyCount rows k.
Proof.
  unfold PaymentReconciliation.groupPayments, keyCount.
  rewrite push_fold_lookup, lookup_empty. by destruct (filter _ rows).
Qed.

Lemma keyCount_nonneg `{PaymentRow A} (rows : list A) k : (0 <= keyCount rows k)%Z.
Proof. unfold keyCount. lia. Qed.

(** What the loop over the keys adds to each counter. *)
Lemma countKey_foldl cs ps ks s :
  let c := keyCount cs in
  let p := keyCount ps in
  let s' := foldl (PaymentReconciliation.countKey
                     (PaymentReconciliation.groupPayments cs)
                     (PaymentReconciliation.groupPayments ps)) s ks in
  PaymentReconciliation.matched s'
  = (PaymentReconciliation.matched s + sumOver (λ k, Z.min (c k) (p k)) ks)%Z
  ∧ PaymentReconciliation.unmatchedCorportal s'
    = (PaymentReconciliation.unmatchedCorportal s
       + sumOver (λ k, if (p k =? 0)%Z then c k else 0%Z) ks)%Z
  ∧ PaymentReconciliation.unmatchedCCB s'
    = (PaymentReconciliation.unmatchedCCB s
       + sumOver (λ k, if (c k =? 0)%Z then p k else 0%Z) ks)%Z
  ∧ PaymentReconciliation.amountMismatch s'
    = (PaymentReconciliation.amountMismatch s
       + sumOver (λ k, if (0 <? c k)%Z && (0 <? p k)%Z then Z.abs (c k - p k) else 0%Z)
                 ks)%Z.
Proof.
  cbv zeta. revert s. induction ks as [| k ks IH]; intros s.
  - cbn [foldl]. unfold sumOver. simpl. repeat split; lia.
  - cbn [foldl]. rewrite !sumOver_cons.
    destruct (IH (PaymentReconciliation.countKey
                    (PaymentReconciliation.groupPayments cs)
                    (PaymentReconciliation.groupPayments ps) s k))
      as (-> & -> & -> & ->).
    unfold PaymentReconciliation.countKey. cbv zeta.
    rewrite !groupPayments_lookup.
    pose proof (keyCount_nonneg cs k). pose proof (keyCount_nonneg ps k).
    destruct (0 <? keyCount cs k)%Z eqn:Ec, (0 <? keyCount ps k)%Z eqn:Ep; cbn [andb];
      [destruct (keyCount cs k =? keyCount ps k)%Z eqn:Ee; cbn [negb] | | |];
      cbn [PaymentReconciliation.matched PaymentReconciliation.unmatchedCorportal
           PaymentReconciliation.unmatchedCCB PaymentReconciliation.amountMismatch];
      destruct (keyCount ps k =? 0)%Z eqn:Ep0, (keyCount cs k =? 0)%Z eqn:Ec0;
      repeat split; lia.
Qed.

Lemma allKeys_spec (cs : list CorportalPayment) (ps : list CCBPayment) :
  let allKeys := Set_of (Set_of (exactKey <$> cs) ++ Set_of (exactKey <$> ps)) in
  NoDup allKeys
  ∧ (∀ x, x ∈ cs → exactKey x ∈ allKeys)
  ∧ (∀ x, x ∈ ps → exactKey x ∈ allKeys).
Proof.
  cbv zeta.
  destruct (Set_of_spec (Set_of (exactKey <$> cs) ++ Set_of (exactKey <$> ps))) as [Hnd Hin].
  destruct (Set_of_spec (exactKey <$> cs)) as [_ Hc].
  destruct (Set_of_spec (exactKey <$> ps)) as [_ Hp].
  split; [done |]. split; intros x Hx; apply Hin, elem_of_app.
  - left. apply Hc, list_elem_of_fmap. by exists x.
  - right. apply Hp, list_elem_of_fmap. by exists x.
Qed.

(** X25.  The summary of the payment model counts every row once: a key shared
    by both sides contributes its smaller bucket to [matchedCount] on
    each side and the surplus to [amountMismatchCount], a key of one side
    contributes its bucket to that side's unmatched counter.  A row is
    matched at most once, so [matchedCount] exceeds neither row count. *)
Theorem model_summary_counts_every_row_once cs ps :
  let s := PaymentReconciliation.getReconciliationSummary cs ps in
  (PaymentReconciliation.corportalCount s + PaymentReconciliation.ccbCount s
   = 2 * PaymentReconciliation.matchedCount s
     + PaymentReconciliation.amountMismatchCount s
     + PaymentReconciliation.unmatchedCorportalCount s
     + PaymentReconciliation.unmatchedCCBCount s)%Z
  ∧ (0 <= PaymentReconciliation.matchedCount s <= PaymentReconciliation.corportalCount s)%Z
  ∧ (PaymentReconciliation.matchedCount s <= PaymentReconciliation.ccbCount s)%Z.
Proof.
  cbv zeta. unfold PaymentReconciliation.getReconciliationSummary. cbv zeta.
  cbn [PaymentReconciliation.corportalCount PaymentReconciliation.ccbCount
       PaymentReconciliation.matchedCount PaymentReconciliation.amountMismatchCount
       PaymentReconciliation.unmatchedCorportalCount
       PaymentReconciliation.unmatchedCCBCount].
  destruct (allKeys_spec cs ps) as (Hnd & Hc & Hp). cbv zeta in Hnd, Hc, Hp.
  set (ks := Set_of (Set_of (exactKey <$> cs) ++ Set_of (exactKey <$> ps))) in *.
  destruct (countKey_foldl cs ps ks (PaymentReconciliation.mkCounters 0 0 0 0))
    as (-> & -> & -> & ->).
  cbn [PaymentReconciliation.matched PaymentReconciliation.unmatchedCorportal
       PaymentReconciliation.unmatchedCCB PaymentReconciliation.amountMismatch].
  rewrite <- (sumOver_keyCount cs ks Hnd Hc), <- (sumOver_keyCount ps ks Hnd Hp).
  rewrite !Z.add_0_l.
  assert (∀ k, 0 <= keyCount cs k)%Z as Hc0 by (intros; apply keyCount_nonneg).
  assert (∀ k, 0 <= keyCount ps k)%Z as Hp0 by (intros; apply keyCount_nonneg).
  split; [| split; [split |]].
  - rewrite <- (sumOver_scale 2), <- !sumOver_add. apply sumOver_ext. intros k _.
    specialize (Hc0 k). specialize (Hp0 k).
    set (c := keyCount cs k) in *. set (p := keyCount ps k) in *. clearbody c p.
    destruct (0 <? c)%Z eqn:E1, (0 <? p)%Z eqn:E2,
             (p =? 0)%Z eqn:E3, (c =? 0)%Z eqn:E4;
      cbn [andb]; lia.
  - rewrite <- (sumOver_zero ks) at 1. apply sumOver_le. intros k.
    specialize (Hc0 k). specialize (Hp0 k). lia.
  - apply sumOver_le. intros k. lia.
  - apply sumOver_le. intros k. lia.
Qed.

Lemma lookupMap_has `{PaymentRow A} (rows : list A) k :
  is_Some (PaymentReconciliation.lookupMap rows !! k) ↔ keyCount rows k ≠ 0%Z.
Proof.
  unfold PaymentReconciliation.lookupMap, keyCount.
  assert (∀ m0 : gmap string A,
            is_Some (foldl (λ m payment, <[exactKey payment := payment]> m) m0 rows !! k)
            ↔ is_Some (m0 !! k) ∨ filter (λ x, exactKey x = k) rows ≠ []) as Hgen.
  { induction rows as [| x rows IH]; intros m0; cbn [foldl].
    - split; [by left | by intros [? | ?]].
    - rewrite IH, filter_cons. destruct (decide (exactKey x = k)) as [<- | Hne].
      + rewrite lookup_insert_eq. split; [intros _; by right | intros _; by left].
      + by rewrite lookup_insert_ne. }
  rewrite Hgen, lookup_empty. split.
  - intros [[? [=]] | Hne]. destruct (filter _ rows); [done | simpl; lia].
  - intros Hne. right. intros Heq. by rewrite Heq in Hne.
Qed.

Lemma foldl_unless_append {A B} (skip : A → bool) (f : A → B) (l : list A) (acc : list B) :
  foldl (λ acc x, if skip x then acc else acc ++ [f x]) acc l
  = acc ++ (f <$> filter (λ x, skip x = false) l).
Proof.
  revert acc. induction l as [| x l IH]; intros acc; cbn [foldl].
  - by rewrite app_nil_r.
  - rewrite IH, filter_cons. destruct (skip x); simpl; [done |].
    by rewrite <- app_assoc.
Qed.

Lemma keyCount_filter `{PaymentRow A} (P : string → bool) (rows : list A) k :
  keyCount (filter (λ x, P (exactKey x) = false) rows) k
  = if P k then 0%Z else keyCount rows k.
Proof.
  unfold keyCount. induction rows as [| x rows IH].
  - by destruct (P k).
  - rewrite !filter_cons. destruct (P (exactKey x)) eqn:Ex.
    + rewrite decide_False by done. rewrite IH.
      destruct (decide (exactKey x = k)) as [<- | ?]; [by rewrite Ex | done].
    + rewrite decide_True by done. rewrite !filter_cons.
      destruct (decide (exactKey x = k)) as [<- | ?]; [| done].
      rewrite Ex in *. simpl length. lia.
Qed.

(** X26.  The exceptions of the payment model agree with its summary: the
    summary's two unmatched counters are the numbers of exceptions of
    the two kinds that [getExceptions] returns for the same rows. *)
Theorem model_exceptions_agree_with_summary cs ps :
  let s := PaymentReconciliation.getReconciliationSummary cs ps in
  let es := PaymentReconciliation.getExceptions cs ps in
  Z.of_nat (length (filter (λ e, PaymentReconciliation.type e = UNMATCHED_CORPORTAL) es))
  = PaymentReconciliation.unmatchedCorportalCount s
  ∧ Z.of_nat (length (filter (λ e, PaymentReconciliation.type e = UNMATCHED_CCB) es))
    = PaymentReconciliation.unmatchedCCBCount s.
Proof.
  cbv zeta. unfold PaymentReconciliation.getReconciliationSummary. cbv zeta.
  cbn [PaymentReconciliation.unmatchedCorportalCount
       PaymentReconciliation.unmatchedCCBCount].
  destruct (allKeys_spec cs ps) as (Hnd & Hc & Hp). cbv zeta in Hnd, Hc, Hp.
  set (ks := Set_of (Set_of (exactKey <$> cs) ++ Set_of (exactKey <$> ps))) in *.
  destruct (countKey_foldl cs ps ks (PaymentReconciliation.mkCounters 0 0 0 0))
    as (_ & -> & -> & _).
  cbn [PaymentReconciliation.unmatchedCorportal PaymentReconciliation.unmatchedCCB].
  unfold PaymentReconciliation.getExceptions. cbv zeta.
  rewrite (foldl_unless_append
             (λ x, bool_decide (is_Some (PaymentReconciliation.lookupMap cs !! exactKey x)))).
  rewrite (foldl_unless_append
             (λ x, bool_decide (is_Some (PaymentReconciliation.lookupMap ps !! exactKey x)))).
  rewrite app_nil_l, !filter_app, !length_app.
  set (l1 := filter (λ x, bool_decide (is_Some (PaymentReconciliation.lookupMap ps
                                                  !! exactKey x)) = false) cs).
  set (l2 := filter (λ x, bool_decide (is_Some (PaymentReconciliation.lookupMap cs
                                                  !! exactKey x)) = false) ps).
  assert (∀ (A : Type) (f : A → PaymentReconciliation.ExceptionRow) t (l : list A),
            (∀ x, PaymentReconciliation.type (f x) = t) →
            filter (λ e, PaymentReconciliation.type e = t) (f <$> l) = f <$> l) as Hall.
  { intros A f t l Hf. induction l as [| x l IH]; [done |].
    rewrite fmap_cons, filter_cons, decide_True by apply Hf. by rewrite IH. }
  assert (∀ (A : Type) (f : A → PaymentReconciliation.ExceptionRow) t t' (l : list A),
            t ≠ t' → (∀ x, PaymentReconciliation.type (f x) = t') →
            filter (λ e, PaymentReconciliation.type e = t) (f <$> l) = []) as Hnone.
  { intros A f t t' l Hne Hf. induction l as [| x l IH]; [done |].
    rewrite fmap_cons, filter_cons, decide_False by (rewrite Hf; congruence). exact IH. }
  rewrite (Hall _ _ UNMATCHED_CORPORTAL l1), (Hall _ _ UNMATCHED_CCB l2) by done.
  rewrite (Hnone _ _ UNMATCHED_CORPORTAL UNMATCHED_CCB l2),
          (Hnone _ _ UNMATCHED_CCB UNMATCHED_CORPORTAL l1) by done.
  rewrite !length_fmap. simpl length. rewrite Nat.add_0_r, Nat.add_0_l.
  split.
  - rewrite <- (sumOver_keyCount l1 ks Hnd).
    + rewrite Z.add_0_l. apply sumOver_ext. intros k _. unfold l1.
      pose (P := λ k : string,
                   bool_decide (is_Some (PaymentReconciliation.lookupMap ps !! k))).
      etrans; [apply (keyCount_filter P) |].
      unfold P. case_bool_decide as Hs; rewrite lookupMap_has in Hs.
      * by rewrite (proj2 (Z.eqb_neq _ _) Hs).
      * apply dec_stable in Hs. by rewrite Hs.
    + intros x [_ Hx]%list_elem_of_filter. by apply Hc.
  - rewrite <- (sumOver_keyCount l2 ks Hnd).
    + rewrite Z.add_0_l. apply sumOver_ext. intros k _. unfold l2.
      pose (P := λ k : string,
                   bool_decide (is_Some (PaymentReconciliation.lookupMap cs !! k))).
      etrans; [apply (keyCount_filter P) |].
      unfold P. case_bool_decide as Hs; rewrite lookupMap_has in Hs.
      * by rewrite (proj2 (Z.eqb_neq _ _) Hs).
      * apply dec_stable in Hs. by rewrite Hs.
    + intros x [_ Hx]%list_elem_of_filter. by apply Hp.
Qed.

Lemma getExceptions_rows cs ps e :
  e ∈ PaymentReconciliation.getExceptions cs ps →
  (∃ x, x ∈ cs ∧ PaymentReconciliation.corportalRecord e = Some x
        ∧ PaymentReconciliation.ccbRecord e = None ∧ keyCount ps (exactKey x) = 0%Z)
  ∨ (∃ y, y ∈ ps ∧ PaymentReconciliation.ccbRecord e = Some y
          ∧ PaymentReconciliation.corportalRecord e = None
          ∧ keyCount cs (exactKey y) = 0%Z).
Proof.
  unfold PaymentReconciliation.getExceptions. cbv zeta.
  rewrite (foldl_unless_append
             (λ x, bool_decide (is_Some (PaymentReconciliation.lookupMap cs !! exactKey x)))).
  rewrite (foldl_unless_append
             (λ x, bool_decide (is_Some (PaymentReconciliation.lookupMap ps !! exactKey x)))).
  rewrite app_nil_l. intros [He | He]%elem_of_app;
    apply list_elem_of_fmap in He as (x & -> & [Hno Hx]%list_elem_of_filter);
    apply bool_decide_eq_false in Hno; rewrite lookupMap_has in Hno;
    apply dec_stable in Hno; [left | right]; by exists x.
Qed.

Lemma keyCount_pos `{PaymentRow A} (rows : list A) x :
  x ∈ rows → keyCount rows (exactKey x) ≠ 0%Z.
Proof.
  intros Hx. unfold keyCount.
  assert (x ∈ filter (λ y, exactKey y = exactKey x) rows) as Hin
    by (by apply list_elem_of_filter).
  destruct (filter _ rows); [by apply elem_of_nil in Hin | simpl; lia].
Qed.

(** X27.  The payment model and the reconciliation service do not contradict
    each other on exact matches: a row that [getExceptions] of the model
    reports as unmatched is in no exact match of a run on the same rows. *)
Theorem model_exceptions_are_in_no_exact_match env cs ps opts :
  afterRun env cs ps opts
    (λ r,
       Forall (λ m, Forall (λ e, PaymentReconciliation.corportalRecord e
                                 ≠ Some (corportalPayment m)
                                 ∧ PaymentReconciliation.ccbRecord e
                                   ≠ Some (ccbPayment m))
                           (PaymentReconciliation.getExceptions cs ps))
              (matches r)).
Proof.
  run_returns.
  change (matches (runResults env cs ps opts))
    with (matches (results (matchedRun env cs ps opts))).
  eapply Forall_impl; [apply matchedRun_exact_sound |].
  intros m (_ & Hc & Hp & Hk & _). apply Forall_forall. intros e He.
  destruct (getExceptions_rows cs ps e He)
    as [(x & Hx & -> & -> & Hz) | (y & Hy & -> & -> & Hz)].
  - split; [| done]. intros [= ->]. rewrite Hk in Hz. by apply (keyCount_pos ps) in Hp.
  - split; [done |]. intros [= ->]. rewrite <- Hk in Hz. by apply (keyCount_pos cs) in Hc.
Qed.

(** ** When the efficiency is a number *)

Lemma shr_fexp_nonneg m e l :
  (0 <= m)%Z → (0 <= shr_m (fst (shr_fexp prec emax m e l)))%Z.
Proof.
  intros Hm. unfold shr_fexp, shr.
  assert (shr_m (shr_record_of_loc m l) = m) as Hrec
    by (destruct l as [| []]; reflexivity).
  destruct (fexp prec emax (Zdigits2 m + e) - e)%Z as [| n | n]; simpl fst.
  - by rewrite Hrec.
  - rewrite FloatOrder.shr_iter_m, Hrec by (by rewrite Hrec).
    apply Z.div_pos; lia.
  - by rewrite Hrec.
Qed.

Lemma binary_round_aux_not_nan s m e l :
  (0 <= m)%Z → binary_round_aux prec emax s m e l ≠ S754_nan.
Proof.
  intros Hm. unfold binary_round_aux.
  pose proof (shr_fexp_nonneg m e l Hm) as H1.
  destruct (shr_fexp prec emax m e l) as [r1 e1]. simpl in H1.
  assert (0 <= round_nearest_even (shr_m r1) (loc_of_shr_record r1))%Z as H2.
  { destruct (loc_of_shr_record r1) as [| []]; simpl; try lia.
    destruct (Z.even (shr_m r1)); lia. }
  pose proof (shr_fexp_nonneg _ e1 loc_Exact H2) as H3.
  destruct (shr_fexp prec emax _ e1 loc_Exact) as [r2 e2]. simpl in H3.
  destruct (shr_m r2) as [| q | q]; [done | | lia].
  by destruct (e2 <=? emax - prec)%Z.
Qed.

Lemma of_Z_shape z :
  (0 <= z < 2 ^ 53)%Z →
  (z = 0%Z ∧ Prim2SF (JS.of_Z z) = S754_zero false)
  ∨ (0 < z ∧ ∃ m e, Prim2SF (JS.of_Z z) = S754_finite false m e)%Z.
Proof.
  intros Hz. rewrite IntFloat.of_Z_SF by done.
  destruct z as [| p | p]; [by left | right | lia].
  split; [lia |]. rewrite IntFloat.binary_normalize_small by lia. eauto.
Qed.

Lemma SFdiv_finite_not_nan x m e :
  x = S754_zero false ∨ (∃ m' e', x = S754_finite false m' e') →
  SFdiv prec emax x (S754_finite false m e) ≠ S754_nan.
Proof.
  intros [-> | (m' & e' & ->)]; [done |]. unfold SFdiv, SFdiv_core_binary. cbv zeta.
  set (s := (e' - e - Z.min _ _)%Z).
  set (mm := match s with Z.pos _ => Z.shiftl (Z.pos m') s | 0%Z => Z.pos m' | _ => 0%Z end).
  assert (0 <= mm)%Z as Hmm.
  { unfold mm. destruct s; [lia | | lia]. apply Z.shiftl_nonneg. lia. }
  pose proof (Z.div_pos mm (Z.pos m) Hmm ltac:(lia)) as Hq.
  unfold Z.div in Hq. destruct (Z.div_eucl mm (Z.pos m)) as [q r]. simpl in Hq.
  by apply binary_round_aux_not_nan.
Qed.

Lemma SFmul_finite_not_nan x m e :
  x ≠ S754_nan → SFmul prec emax x (S754_finite false m e) ≠ S754_nan.
Proof.
  intros Hx. destruct x as [s | s | | s m' e']; try done.
  unfold SFmul. apply binary_round_aux_not_nan. lia.
Qed.

(** X28.  With at least one intake row the reconciliation efficiency is a
    number: the division that yields NaN for an empty intake list is the
    only way it fails to be one. *)
Theorem reconciliationEfficiency_is_a_number_with_intake env cs ps :
  (0 < Z.of_nat (length cs) < 2 ^ 53)%Z →
  afterStats env cs ps (λ stats, fnum (reconciliationEfficiency stats)).
Proof.
  intros Hlen. run_returns. unfold fnum, statsOf. cbv zeta.
  cbn [reconciliationEfficiency].
  pose proof (RunInv_matchedRun env cs ps defaultOptions) as Hinv.
  change (Summary.matchedPayments
            (summary (runResults env cs ps defaultOptions)))
    with (Summary.matchedPayments (summary (results (matchedRun env cs ps defaultOptions)))).
  change (Summary.totalCorportalPayments
            (summary (runResults env cs ps defaultOptions)))
    with (Summary.totalCorportalPayments
            (summary (results (matchedRun env cs ps defaultOptions)))).
  rewrite matchedRun_total, (inv_count _ Hinv).
  assert (Z.of_nat (length (matches (results (matchedRun env cs ps defaultOptions))))
          <= Z.of_nat (length cs))%Z as Hle.
  { destruct (foldl_appends (λ st, corportalPayment <$> matches (results st))
                (exactStep (indexOf env ps) (daysTolerance defaultOptions))
                (exactStep_appends _ _) cs (initialRun env cs ps)) as (l1 & Hsub & H1).
    fold (exactPhase cs (indexOf env ps) (daysTolerance defaultOptions) (initialRun env cs ps)) in H1.
    change (corportalPayment <$> matches (results (initialRun env cs ps)))
      with (@nil CorportalPayment) in H1.
    rewrite app_nil_l in H1. apply sublist_length in Hsub.
    assert (matches (results (matchedRun env cs ps defaultOptions))
            = matches (results (exactPhase cs (indexOf env ps) (daysTolerance defaultOptions)
                                           (initialRun env cs ps)))) as ->
      by apply fuzzyPhase_matches.
    rewrite <- (length_fmap corportalPayment), H1. lia. }
  rewrite mul_spec, div_spec.
  change (Prim2SF 100) with (S754_finite false 7036874417766400 (-46)).
  apply SFmul_finite_not_nan.
  destruct (of_Z_shape (Z.of_nat (length cs))) as [[Hz _] | (_ & m & e & ->)];
    [lia | lia |].
  apply SFdiv_finite_not_nan.
  destruct (of_Z_shape (Z.of_nat (length (matches (results
              (matchedRun env cs ps defaultOptions)))))) as [[_ ->] | (_ & m' & e' & ->)];
    [lia | by left | right; eauto].
Qed.

(** A run with two intake rows. *)
Lemma reconciliationEfficiency_is_a_number_example :
  (0 < Z.of_nat (length twin_intake) < 2 ^ 53)%Z
  ∧ afterStats (clockFrom NOW) twin_intake [single_posting]
      (λ stats, fnum (reconciliationEfficiency stats)).
Proof.
  assert (0 < Z.of_nat (length twin_intake) < 2 ^ 53)%Z as H by (by vm_compute).
  split; [exact H |].
  exact (reconciliationEfficiency_is_a_number_with_intake (clockFrom NOW) twin_intake
           [single_posting] H).
Defined.

(** ** Ties between fuzzy candidates *)

Lemma Array_sort_head (l : list Candidate) :
  Forall (λ c, fnum (score c)) l →
  match Array_sort (λ a b, (score b - score a)%float) l with
  | [] => l = []
  | h :: _ =>
      ∃ l1 l2, l = l1 ++ h :: l2
        ∧ (∀ c, c ∈ l1 → (score c <? score h)%float = true)
        ∧ (∀ c, c ∈ l2 → (score c <=? score h)%float = true)
  end.
Proof.
  induction 1 as [| x l Hx Hl IH]; [done |].
  cbn [Array_sort foldr]. fold (Array_sort (λ a b, (score b - score a)%float) l).
  pose proof (Array_sort_perm (λ a b, (score b - score a)%float) l) as Hperm.
  destruct (Array_sort (λ a b, (score b - score a)%float) l) as [| h s].
  - subst l. exists [], []. split; [done |].
    split; intros c Hc; by apply elem_of_nil in Hc.
  - destruct IH as (l1 & l2 & -> & H1 & H2).
    assert (fnum (score h)) as Hh.
    { rewrite Forall_forall in Hl. apply Hl. rewrite <- Hperm. by left. }
    cbn [insert_sorted]. rewrite FloatOrder.sub_pos_iff_lt.
    destruct (score x <? score h)%float eqn:E.
    + exists (x :: l1), l2. split; [done |]. split; [| done].
      intros c [-> | Hc]%elem_of_cons; auto.
    + pose proof (FloatOrder.not_ltb_leb _ _ Hx Hh E) as Hhx.
      exists [], (l1 ++ h :: l2). split; [done |].
      split; [intros c Hc; by apply elem_of_nil in Hc |].
      intros c Hc. apply elem_of_app in Hc as [Hc | Hc].
      * eapply FloatOrder.leb_trans; [| exact Hhx]. by apply FloatOrder.ltb_leb, H1.
      * apply elem_of_cons in Hc as [-> | Hc]; [done |].
        eapply FloatOrder.leb_trans; [| exact Hhx]. by apply H2.
Qed.

(** X29.  Which candidate the fuzzy phase takes when scores tie: among the
    posting rows with a positive score, taken in the order of the pool,
    the first candidate of [findFuzzyMatches] scores strictly above every
    candidate before it and at least as high as every candidate after
    it.  Of several top-scoring posting rows the earliest one is taken. *)
Theorem fuzzy_tie_goes_to_first_candidate i pool at_ dt :
  match findFuzzyMatches i pool at_ dt with
  | [] => ∀ q, q ∈ pool → (0 <? score (scoreCandidate i at_ dt q))%float = false
  | best :: _ =>
      ∃ l1 l2, filter positiveScore (scoreCandidate i at_ dt <$> pool) = l1 ++ best :: l2
        ∧ (∀ c, c ∈ l1 → (score c <? score best)%float = true)
        ∧ (∀ c, c ∈ l2 → (score c <=? score best)%float = true)
  end.
Proof.
  rewrite findFuzzyMatches_unfold.
  pose proof (Array_sort_head (filter positiveScore (scoreCandidate i at_ dt <$> pool)))
    as H.
  destruct (Array_sort _ _) as [| best rest].
  - intros q Hq.
    destruct (0 <? score (scoreCandidate i at_ dt q))%float eqn:E; [| done].
    assert (scoreCandidate i at_ dt q
            ∈ filter positiveScore (scoreCandidate i at_ dt <$> pool)) as Hin.
    { apply list_elem_of_filter. split; [done |]. apply list_elem_of_fmap. by exists q. }
    rewrite H in Hin; [by apply elem_of_nil in Hin |].
    apply Forall_forall. intros c [Hc _]%list_elem_of_filter.
    by apply FloatOrder.ltb_fnum_r in Hc.
  - apply H. apply Forall_forall. intros c [Hc _]%list_elem_of_filter.
    by apply FloatOrder.ltb_fnum_r in Hc.
Qed.
